(** * i3py method composition: a model of [i3py/core/composition.py]

    The development follows the Python module top to bottom:
    signature normalisation, the metaclass that caches one composer
    class per calling convention, the [MethodComposer] itself, the
    [customize] declaration and the [SupportMethodCustomization]
    mix-in with [modify_behavior] and [copy_custom_behaviors].

    Python objects are mutated in place and calls may raise; both are
    modelled by a state-and-exception monad: a computation takes the
    state of the object it acts on and returns the state reached
    together with either a value or the exception raised there. *)

From Stdlib Require Import Ascii.
From stdpp Require Import gmap strings list.

Local Open Scope string_scope.
Local Open Scope list_scope.

(** ** Exceptions and the state/exception monad *)

(** The places that end in a Python [ValueError]. *)
Inductive value_error :=
  | duplicate_ids       (* raised by [MethodComposer._check_duplicates] *)
  | not_in_list         (* raised by [list.index] *)
  | signature_mismatch  (* raised by an owner's [analyse_function] *)
  | unpack_mismatch.    (* raised by unpacking into the wrong number of names *)

Inductive exn :=
  | ValueError (why : value_error)
  | RuntimeError
  | KeyError
  | IndexError
  | AttributeError
  | AssertionError
  | TypeError
  | NameError
  | OutOfFuel.  (* not an exception: a loop of the model reached its bound *)

(** The names the design documents use for these failures. *)
Definition DuplicateIdentifier : exn := ValueError duplicate_ids.
Definition AnchorNotFound : exn := ValueError not_in_list.
Definition SignatureMismatch : exn := ValueError signature_mismatch.
Definition MissingFunction : exn := RuntimeError.

Inductive result (A : Type) :=
  | Ok (a : A)
  | Raise (e : exn).
Arguments Ok {A} a.
Arguments Raise {A} e.

Definition M (S A : Type) : Type := S → S * result A.

Global Instance M_ret {S} : MRet (M S) := λ A a s, (s, Ok a).
Global Instance M_bind {S} : MBind (M S) := λ A B k m s,
  match m s with
  | (s', Ok a) => k a s'
  | (s', Raise e) => (s', Raise e)
  end.

Definition raise {S A} (e : exn) : M S A := λ s, (s, Raise e).
Definition get {S} : M S S := λ s, (s, Ok s).
Definition put {S} (s : S) : M S unit := λ _, (s, Ok tt).
Definition modify {S} (f : S → S) : M S unit := λ s, (f s, Ok tt).
(** A pure computation that may raise, run without touching the state. *)
Definition lift {S A} (r : result A) : M S A := λ s, (s, r).

(** ** Python lists *)

(** [l.index(x)]: position of the first occurrence, [ValueError] if none. *)
Definition index (x : string) (l : list string) : result nat :=
  match list_find (λ y, y = x) l with
  | Some (i, _) => Ok i
  | None => Raise (ValueError not_in_list)
  end.

(** [l.insert(i, x)] for [0 <= i]: past the end it appends. *)
Definition list_insert_at {A} (i : nat) (x : A) (l : list A) : list A :=
  take i l ++ x :: drop i l.

(** [l[i]] for [0 <= i]. *)
Definition getitem {A} (l : list A) (i : nat) : result A :=
  match l !! i with
  | Some x => Ok x
  | None => Raise IndexError
  end.

(** ** Functions and their signatures *)

Inductive ParameterKind :=
  | POSITIONAL_ONLY
  | POSITIONAL_OR_KEYWORD
  | VAR_POSITIONAL
  | KEYWORD_ONLY
  | VAR_KEYWORD.

Global Instance ParameterKind_eq_dec : EqDecision ParameterKind.
Proof. solve_decision. Defined.

(** One entry of [sig.parameters]. *)
Record Param := { p_name : string; p_kind : ParameterKind }.

(** A Python function: its [__name__], the parameters [signature] reports
    and the identity of its code.  What the code does is given separately,
    by the interpretation the call of a composer is run with. *)
Record Func := { f_name : string; parameters : list Param; f_code : nat }.

(** A value of type "callable or [None]". *)
Abbreviation PyFunc := (option Func).

(** A normalised signature: a tuple of strings. *)
Abbreviation Sig := (list string).

(** [if alias and ...]: [None] and the empty string are both false. *)
Definition truthy (alias : option string) : bool :=
  match alias with
  | Some (String _ _) => true
  | _ => false
  end.

Definition norm_arg (arg : Param) (alias : option string) : string :=
  if truthy alias && bool_decide (p_name arg = "self") then default "" alias
  else if bool_decide (p_kind arg = VAR_POSITIONAL) then "*" +:+ p_name arg
  else if bool_decide (p_kind arg = VAR_KEYWORD) then "**" +:+ p_name arg
  else p_name arg.

Definition normalize_signature (sig : list Param) (alias : option string)
  : Sig :=
  (λ p, norm_arg p alias) <$> sig.

(** ** Composer classes and instances *)

(** A class built by [create_composer]: what the generated text depends on,
    and [class_id], the identity of the class object. *)
Record Shape := {
  class_id : nat;
  class_name : string;
  class_args : list string;   (* [sigs[0][1:]] *)
  class_chain : string        (* [chain_on or ''] *)
}.

Record MethodComposer := {
  __class__ : Shape;
  __self__ : nat;             (* identity of the owning object *)
  __name__ : string;
  _alias : option string;
  _chain_on : option string;
  _names : list string;
  _methods : list PyFunc;
  _signatures : list Sig
}.

Definition set_names (l : list string) (c : MethodComposer) : MethodComposer :=
  {| __class__ := __class__ c; __self__ := __self__ c; __name__ := __name__ c;
     _alias := _alias c; _chain_on := _chain_on c;
     _names := l; _methods := _methods c; _signatures := _signatures c |}.

Definition set_methods (l : list PyFunc) (c : MethodComposer) : MethodComposer :=
  {| __class__ := __class__ c; __self__ := __self__ c; __name__ := __name__ c;
     _alias := _alias c; _chain_on := _chain_on c;
     _names := _names c; _methods := l; _signatures := _signatures c |}.

(** [MethodComposer.__init__], run on an instance of class [cls]. *)
Definition __init__ (cls : Shape) (obj : nat) (func_name : string) (func : PyFunc)
    (alias chain_on : option string) (func_id : string) (signatures : list Sig)
  : MethodComposer :=
  {| __class__ := cls; __self__ := obj; __name__ := func_name;
     _alias := alias; _chain_on := chain_on;
     _names := [func_id]; _methods := [func]; _signatures := signatures |}.

Module Composer.

Definition _check_duplicates (name : string) : M MethodComposer unit :=
  c ← get;
  if decide (name ∈ _names c) then raise (ValueError duplicate_ids)
  else mret tt.

Definition prepend (name : string) (method : PyFunc) : M MethodComposer unit :=
  _check_duplicates name;;
  modify (λ c, set_names (list_insert_at 0 name (_names c)) c);;
  modify (λ c, set_methods (list_insert_at 0 method (_methods c)) c).

Definition append (name : string) (method : PyFunc) : M MethodComposer unit :=
  _check_duplicates name;;
  modify (λ c, set_names (_names c ++ [name]) c);;
  modify (λ c, set_methods (_methods c ++ [method]) c).

Definition add_after (anchor name : string) (method : PyFunc)
  : M MethodComposer unit :=
  _check_duplicates name;;
  c ← get;
  i ← lift (index anchor (_names c));
  modify (λ c, set_names (list_insert_at (i + 1) name (_names c)) c);;
  modify (λ c, set_methods (list_insert_at (i + 1) method (_methods c)) c).

Definition add_before (anchor name : string) (method : PyFunc)
  : M MethodComposer unit :=
  _check_duplicates name;;
  c ← get;
  i ← lift (index anchor (_names c));
  modify (λ c, set_names (list_insert_at i name (_names c)) c);;
  modify (λ c, set_methods (list_insert_at i method (_methods c)) c).

(** [self._methods[i] = method] raises [IndexError] past the end. *)
Definition replace (name : string) (method : PyFunc) : M MethodComposer unit :=
  c ← get;
  i ← lift (index name (_names c));
  if decide (i < length (_methods c)) then
    put (set_methods (<[i := method]> (_methods c)) c)
  else raise IndexError.

(** [del self._names[i]] and then [del self._methods[i]], which raises
    [IndexError] past the end. *)
Definition remove (name : string) : M MethodComposer unit :=
  c ← get;
  i ← lift (index name (_names c));
  modify (λ c, set_names (delete i (_names c)) c);;
  c ← get;
  if decide (i < length (_methods c)) then
    put (set_methods (delete i (_methods c)) c)
  else raise IndexError.

Definition reset : M MethodComposer unit :=
  modify (set_names []);;
  modify (set_methods []).

Definition __getitem__ (key : string) (c : MethodComposer) : result PyFunc :=
  match index key (_names c) with
  | Ok i => getitem (_methods c) i
  | Raise e => Raise e
  end.

Definition __contains__ (item : string) (c : MethodComposer) : bool :=
  bool_decide (item ∈ _names c).

(** [clone] builds [type(self)(new_obj or self.__self__, self, self._alias,
    self._chain_on, '', self._signatures)] and then copies the two lists.
    The metaclass is entered with the signatures and the chain the class of
    [self] was registered under, so the class it finds is [type(self)]. *)
Definition clone (new_obj : option nat) (c : MethodComposer) : MethodComposer :=
  let new := __init__ (__class__ c) (default (__self__ c) new_obj)
               (__name__ c) None (_alias c) (_chain_on c) "" (_signatures c) in
  set_methods (_methods c) (set_names (_names c) new).

End Composer.

(** ** Computations that only raise *)

Global Instance result_ret : MRet result := λ A a, Ok a.
Global Instance result_bind : MBind result := λ A B k r,
  match r with
  | Ok a => k a
  | Raise e => Raise e
  end.

(** ** The metaclass and its cache of composer classes *)

(** The state of [MetaMethodComposer]: the class attribute [sigs], and the
    number of classes created so far, which is the identity given to the
    next class object. *)
Record MetaMethodComposer := {
  sigs : gmap (list Sig * option string) Shape;
  classes_created : nat
}.

(** [create_composer(name, sigs, chain_on)]: [sigs[0]] raises [IndexError] on
    an empty list; executing the class statement creates a new class object.
    The definition gives the outcome of [exec_] on a text that is a class
    statement; a text that is none (the name of a lambda is [<lambda>]) makes
    [exec_] raise [SyntaxError], which the definition leaves out. *)
Definition create_composer (name : string) (sigs_ : list Sig)
    (chain_on : option string) : M MetaMethodComposer Shape :=
  let chain := default "" chain_on in
  let name := name +:+ "Composer" in
  sig0 ← lift (getitem sigs_ 0);
  let sig := drop 1 sig0 in
  meta ← get;
  put {| sigs := sigs meta; classes_created := S (classes_created meta) |};;
  mret {| class_id := classes_created meta; class_name := name;
          class_args := sig; class_chain := chain |}.

(** [if not signatures]: [None] and the empty list are both false. *)
Definition accepted_signatures (func : Func) (alias : option string)
    (signatures : option (list Sig)) : list Sig :=
  match signatures with
  | Some (s :: l) => s :: l
  | _ => [normalize_signature (parameters func) alias]
  end.

(** [MetaMethodComposer.__call__]: what [MethodComposer(obj, func, alias,
    chain_on, func_id, signatures)] runs. *)
Definition MetaMethodComposer__call__ (obj : nat) (func : Func)
    (alias chain_on : option string) (func_id : string)
    (signatures : option (list Sig)) : M MetaMethodComposer MethodComposer :=
  let sigs_ := accepted_signatures func alias signatures in
  let id_ := (sigs_, chain_on) in
  meta ← get;
  match sigs meta !! id_ with
  | Some _ => mret tt
  | None =>
      subclass ← create_composer (f_name func) sigs_ chain_on;
      modify (λ meta, {| sigs := <[id_ := subclass]> (sigs meta);
                         classes_created := classes_created meta |})
  end;;
  meta ← get;
  custom_type ← lift (match sigs meta !! id_ with
                      | Some t => Ok t
                      | None => Raise KeyError
                      end);
  mret (__init__ custom_type obj (f_name func) (Some func) alias chain_on
          func_id sigs_).

(** ** Calling a composer

    [create_composer] writes the class as text:
<<
    class {name}(cls):
        __slots__ = ("sigs",)
        def __call__(self{args}):
             for m in self._methods:
                {ret}m(self.__self__{args})
             return {chain}
>>
    with [args] the tokens of [sigs[0][1:]] and [ret] the assignment
    [chain = ] when a chain is given.  The definitions below give the meaning
    of that text for a call with positional arguments, under the conditions
    that make it a valid class statement: the tokens are distinct parameter
    names, none of them [self], and the chain is a comma separated list of
    names other than [self]. *)

#[local] Set Warnings "-register-all".
Inductive pyval :=
  | VNone
  | VInt (z : Z)
  | VStr (s : string)
  | VTuple (l : list pyval)
  | VDict (kw : list (string * pyval))
  | VFunc (f : Func).

Inductive token_kind := Bare | Star | DoubleStar.

(** A token of a normalised signature read back as a formal parameter. *)
Definition read_token (tok : string) : token_kind * string :=
  match tok with
  | String "*"%char (String "*"%char x) => (DoubleStar, x)
  | String "*"%char x => (Star, x)
  | _ => (Bare, tok)
  end.

(** Binding the positional arguments of a call to the formal parameters: a
    starred parameter takes what is left as a tuple, a doubly starred one the
    (empty) dictionary of keyword arguments; too few or too many arguments
    are a [TypeError]. *)
Fixpoint bind_args (toks : list string) (args : list pyval)
  : result (gmap string pyval) :=
  match toks with
  | [] => match args with [] => Ok ∅ | _ => Raise TypeError end
  | tok :: toks' =>
      match read_token tok with
      | (Bare, x) =>
          match args with
          | [] => Raise TypeError
          | v :: args' => env ← bind_args toks' args'; mret (<[x := v]> env)
          end
      | (Star, x) => env ← bind_args toks' []; mret (<[x := VTuple args]> env)
      | (DoubleStar, x) => env ← bind_args toks' args; mret (<[x := VDict []]> env)
      end
  end.

Definition read_var (x : string) (env : gmap string pyval) : result pyval :=
  match env !! x with
  | Some v => Ok v
  | None => Raise NameError
  end.

(** The items a value yields when it is iterated over: the items of a
    tuple, the keys of a dictionary, the characters of a string; the other
    values are not iterable. *)
Definition iterate (v : pyval) : result (list pyval) :=
  match v with
  | VTuple l => Ok l
  | VDict kw => Ok ((λ kv, VStr kv.1) <$> kw)
  | VStr s => Ok ((λ c, VStr (String c "")) <$> String.list_ascii_of_string s)
  | VNone | VInt _ | VFunc _ => Raise TypeError
  end.

(** The arguments of [m(self.__self__{args})], left to right: a starred
    token unpacks what its variable iterates to, a doubly starred one a
    dictionary. *)
Fixpoint eval_args (toks : list string) (env : gmap string pyval)
  : result (list pyval * list (string * pyval)) :=
  match toks with
  | [] => Ok ([], [])
  | tok :: toks' =>
      match read_token tok with
      | (Bare, x) =>
          v ← read_var x env;
          '(pos, kw) ← eval_args toks' env;
          mret (v :: pos, kw)
      | (Star, x) =>
          v ← read_var x env;
          l ← iterate v;
          '(pos, kw) ← eval_args toks' env;
          mret (l ++ pos, kw)
      | (DoubleStar, x) =>
          v ← read_var x env;
          k ← match v with VDict k => Ok k | _ => Raise TypeError end;
          '(pos, kw) ← eval_args toks' env;
          mret (pos, k ++ kw)
      end
  end.

(** The names of a chain, split at the commas, blanks dropped. *)
Fixpoint split_chain (s : string) : string * list string :=
  match s with
  | "" => ("", [])
  | String c s' =>
      let '(seg, rest) := split_chain s' in
      if bool_decide (c = ","%char) then ("", seg :: rest)
      else if bool_decide (c = " "%char) then (seg, rest)
      else (String c seg, rest)
  end.

Definition chain_targets (chain : string) : list string :=
  match chain with
  | "" => []
  | _ => let '(seg, rest) := split_chain chain in seg :: rest
  end.

Fixpoint assign_all (targets : list string) (vals : list pyval)
    (env : gmap string pyval) : gmap string pyval :=
  match targets, vals with
  | t :: targets', v :: vals' => assign_all targets' vals' (<[t := v]> env)
  | _, _ => env
  end.

(** [{chain} = v]: nothing to assign without a chain, one name takes the
    value, several names unpack it. *)
Definition assign (targets : list string) (v : pyval) (env : gmap string pyval)
  : result (gmap string pyval) :=
  match targets with
  | [] => Ok env
  | [t] => Ok (<[t := v]> env)
  | _ =>
      vals ← iterate v;
      if decide (length vals = length targets) then Ok (assign_all targets vals env)
      else Raise (ValueError unpack_mismatch)
  end.

Fixpoint read_vars (targets : list string) (env : gmap string pyval)
  : result (list pyval) :=
  match targets with
  | [] => Ok []
  | t :: targets' =>
      v ← read_var t env;
      vs ← read_vars targets' env;
      mret (v :: vs)
  end.

(** [return {chain}]: a bare [return] gives [None]. *)
Definition return_value (targets : list string) (env : gmap string pyval)
  : result pyval :=
  match targets with
  | [] => Ok VNone
  | [t] => read_var t env
  | _ => vs ← read_vars targets env; mret (VTuple vs)
  end.

(** A step as the value of a variable. *)
Definition step_value (m : PyFunc) : pyval :=
  match m with
  | Some f => VFunc f
  | None => VNone
  end.

Section Call.

(** The state steps act on, and what calling a function with positional
    and keyword arguments does to it. *)
Context {W : Type}.
Variable call : Func → nat → list pyval → list (string * pyval) → M W pyval.

(** [for m in self._methods: {ret}m(self.__self__{args})].  The loop
    variable [m] is a local variable of the call like the parameters and the
    names of the chain: every turn of the loop binds it to the step, before
    the arguments are read. *)
Fixpoint run_methods (owner : nat) (toks targets : list string)
    (ms : list PyFunc) (env : gmap string pyval) : M W (gmap string pyval) :=
  match ms with
  | [] => mret env
  | m :: ms' =>
      let env := <["m" := step_value m]> env in
      '(pos, kw) ← lift (eval_args toks env);
      f ← lift (match m with Some f => Ok f | None => Raise TypeError end);
      r ← call f owner pos kw;
      env ← lift (assign targets r env);
      run_methods owner toks targets ms' env
  end.

(** The generated [__call__] of the class of [self]. *)
Definition __call__ (self : MethodComposer) (args : list pyval) : M W pyval :=
  let cls := __class__ self in
  let targets := chain_targets (class_chain cls) in
  env ← lift (bind_args (class_args cls) args);
  env ← run_methods (__self__ self) (class_args cls) targets (_methods self) env;
  lift (return_value targets env).

End Call.

(** ** Ordered dictionaries *)

(** An [OrderedDict] with string keys: the items in insertion order, every
    key at most once. *)
Fixpoint od_get {V} (k : string) (d : list (string * V)) : option V :=
  match d with
  | [] => None
  | (k', v) :: d' => if decide (k' = k) then Some v else od_get k d'
  end.

(** [d[k] = v]: a key already there keeps its place. *)
Fixpoint od_set {V} (k : string) (v : V) (d : list (string * V))
  : list (string * V) :=
  match d with
  | [] => [(k, v)]
  | (k', v') :: d' =>
      if decide (k' = k) then (k, v) :: d' else (k', v') :: od_set k v d'
  end.

(** [del d[k]], [KeyError] when the key is missing. *)
Fixpoint od_del {V} (k : string) (d : list (string * V))
  : result (list (string * V)) :=
  match d with
  | [] => Raise KeyError
  | (k', v') :: d' =>
      if decide (k' = k) then Ok d'
      else d'' ← od_del k d'; mret ((k', v') :: d'')
  end.

(** ** Objects whose methods can be customised *)

(** What [getattr(self, method_name)] gives: a bound method, or the composer
    that replaced it. *)
Inductive Method :=
  | Bound (f : Func)
  | Composed (c : MethodComposer).

(** One recorded modification: [(func, specifiers)]. *)
Abbreviation Modifier := (PyFunc * list string)%type.

(** A value of [_customs]: the function of a full replacement, or the
    [OrderedDict] of the modifications by id. *)
Inductive Modifiers :=
  | Replacement (f : PyFunc)
  | Mapping (mods : list (string * Modifier)).

Record SupportMethodCustomization := {
  id : nat;                          (* identity of the object *)
  name : string;
  self_alias : option string;
  methods : gmap string Method;      (* the customisable attributes *)
  _customs : list (string * Modifiers);
  _old_ids : gmap string string
}.

Definition set_method (method_name : string) (m : Method)
    (o : SupportMethodCustomization) : SupportMethodCustomization :=
  {| id := id o; name := name o; self_alias := self_alias o;
     methods := <[method_name := m]> (methods o);
     _customs := _customs o; _old_ids := _old_ids o |}.

Definition set_customs (d : list (string * Modifiers))
    (o : SupportMethodCustomization) : SupportMethodCustomization :=
  {| id := id o; name := name o; self_alias := self_alias o;
     methods := methods o; _customs := d; _old_ids := _old_ids o |}.

Definition set_old_id (method_name modif_id : string)
    (o : SupportMethodCustomization) : SupportMethodCustomization :=
  {| id := id o; name := name o; self_alias := self_alias o;
     methods := methods o; _customs := _customs o;
     _old_ids := <[method_name := modif_id]> (_old_ids o) |}.

(** [getattr(o, method_name)]. *)
Definition getattr (o : SupportMethodCustomization) (method_name : string)
  : result Method :=
  match methods o !! method_name with
  | Some m => Ok m
  | None => Raise AttributeError
  end.

(** What is reachable while a method of an object runs: the metaclass with
    its cache, and the object itself. *)
Record Heap := {
  metaclass : MetaMethodComposer;
  self : SupportMethodCustomization
}.

Definition on_self {A} (m : M SupportMethodCustomization A) : M Heap A :=
  λ h, let '(o, r) := m (self h) in
       ({| metaclass := metaclass h; self := o |}, r).

Definition on_metaclass {A} (m : M MetaMethodComposer A) : M Heap A :=
  λ h, let '(meta, r) := m (metaclass h) in
       ({| metaclass := meta; self := self h |}, r).

(** [names[index]] for a signed index: negative ones count from the end. *)
Definition getitem_Z (l : list string) (i : Z) : result string :=
  if decide (0 ≤ i)%Z then getitem l (Z.to_nat i)
  else if decide (0 ≤ Z.of_nat (length l) + i)%Z
       then getitem l (Z.to_nat (Z.of_nat (length l) + i))
  else Raise IndexError.

(** The search loop of [copy_custom_behaviors]:
<<
    while index > 0 and index < len(names)-1:
        index += shift
        name = names[index]
        if name in our_names: ... break
>>
    It answers the name the loop stops at, if any. *)
Fixpoint find_anchor (fuel : nat) (names our_names : list string)
    (shift index : Z) : result (option string) :=
  match fuel with
  | 0 => Raise OutOfFuel
  | S fuel =>
      if decide (index > 0 ∧ index < Z.of_nat (length names) - 1)%Z then
        let index := (index + shift)%Z in
        name ← getitem_Z names index;
        if decide (name ∈ our_names) then Ok (Some name)
        else find_anchor fuel names our_names shift index
      else Ok None
  end.

(** What an owner's [analyse_function] returns: the specifiers, possibly
    altered, the signatures a composer has to accept and the chain. *)
Abbreviation Analysis := (list string * option (list Sig) * option string)%type.

Section Customization.

(** [analyse_function] is abstract in [SupportMethodCustomization]: the
    owner's class provides it. *)
Variable analyse_function :
  SupportMethodCustomization → string → PyFunc → list string → result Analysis.

(** The first step of [modify_behavior] for a modification that is not
    internal: keep a description of what is asked for. *)
Definition record_intent (method_name : string) (func : PyFunc)
    (specifiers : list string) (customs : list (string * Modifiers))
  : list (string * Modifiers) :=
  match specifiers with
  | [] => od_set method_name (Replacement func) customs
  | _ =>
      match od_get method_name customs with
      | None => od_set method_name (Mapping []) customs
      | Some (Replacement old) =>
          od_set method_name (Mapping [("old", (old, ["prepend"]))]) customs
      | Some (Mapping _) => customs
      end
  end.

(** [getattr(composer, specifiers[0])] called with the arguments its name
    asks for.  The six methods that update a composer are modelled; any
    other name is answered with [AttributeError], as the code answers a name
    that is no attribute of a composer.  The other attributes a composer has
    ([reset], [clone], [__func__], ...) are left out. *)
Definition update_composer (specifiers : list string) (modif_id : string)
    (func : PyFunc) : M MethodComposer unit :=
  composer_method_name ← lift (getitem specifiers 0);
  if bool_decide (composer_method_name = "add_before") then
    anchor ← lift (getitem specifiers 1);
    Composer.add_before anchor modif_id func
  else if bool_decide (composer_method_name = "add_after") then
    anchor ← lift (getitem specifiers 1);
    Composer.add_after anchor modif_id func
  else if bool_decide (composer_method_name = "replace") then
    anchor ← lift (getitem specifiers 1);
    Composer.replace anchor func
  else if bool_decide (composer_method_name = "remove") then
    anchor ← lift (getitem specifiers 1);
    Composer.remove anchor
  else if bool_decide (composer_method_name = "prepend") then
    Composer.prepend modif_id func
  else if bool_decide (composer_method_name = "append") then
    Composer.append modif_id func
  else raise AttributeError.

(** The last step of [modify_behavior]: bring the [OrderedDict] of the
    method up to date. *)
Definition update_customs (composer : MethodComposer) (func : PyFunc)
    (specifiers : list string) (modif_id : string)
    (customs : list (string * Modifier)) : result (list (string * Modifier)) :=
  composer_method_name ← getitem specifiers 0;
  if bool_decide (composer_method_name = "remove") then
    od_del modif_id customs
  else if bool_decide (composer_method_name = "replace") then
    replaced ← getitem specifiers 1;
    match od_get replaced customs with
    | Some old => Ok (od_set replaced (func, old.2) customs)
    | None =>
        ind ← index replaced (_names composer);
        if decide (ind = 0) then
          Ok (od_set replaced (func, ["prepend"]) customs)
        else
          n ← getitem (_names composer) (ind - 1);
          Ok (od_set replaced (func, ["add_after"; n]) customs)
    end
  else Ok (od_set modif_id (func, specifiers) customs).

(** The end of [modify_behavior] when no specifiers are left: "in the
    absence of specifiers or for get and set we simply replace the method". *)
Definition replace_method (method_name : string) (func : PyFunc)
    (modif_id : string) : M Heap unit :=
  on_self (modify (set_old_id method_name modif_id));;
  (* [MethodType(func, self)] wants a callable *)
  f ← lift (match func with Some f => Ok f | None => Raise TypeError end);
  on_self (modify (set_method method_name (Bound f))).

(** The end of [modify_behavior] otherwise: "we make sure we have a
    MethodsComposer", "we now update the composer", "finally we update the
    _customs dict and reassign the composer". *)
Definition compose_method (method_name : string) (func : PyFunc)
    (specifiers : list string) (modif_id : string) (internal : bool)
    (sigs_ : option (list Sig)) (chain_on : option string) : M Heap unit :=
  h ← get;
  current ← lift (getattr (self h) method_name);
  composer ← match current with
             | Composed c => mret c
             | Bound f =>
                 on_metaclass
                   (MetaMethodComposer__call__ (id (self h)) f
                      (self_alias (self h)) chain_on
                      (default "old" (_old_ids (self h) !! method_name))
                      sigs_)
             end;
  let '(composer, outcome) :=
    update_composer specifiers modif_id func composer in
  (* a composer found on the object is the object updated in place *)
  match current with
  | Composed _ => on_self (modify (set_method method_name (Composed composer)))
  | Bound _ => mret tt
  end;;
  lift outcome;;
  on_self (modify (set_method method_name (Composed composer)));;
  if internal then mret tt
  else
    h ← get;
    customs ← lift (match od_get method_name (_customs (self h)) with
                    | Some (Mapping customs) => Ok customs
                    | Some (Replacement _) => Raise TypeError
                    | None => Raise KeyError
                    end);
    customs ← lift (update_customs composer func specifiers modif_id customs);
    on_self (modify (λ o,
      set_customs (od_set method_name (Mapping customs) (_customs o)) o)).

Definition modify_behavior (method_name : string) (func : PyFunc)
    (specifiers : list string) (modif_id : string) (internal : bool)
  : M Heap unit :=
  let modif_id := match specifiers with [] => "old" | _ => modif_id end in
  (if internal then mret tt
   else on_self (modify (λ o,
          set_customs (record_intent method_name func specifiers (_customs o)) o)));;
  '(specifiers, sigs_, chain_on) ←
    (if bool_decide (specifiers = []) || negb (bool_decide (specifiers !! 0 = Some "remove"))
     then h ← get; lift (analyse_function (self h) method_name func specifiers)
     else mret (specifiers, None, None));
  match specifiers with
  | [] => replace_method method_name func modif_id
  | _ => compose_method method_name func specifiers modif_id internal sigs_ chain_on
  end.

(** The body of the inner loop of [copy_custom_behaviors], for the
    modification [custom] of method [meth_name] recorded on [obj]. *)
Definition copy_modifier (obj : SupportMethodCustomization)
    (meth_name custom : string) (modifier : Modifier) : M Heap unit :=
  let '(func, specifiers) := modifier in
  h ← get;
  method ← lift (getattr (self h) meth_name);
  kind ← lift (getitem specifiers 0);
  if negb (bool_decide (kind ∈ ["add_after"; "add_before"])) then
    modify_behavior meth_name func specifiers custom false
  else
    match method with
    | Bound _ =>
        let aux := if bool_decide (kind = "add_after") then ["append"]
                   else ["prepend"] in
        modify_behavior meth_name func aux custom false
    | Composed method =>
        let our_names := _names method in
        anchor ← lift (getitem specifiers 1);
        if decide (anchor ∈ our_names) then
          modify_behavior meth_name func specifiers custom false
        else
          theirs ← lift (getattr obj meth_name);
          names ← lift (match theirs with
                        | Composed c => Ok (_names c)
                        | Bound _ => Raise AttributeError
                        end);
          let shift := if bool_decide (kind = "add_after") then (-1)%Z
                       else (-1)%Z in
          index_ ← lift (index custom names);
          found ← lift (find_anchor (length names) names our_names shift
                          (Z.of_nat index_));
          match found with
          | Some name => modify_behavior meth_name func [kind; name] custom false
          | None =>
              let op := if bool_decide (shift = (-1)%Z) then ["prepend"]
                        else ["append"] in
              modify_behavior meth_name func op custom false
          end
    end.

Fixpoint copy_modifiers (obj : SupportMethodCustomization) (meth_name : string)
    (modifiers : list (string * Modifier)) : M Heap unit :=
  match modifiers with
  | [] => mret tt
  | (custom, modifier) :: modifiers =>
      copy_modifier obj meth_name custom modifier;;
      copy_modifiers obj meth_name modifiers
  end.

Fixpoint copy_methods (obj : SupportMethodCustomization)
    (customs : list (string * Modifiers)) : M Heap unit :=
  match customs with
  | [] => mret tt
  | (meth_name, modifiers) :: customs =>
      match modifiers with
      | Replacement func => modify_behavior meth_name func [] "custom" false
      | Mapping modifiers => copy_modifiers obj meth_name modifiers
      end;;
      copy_methods obj customs
  end.

(** [self.copy_custom_behaviors(obj)], for an [obj] that is not [self]:
    the items of [obj._customs] are read while [self] is updated. *)
Definition copy_custom_behaviors (obj : SupportMethodCustomization)
  : M Heap unit :=
  copy_methods obj (_customs obj).

End Customization.

(** ** Declaring a customisation *)

(** What the attribute of an owner class named by a declaration can be. *)
Inductive Attribute :=
  | Customizable (desc : SupportMethodCustomization)
  | Plain.

(** The owner class while a declaration is applied: the metaclass of the
    composers, and the attributes of the class. *)
Abbreviation Owner := (MetaMethodComposer * gmap string Attribute)%type.

Record customize := {
  desc_name : string;
  meth_name : string;
  specifiers : list string;
  modif_id : string;
  func : PyFunc
}.

(** [customize(desc_name, meth_name, specifiers=(), modif_id='custom')]. *)
Definition customize__init__ (desc_name meth_name : string)
    (specifiers : list string) (modif_id : string) : customize :=
  {| desc_name := desc_name; meth_name := meth_name; specifiers := specifiers;
     modif_id := modif_id; func := None |}.

(** Decorating a function: [customize.__call__]. *)
Definition customize__call__ (self : customize) (f : Func) : customize :=
  {| desc_name := desc_name self; meth_name := meth_name self;
     specifiers := specifiers self; modif_id := modif_id self; func := Some f |}.

Section Customize.

Variable analyse_function :
  SupportMethodCustomization → string → PyFunc → list string → result Analysis.

(** [customize.customize(owner, decorated_name)]. *)
Definition customize_customize (self_ : customize) (decorated_name : string)
  : M Owner unit :=
  let spec := specifiers self_ in
  if bool_decide (func self_ = None)
     && (bool_decide (spec = []) || bool_decide (spec !! 0 = Some "remove"))
  then raise RuntimeError
  else λ '(meta, owner),
    match owner !! desc_name self_ with
    | None => ((meta, owner), Raise AttributeError)
    | Some Plain => ((meta, owner), Raise AssertionError)
    | Some (Customizable desc) =>
        let '(h, r) :=
          modify_behavior analyse_function (meth_name self_) (func self_)
            (specifiers self_) (modif_id self_) false
            {| metaclass := meta; self := desc |} in
        ((metaclass h, <[desc_name self_ := Customizable (self h)]> owner), r)
    end.

End Customize.

(** ** Properties stated about the model *)

(** The steps of a composer in the order they run: each id with the method
    found at its position. *)
Definition steps (c : MethodComposer) : list (string * PyFunc) :=
  zip (_names c) (_methods c).

(** The invariant of a composer: ids and methods go in pairs, an id names
    one step only, and looking an id up gives the method that runs at the
    position of the id. *)
Record composer_inv (c : MethodComposer) : Prop := {
  inv_length : length (_names c) = length (_methods c);
  inv_NoDup : NoDup (_names c);
  inv_position : ∀ i name_,
    _names c !! i = Some name_ →
    ∃ m, _methods c !! i = Some m
         ∧ Composer.__getitem__ name_ c = Ok m
         ∧ Composer.__contains__ name_ c = true
}.

(** ** Objects the examples are run on *)

Definition f_old : Func :=
  {| f_name := "post_get";
     parameters := [ {| p_name := "self"; p_kind := POSITIONAL_OR_KEYWORD |};
                     {| p_name := "driver"; p_kind := POSITIONAL_OR_KEYWORD |};
                     {| p_name := "value"; p_kind := POSITIONAL_OR_KEYWORD |} ];
     f_code := 0 |}.

(** A step written for the same method: same parameters, its own code. *)
Definition step (code : nat) : Func :=
  {| f_name := "step"; parameters := parameters f_old; f_code := code |}.

Definition no_classes : MetaMethodComposer :=
  {| sigs := ∅; classes_created := 0 |}.

(** The composer [MethodComposer(obj, f_old, "feat", "value")] of a fresh
    interpreter. *)
Definition old_composer : MethodComposer :=
  __init__ {| class_id := 0; class_name := "post_getComposer";
              class_args := ["driver"; "value"]; class_chain := "value" |}
    1 "post_get" (Some f_old) (Some "feat") (Some "value") "old"
    [["feat"; "driver"; "value"]].

(** An [analyse_function] that accepts every function for every method and
    leaves the specifiers as they are. *)
Definition accept (sigs_ : list Sig) (chain_on : option string)
  : SupportMethodCustomization → string → PyFunc → list string → result Analysis :=
  λ _ _ _ specifiers, Ok (specifiers, Some sigs_, chain_on).

Definition accept_post_get := accept [["feat"; "driver"; "value"]] (Some "value").

(** A feature just built: [post_get] is still the method of its class. *)
Definition feature (id_ : nat) : SupportMethodCustomization :=
  {| id := id_; name := ""; self_alias := Some "feat";
     methods := {[ "post_get" := Bound f_old ]};
     _customs := []; _old_ids := ∅ |}.

Definition start (o : SupportMethodCustomization) : Heap :=
  {| metaclass := no_classes; self := o |}.

(** The ids of the steps of a method, nothing for a bound method. *)
Definition names_of (o : SupportMethodCustomization) (method_name : string)
  : list string :=
  match methods o !! method_name with
  | Some (Composed c) => _names c
  | _ => []
  end.

(** What runs when the method is called: the methods of the composer, or
    the bound method alone. *)
Definition methods_of (o : SupportMethodCustomization) (method_name : string)
  : list PyFunc :=
  match methods o !! method_name with
  | Some (Composed c) => _methods c
  | Some (Bound f) => [Some f]
  | None => []
  end.

(** A sequence of calls of [modify_behavior] on one method; it stops at the
    first one that raises. *)
Record directive := {
  d_func : PyFunc;
  d_specifiers : list string;
  d_modif_id : string;
  d_internal : bool
}.

Fixpoint apply_directives
    (analyse_function :
       SupportMethodCustomization → string → PyFunc → list string → result Analysis)
    (method_name : string) (ds : list directive) : M Heap unit :=
  match ds with
  | [] => mret tt
  | d :: ds =>
      modify_behavior analyse_function method_name (d_func d) (d_specifiers d)
        (d_modif_id d) (d_internal d);;
      apply_directives analyse_function method_name ds
  end.

Definition internal (f : Func) (specifiers : list string) (modif_id : string) :=
  {| d_func := Some f; d_specifiers := specifiers; d_modif_id := modif_id;
     d_internal := true |}.

Definition custom (f : Func) (specifiers : list string) (modif_id : string) :=
  {| d_func := Some f; d_specifiers := specifiers; d_modif_id := modif_id;
     d_internal := false |}.

(** ** Signatures as the design documents describe them *)

(** The token of the parameter at position [i]: the first parameter gives
    the alias when one is provided, a variadic positional parameter its name
    after one marker, a variadic keyword parameter its name after two, any
    other its name. *)
Definition described_token (i : nat) (arg : Param) (alias : option string)
  : string :=
  match i, alias with
  | 0, Some a => a
  | _, _ =>
      if bool_decide (p_kind arg = VAR_POSITIONAL) then "*" +:+ p_name arg
      else if bool_decide (p_kind arg = VAR_KEYWORD) then "**" +:+ p_name arg
      else p_name arg
  end.

Definition described_signature (sig : list Param) (alias : option string) : Sig :=
  imap (λ i arg, described_token i arg alias) sig.

(** Modelled from the spec: the check of compatibility is made by the
    [analyse_function] of the owners, which is not among the sources; the
    design documents have two functions compatible when their normalised
    signatures are the same tuple. *)
Definition signature_compatible (alias : option string) (f g : Func) : bool :=
  bool_decide (normalize_signature (parameters f) alias
               = normalize_signature (parameters g) alias).

(** A method written with [this] for the owning object. *)
Definition this_value : list Param :=
  [ {| p_name := "this"; p_kind := POSITIONAL_OR_KEYWORD |};
    {| p_name := "value"; p_kind := POSITIONAL_OR_KEYWORD |} ].

(** ** Requests to the metaclass *)

(** The arguments of one call [MethodComposer(obj, func, alias, chain_on,
    func_id, signatures)]. *)
Record request := {
  r_obj : nat;
  r_func : Func;
  r_alias : option string;
  r_chain_on : option string;
  r_func_id : string;
  r_signatures : option (list Sig)
}.

(** The key [id_] the call looks up in [MetaMethodComposer.sigs]. *)
Definition request_key (r : request) : list Sig * option string :=
  (accepted_signatures (r_func r) (r_alias r) (r_signatures r), r_chain_on r).

Definition serve (r : request) : M MetaMethodComposer MethodComposer :=
  MetaMethodComposer__call__ (r_obj r) (r_func r) (r_alias r) (r_chain_on r)
    (r_func_id r) (r_signatures r).

Fixpoint serve_all (rs : list request) : M MetaMethodComposer unit :=
  match rs with
  | [] => mret tt
  | r :: rs => serve r;; serve_all rs
  end.

(** ** An owner class for the declarations *)

Definition owner_class : Owner :=
  (no_classes, {[ "feat" := Customizable (feature 1) ]}).

(** Two features of the same class ask for a composer for [post_get], one
    naming the signatures, one leaving them to be read off the function;
    another method is customised in between. *)
Definition first_request : request :=
  {| r_obj := 1; r_func := f_old; r_alias := Some "feat";
     r_chain_on := Some "value"; r_func_id := "old";
     r_signatures := Some [["feat"; "driver"; "value"]] |}.

Definition second_request : request :=
  {| r_obj := 2; r_func := step 1; r_alias := Some "feat";
     r_chain_on := Some "value"; r_func_id := "old"; r_signatures := None |}.

Definition other_request : request :=
  {| r_obj := 1; r_func := f_old; r_alias := Some "feat";
     r_chain_on := None; r_func_id := "old"; r_signatures := None |}.

(** ** Calls as the design documents describe them *)

(** A token that reads as a plain parameter name. *)
Definition bare (tok : string) : Prop := read_token tok = (Bare, tok).

(** The local variables of a call whose parameters are plain names. *)
Fixpoint frame (toks : list string) (args : list pyval) : gmap string pyval :=
  match toks, args with
  | tok :: toks, v :: args => <[tok := v]> (frame toks args)
  | _, _ => ∅
  end.


Section Invoke.

Context {W : Type}.
Variable call : Func → nat → list pyval → list (string * pyval) → M W pyval.

Definition call_step (owner : nat) (m : PyFunc) (args : list pyval) : M W pyval :=
  f ← lift (match m with Some f => Ok f | None => Raise TypeError end);
  call f owner args [].

(** With a chain: every step is called with the arguments of the call, in
    which the argument at the position of the chain parameter is the value
    the step before returned; the value the last step returned is the
    result. *)
Fixpoint thread_accumulator (owner : nat) (ms : list PyFunc)
    (args : list pyval) (i : nat) (acc : pyval) : M W pyval :=
  match ms with
  | [] => mret acc
  | m :: ms =>
      r ← call_step owner m (<[i := acc]> args);
      thread_accumulator owner ms args i r
  end.

(** Without a chain: every step is called with the arguments of the call,
    what it returns is dropped, and the result is [None]. *)
Fixpoint run_for_effect (owner : nat) (ms : list PyFunc) (args : list pyval)
  : M W pyval :=
  match ms with
  | [] => mret VNone
  | m :: ms => call_step owner m args;; run_for_effect owner ms args
  end.

End Invoke.

(** The steps of the example: whatever its code, a step logs the value it
    is given and returns that value plus one. *)
Definition add_one : Func → nat → list pyval → list (string * pyval)
    → M (list pyval) pyval :=
  λ _ _ args _ log,
    match args with
    | [driver; VInt z] => (log ++ [VInt z], Ok (VInt (z + 1)))
    | _ => (log, Raise TypeError)
    end.

(** A composer for [post_get] with three such steps, chained on [value]
    or not chained. *)
Definition three_steps (chain : string) : MethodComposer :=
  {| __class__ := {| class_id := 0; class_name := "post_getComposer";
                     class_args := ["driver"; "value"]; class_chain := chain |};
     __self__ := 1; __name__ := "post_get"; _alias := Some "feat";
     _chain_on := Some chain;
     _names := ["f1"; "f2"; "f3"];
     _methods := [Some (step 1); Some (step 2); Some (step 3)];
     _signatures := [["feat"; "driver"; "value"]] |}.

(** Steps that log the value they are given and return it. *)
Definition pass_on : Func → nat → list pyval → list (string * pyval)
    → M (list pyval) pyval :=
  λ _ _ args _ log,
    match args with
    | [driver; v] => (log ++ [v], Ok v)
    | _ => (log, Raise TypeError)
    end.

(** A composer with three steps for a method [post_get(self, driver, m)],
    whose second parameter is called [m]. *)
Definition steps_on_m (chain : string) : MethodComposer :=
  {| __class__ := {| class_id := 0; class_name := "post_getComposer";
                     class_args := ["driver"; "m"]; class_chain := chain |};
     __self__ := 1; __name__ := "post_get"; _alias := Some "feat";
     _chain_on := Some chain;
     _names := ["f1"; "f2"; "f3"];
     _methods := [Some (step 1); Some (step 2); Some (step 3)];
     _signatures := [["feat"; "driver"; "m"]] |}.

(** ** The record of modifications *)

(** The modifications recorded for a method as [modify_behavior] sees them
    once it has been given specifiers: nothing for a method never touched,
    and the function of a full replacement as the modification [old]. *)
Definition customs_of (method_name : string) (o : SupportMethodCustomization)
  : list (string * Modifier) :=
  match od_get method_name (_customs o) with
  | Some (Mapping customs) => customs
  | Some (Replacement old) => [("old", (old, ["prepend"]))]
  | None => []
  end.

(** The keys of a dictionary are distinct. *)
Definition od_wf {V} (d : list (string * V)) : Prop := NoDup d.*1.

(** The class and the instance a call of the metaclass gives, and the
    metaclass after the call: the call itself, written without the monad. *)
Definition new_composer (obj : nat) (func : Func) (alias chain_on : option string)
    (func_id : string) (signatures : option (list Sig)) (meta : MetaMethodComposer)
  : MetaMethodComposer * MethodComposer :=
  let sigs_ := accepted_signatures func alias signatures in
  let id_ := (sigs_, chain_on) in
  let instance cls :=
    __init__ cls obj (f_name func) (Some func) alias chain_on func_id sigs_ in
  match sigs meta !! id_ with
  | Some cls => (meta, instance cls)
  | None =>
      let cls := {| class_id := classes_created meta;
                    class_name := f_name func +:+ "Composer";
                    class_args := drop 1 (default [] (head sigs_));
                    class_chain := default "" chain_on |} in
      ({| sigs := <[id_ := cls]> (sigs meta);
          classes_created := S (classes_created meta) |}, instance cls)
  end.

(** The composer [modify_behavior] updates: the one found on the object, or
    a new one around the bound method. *)
Definition composer_for (method_name : string) (current : Method)
    (sigs_ : option (list Sig)) (chain_on : option string) (h : Heap)
  : MetaMethodComposer * MethodComposer :=
  match current with
  | Composed c => (metaclass h, c)
  | Bound f =>
      new_composer (id (self h)) f (self_alias (self h)) chain_on
        (default "old" (_old_ids (self h) !! method_name)) sigs_ (metaclass h)
  end.

(** Specifiers that insert a step. *)
Definition is_insertion (specifiers : list string) : bool :=
  match specifiers with
  | kind :: _ => bool_decide (kind ∈ ["prepend"; "append"; "add_before"; "add_after"])
  | [] => false
  end.

(** The state [modify_behavior] analyses the function in: the intent is
    recorded unless the modification is internal. *)
Definition intent_recorded (method_name : string) (func : PyFunc)
    (specifiers : list string) (internal : bool) (h : Heap) : Heap :=
  if internal then h
  else {| metaclass := metaclass h;
          self := set_customs
                    (record_intent method_name func specifiers (_customs (self h)))
                    (self h) |}.

(** The ids and the methods that run for a method of an object: those of
    its composer, or the bound method alone under the id a composer would
    give it. *)
Definition pipeline (method_name : string) (o : SupportMethodCustomization)
  : option (list string * list PyFunc) :=
  match methods o !! method_name with
  | Some (Composed c) => Some (_names c, _methods c)
  | Some (Bound f) => Some ([default "old" (_old_ids o !! method_name)], [Some f])
  | None => None
  end.

(** What a directive leaves in the record of modifications. *)
Definition entry (d : directive) : string * Modifier :=
  (d_modif_id d, (d_func d, d_specifiers d)).

(** A feature whose [post_get] got the step [a] appended. *)
Definition with_step_a : Heap :=
  (apply_directives accept_post_get "post_get" [custom (step 1) ["append"] "a"]
     (start (feature 1))).1.

(** ** Owners whose [analyse_function] leaves the specifiers alone *)

(** It accepts every function and returns the specifiers it was given. *)
Definition transparent
    (analyse_function :
       SupportMethodCustomization → string → PyFunc → list string → result Analysis)
  : Prop :=
  ∀ o method_name func specifiers,
    ∃ sigs_ chain_on,
      analyse_function o method_name func specifiers
      = Ok (specifiers, sigs_, chain_on).

(** It returns the specifiers it was given or none at all, and a failure
    of its own when it raises. *)
Definition well_behaved
    (analyse_function :
       SupportMethodCustomization → string → PyFunc → list string → result Analysis)
  : Prop :=
  ∀ o method_name func specifiers,
    match analyse_function o method_name func specifiers with
    | Ok (specifiers', _, _) => specifiers' = specifiers ∨ specifiers' = []
    | Raise e => e ≠ AnchorNotFound
    end.

(** A recorded modification that [copy_custom_behaviors] can degrade: it is
    an insertion, and when it inserts next to an anchor, the composer of the
    source, if there is one, still has the step of the modification. *)
Definition degradable (obj : SupportMethodCustomization) (meth_name : string)
    (item : string * Modifier) : Prop :=
  let '(custom_, (_, specifiers)) := item in
  is_insertion specifiers = true
  ∧ (specifiers !! 0 = Some "add_before" ∨ specifiers !! 0 = Some "add_after" →
     ∀ c, methods obj !! meth_name = Some (Composed c) → custom_ ∈ _names c).

Definition replayable (obj : SupportMethodCustomization) : Prop :=
  ∀ meth_name modifiers,
    (meth_name, Mapping modifiers) ∈ _customs obj →
    Forall (degradable obj meth_name) modifiers.

(** ** Features the replay is run on *)

(** The feature [o] after the directives [ds] on its [post_get]. *)
Definition run (ds : list directive) (o : SupportMethodCustomization) : Heap :=
  (apply_directives accept_post_get "post_get" ds (start o)).1.

(** The target of the replays: a feature rebuilt with other arguments, whose
    [post_get] runs [old] and [z]. *)
Definition rebuilt : Heap := run [internal (step 2) ["append"] "z"] (feature 2).

(** Sources built with the steps [old], [y] and [z]: [w] is then inserted
    before [y], or after [y]. *)
Definition w_before_y : Heap :=
  run [internal (step 1) ["append"] "y"; internal (step 2) ["append"] "z";
       custom (step 3) ["add_before"; "y"] "w"] (feature 1).

Definition w_after_y : Heap :=
  run [internal (step 1) ["append"] "y"; internal (step 2) ["append"] "z";
       custom (step 3) ["add_after"; "y"] "w"] (feature 1).

(** A source built with [old] and [y] only, [w] inserted after [y]. *)
Definition w_last : Heap :=
  run [internal (step 1) ["append"] "y";
       custom (step 3) ["add_after"; "y"] "w"] (feature 1).

(** A source with [old] and [y], [w] inserted before [y], and a target that
    has none of its steps. *)
Definition w_before_last : Heap :=
  run [internal (step 1) ["append"] "y";
       custom (step 3) ["add_before"; "y"] "w"] (feature 1).

Definition unrelated : Heap :=
  run [internal (step 2) ["append"] "q";
       {| d_func := None; d_specifiers := ["remove"; "old"]; d_modif_id := "q";
          d_internal := true |}] (feature 2).

(** A source whose step [w] was taken out again by an internal removal,
    which leaves the record as it is. *)
Definition w_lost : Heap :=
  run [internal (step 1) ["append"] "y";
       custom (step 3) ["add_after"; "y"] "w";
       {| d_func := None; d_specifiers := ["remove"; "w"]; d_modif_id := "w";
          d_internal := true |}] (feature 1).

(** An object whose record holds the replacement of a step [y]. *)
Definition replacement_on_record : SupportMethodCustomization :=
  {| id := 1; name := ""; self_alias := Some "feat";
     methods := {[ "post_get" := Bound f_old ]};
     _customs := [("post_get", Mapping [("custom", (Some (step 3), ["replace"; "y"]))])];
     _old_ids := ∅ |}.

(** A source whose original step was replaced. *)
Definition old_replaced : Heap :=
  run [custom (step 3) ["replace"; "old"] "custom"] (feature 1).

(** A source whose step [a] is taken out by a removal made under the id
    [b] of another step. *)
Definition a_removed_under_b : Heap :=
  run [custom (step 1) ["append"] "a"; custom (step 2) ["append"] "b";
       {| d_func := None; d_specifiers := ["remove"; "a"]; d_modif_id := "b";
          d_internal := false |}] (feature 1).

(** The method of the object has a composer. *)
Definition composed (method_name : string) (o : SupportMethodCustomization)
  : Prop :=
  ∃ c, methods o !! method_name = Some (Composed c).

(** A feature built with the steps [old] and [y], and such a feature after
    a step [a] was appended. *)
Definition built_with_y (id_ : nat) : Heap :=
  run [internal (step 1) ["append"] "y"] (feature id_).

Definition built_with_y_a : Heap :=
  (apply_directives accept_post_get "post_get" [custom (step 2) ["append"] "a"]
     (built_with_y 1)).1.

(** ** The cache of classes, well formed *)

(** Every registered class was generated for its key, by a creation that is
    counted, and no class object is registered under two keys. *)
Record cache_wf (meta : MetaMethodComposer) : Prop := {
  wf_generated : ∀ k cls,
    sigs meta !! k = Some cls →
    class_args cls = drop 1 (default [] (head k.1))
    ∧ class_chain cls = default "" k.2
    ∧ class_id cls < classes_created meta;
  wf_one_key : ∀ k1 k2 cls1 cls2,
    sigs meta !! k1 = Some cls1 → sigs meta !! k2 = Some cls2 →
    class_id cls1 = class_id cls2 → k1 = k2
}.

(** ** Replays, on the steps alone *)

(** The steps of a method of an object: those of its composer, or the bound
    method alone under the id a composer would give it. *)
Definition steps_of (method_name : string) (o : SupportMethodCustomization)
  : option (list (string * PyFunc)) :=
  match methods o !! method_name with
  | Some (Composed c) => Some (steps c)
  | Some (Bound f) => Some [(default "old" (_old_ids o !! method_name), Some f)]
  | None => None
  end.

(** The method has as many methods as ids, and no id twice: the invariant
    of composers, seen from the object. *)
Definition well_composed (method_name : string) (o : SupportMethodCustomization)
  : Prop :=
  ∀ ns ms, pipeline method_name o = Some (ns, ms) →
           length ns = length ms ∧ NoDup ns.

Fixpoint put_before (anchor : string) (e : string * PyFunc)
    (st : list (string * PyFunc)) : option (list (string * PyFunc)) :=
  match st with
  | [] => None
  | s :: st =>
      if decide (s.1 = anchor) then Some (e :: s :: st)
      else (s ::.) <$> put_before anchor e st
  end.

Fixpoint put_after (anchor : string) (e : string * PyFunc)
    (st : list (string * PyFunc)) : option (list (string * PyFunc)) :=
  match st with
  | [] => None
  | s :: st =>
      if decide (s.1 = anchor) then Some (s :: e :: st)
      else (s ::.) <$> put_after anchor e st
  end.

(** The steps after an insertion that goes through. *)
Definition insert_step (specifiers : list string) (modif_id : string)
    (func : PyFunc) (st : list (string * PyFunc))
  : option (list (string * PyFunc)) :=
  if decide (modif_id ∈ st.*1) then None
  else
    match specifiers with
    | [] => None
    | kind :: rest =>
        if bool_decide (kind = "prepend") then Some ((modif_id, func) :: st)
        else if bool_decide (kind = "append") then Some (st ++ [(modif_id, func)])
        else if bool_decide (kind = "add_before") then
          anchor ← rest !! 0; put_before anchor (modif_id, func) st
        else if bool_decide (kind = "add_after") then
          anchor ← rest !! 0; put_after anchor (modif_id, func) st
        else None
    end.

(** The steps after the recorded modifications are applied as they are, one
    after the other. *)
Fixpoint replay (customs : list (string * Modifier))
    (st : list (string * PyFunc)) : option (list (string * PyFunc)) :=
  match customs with
  | [] => Some st
  | (custom_, (func, specifiers)) :: customs =>
      st' ← insert_step specifiers custom_ func st; replay customs st'
  end.

(** The steps with another function under the id [x], and without the step
    of id [x]. *)
Definition retarget (x : string) (func : PyFunc) (st : list (string * PyFunc))
  : list (string * PyFunc) :=
  (λ s, if decide (s.1 = x) then (x, func) else s) <$> st.

Definition strip (x : string) (st : list (string * PyFunc))
  : list (string * PyFunc) :=
  filter (λ s, s.1 ≠ x) st.

(** A directive [copy_custom_behaviors] can reproduce, given the
    modifications on record when it is applied: an insertion; the
    replacement of a step that is on record; the removal, under its own id,
    of a step that is on record and that no modification on record is
    anchored on. *)
Definition reproducible (customs : list (string * Modifier)) (d : directive)
  : Prop :=
  d_internal d = false
  ∧ (is_insertion (d_specifiers d) = true
     ∨ (∃ x rest, d_specifiers d = "replace" :: x :: rest ∧ x ∈ customs.*1)
     ∨ (∃ x rest, d_specifiers d = "remove" :: x :: rest
          ∧ d_modif_id d = x ∧ x ∈ customs.*1
          ∧ Forall (λ item, item.2.2 !! 1 ≠ Some x) customs)).

(** Every directive of the sequence is reproducible when its turn comes. *)
Fixpoint reproducible_run
    (analyse_function :
       SupportMethodCustomization → string → PyFunc → list string → result Analysis)
    (method_name : string) (ds : list directive) (h : Heap) : Prop :=
  match ds with
  | [] => True
  | d :: ds =>
      reproducible (customs_of method_name (self h)) d
      ∧ reproducible_run analyse_function method_name ds
          (modify_behavior analyse_function method_name (d_func d)
             (d_specifiers d) (d_modif_id d) (d_internal d) h).1
  end.

(** The record of the method [method_name] of [h] replays, from the steps
    [st0], to the steps the method has, the object has no other record, and
    the method is well composed. *)
Definition tracks (method_name : string) (st0 : list (string * PyFunc))
    (h : Heap) : Prop :=
  ∃ customs st,
    steps_of method_name (self h) = Some st
    ∧ well_composed method_name (self h)
    ∧ replay customs st0 = Some st
    ∧ ((_customs (self h) = [] ∧ customs = [])
       ∨ _customs (self h) = [(method_name, Mapping customs)]).

(** A sequence with a replacement and a removal. *)
Definition insert_replace_remove : list directive :=
  [custom (step 1) ["append"] "a";
   custom (step 2) ["add_before"; "a"] "b";
   custom (step 3) ["prepend"] "c";
   custom (step 4) ["replace"; "a"] "custom";
   {| d_func := None; d_specifiers := ["remove"; "c"]; d_modif_id := "c";
      d_internal := false |}].

(** ** More of the composer *)

(** A composer with the steps [old], [y] and [z]. *)
Definition old_y_z : MethodComposer :=
  set_methods [Some f_old; Some (step 1); Some (step 2)]
    (set_names ["old"; "y"; "z"] old_composer).

(** ** Cloning through the metaclass *)

Section Clone.

(** [clone] hands the composer itself to the metaclass as [func]: its
    [__name__] is the one it was given; what [signature] reads off a
    composer and the identity of its code are left open. *)
Variable signature_of : MethodComposer → list Param.
Variable code_of : MethodComposer → nat.

Definition as_function (c : MethodComposer) : Func :=
  {| f_name := __name__ c; parameters := signature_of c; f_code := code_of c |}.

(** [clone(new_obj)], with the call [type(self)(new_obj or self.__self__,
    self, self._alias, self._chain_on, '', self._signatures)] going through
    [MetaMethodComposer.__call__], and the two lists copied afterwards. *)
Definition clone_call (new_obj : option nat) (c : MethodComposer)
  : M MetaMethodComposer MethodComposer :=
  new ← MetaMethodComposer__call__ (default (__self__ c) new_obj)
           (as_function c) (_alias c) (_chain_on c) "" (Some (_signatures c));
  mret (set_methods (_methods c) (set_names (_names c) new)).

End Clone.

(** The class of the composer is the one the metaclass has registered for
    its signatures and its chain, as it is for a composer the metaclass
    built. *)
Definition registered (meta : MetaMethodComposer) (c : MethodComposer) : Prop :=
  sigs meta !! (_signatures c, _chain_on c) = Some (__class__ c)
  ∧ _signatures c ≠ [].

(** The composer the first request gets from a fresh metaclass, and the
    metaclass after it. *)
Definition first_served : MetaMethodComposer * MethodComposer :=
  new_composer (r_obj first_request) (r_func first_request)
    (r_alias first_request) (r_chain_on first_request)
    (r_func_id first_request) (r_signatures first_request) no_classes.

(** ** Owners that refuse, or simplify *)

(** An [analyse_function] that refuses every function. *)
Definition refuse
  : SupportMethodCustomization → string → PyFunc → list string → result Analysis :=
  λ _ _ _ _, Raise SignatureMismatch.

(** An [analyse_function] of an owner whose methods do nothing: every
    modification is turned into a full replacement. *)
Definition collapse
  : SupportMethodCustomization → string → PyFunc → list string → result Analysis :=
  λ _ _ _ _, Ok ([], None, None).

(** The composer of [post_get] of the feature of identity [obj]. *)
Definition old_composer_of (obj : nat) : MethodComposer :=
  __init__ (__class__ old_composer) obj "post_get" (Some f_old) (Some "feat")
    (Some "value") "old" [["feat"; "driver"; "value"]].

(** A source whose [post_get] was replaced as a whole. *)
Definition whole_replaced : Heap := run [custom (step 1) [] "custom"] (feature 1).

(** * The feature of [i3py/core/features/mapping.py]

    [Mapping] is a [Feature], which is a [SupportMethodCustomization]; its
    [__init__] runs [Feature.__init__], builds the two dictionaries and
    registers the two conversions as internal modifications.  What follows
    starts from the object [Feature.__init__] leaves; the entry added to
    [creation_kwargs], an attribute of [Feature], is left out. *)

Module MappingFeature.

Section Maps.

(** The values of the user and of the instrument. *)
Context {T : Type} `{EqDecision T}.

(** A [dict]: the items in insertion order, every key once. *)
Fixpoint dict_get (k : T) (d : list (T * T)) : result T :=
  match d with
  | [] => Raise KeyError
  | (k', v) :: d' => if decide (k' = k) then Ok v else dict_get k d'
  end.

Fixpoint dict_set (k v : T) (d : list (T * T)) : list (T * T) :=
  match d with
  | [] => [(k, v)]
  | (k', v') :: d' =>
      if decide (k' = k) then (k, v) :: d' else (k', v') :: dict_set k v d'
  end.

(** [{v: k for k, v in mapping.items()}]. *)
Definition inverse (mapping : list (T * T)) : list (T * T) :=
  fold_left (λ acc item, dict_set item.2 item.1 acc) mapping [].

(** The argument [mapping]: [None], a dict, or a tuple or a list, of
    dicts. *)
Inductive mapping_arg :=
  | mapping_None
  | mapping_dict (d : list (T * T))
  | mapping_seq (l : list (list (T * T))).

Record maps := { _map : list (T * T); _imap : list (T * T) }.

(** The dictionaries [__init__] stores: [mapping if mapping else {}] makes
    an empty dict of [None], of an empty dict and of an empty sequence; a
    sequence gives its first two items, and [IndexError] when it is too
    short. *)
Definition init_maps (mapping : mapping_arg) : result maps :=
  match mapping with
  | mapping_None | mapping_dict [] | mapping_seq [] =>
      Ok {| _map := []; _imap := inverse [] |}
  | mapping_seq l =>
      m ← getitem l 0;
      im ← getitem l 1;
      Ok {| _map := m; _imap := im |}
  | mapping_dict d => Ok {| _map := d; _imap := inverse d |}
  end.

(** [reverse_map_value(self, driver, value)] and
    [map_value(self, driver, value)]. *)
Definition reverse_map_value (self : maps) (value : T) : result T :=
  dict_get value (_imap self).

Definition map_value (self : maps) (value : T) : result T :=
  dict_get value (_map self).

End Maps.

(** The two methods as functions, [self.reverse_map_value.__func__] and
    [self.map_value.__func__]. *)
Definition reverse_map_value_func : Func :=
  {| f_name := "reverse_map_value";
     parameters := [ {| p_name := "self"; p_kind := POSITIONAL_OR_KEYWORD |};
                     {| p_name := "driver"; p_kind := POSITIONAL_OR_KEYWORD |};
                     {| p_name := "value"; p_kind := POSITIONAL_OR_KEYWORD |} ];
     f_code := 11 |}.

Definition map_value_func : Func :=
  {| f_name := "map_value";
     parameters := [ {| p_name := "self"; p_kind := POSITIONAL_OR_KEYWORD |};
                     {| p_name := "driver"; p_kind := POSITIONAL_OR_KEYWORD |};
                     {| p_name := "value"; p_kind := POSITIONAL_OR_KEYWORD |} ];
     f_code := 12 |}.

Section Init.

Context {T : Type} `{EqDecision T}.

Variable analyse_function :
  SupportMethodCustomization → string → PyFunc → list string → result Analysis.

(** [Mapping.__init__] after [Feature.__init__]: the dictionaries, then
    the two calls of [modify_behavior], marked as internal. *)
Definition __init__ (mapping : mapping_arg (T := T)) : M Heap maps :=
  self_ ← lift (init_maps mapping);
  modify_behavior analyse_function "post_get" (Some reverse_map_value_func)
    ["append"] "reverse_map" true;;
  modify_behavior analyse_function "pre_set" (Some map_value_func)
    ["append"] "map" true;;
  mret self_.

End Init.

End MappingFeature.

(** A feature with the two methods [Mapping] customises, as plain bound
    methods. *)
Definition f_pre_set : Func :=
  {| f_name := "pre_set"; parameters := parameters f_old; f_code := 1 |}.

Definition get_set_feature (id_ : nat) : SupportMethodCustomization :=
  {| id := id_; name := ""; self_alias := Some "feat";
     methods := {[ "post_get" := Bound f_old; "pre_set" := Bound f_pre_set ]};
     _customs := []; _old_ids := ∅ |}.

(** The states of an output: a dictionary between what the user writes and
    what the instrument reads. *)
Definition on_off : list (string * string) := [("On", "1"); ("Off", "0")].

(** An [analyse_function] that has every function added after the others,
    whatever the specifiers ask for. *)
Definition at_the_end
  : SupportMethodCustomization → string → PyFunc → list string → result Analysis :=
  λ _ _ _ _, Ok (["append"], Some [["feat"; "driver"; "value"]], Some "value").

(** ** Signatures with variadic parameters *)

(** The names of the parameters that a list of tokens declares. *)
Definition parameter_names (toks : list string) : list string :=
  (λ tok, (read_token tok).2) <$> toks.

(** A composer for a method that takes any arguments after the driver,
    without a chain. *)
Definition variadic_steps : MethodComposer :=
  {| __class__ := {| class_id := 1; class_name := "checkComposer";
                     class_args := ["driver"; "*args"; "**kwargs"];
                     class_chain := "" |};
     __self__ := 1; __name__ := "check"; _alias := Some "feat";
     _chain_on := None;
     _names := ["f1"; "f2"];
     _methods := [Some (step 1); Some (step 2)];
     _signatures := [["feat"; "driver"; "*args"; "**kwargs"]] |}.

(** Steps that log the positional arguments they are given. *)
Definition log_args : Func → nat → list pyval → list (string * pyval)
    → M (list (list pyval)) pyval :=
  λ _ _ args _ log, (log ++ [args], Ok VNone).

(** How a parameter of each kind is written in a [def] line. *)
Definition token_kind_of (k : ParameterKind) : token_kind :=
  match k with
  | VAR_POSITIONAL => Star
  | VAR_KEYWORD => DoubleStar
  | _ => Bare
  end.

(** A method that takes any arguments after the driver. *)
Definition check_signature : list Param :=
  [ {| p_name := "self"; p_kind := POSITIONAL_OR_KEYWORD |};
    {| p_name := "driver"; p_kind := POSITIONAL_OR_KEYWORD |};
    {| p_name := "args"; p_kind := VAR_POSITIONAL |};
    {| p_name := "kwargs"; p_kind := VAR_KEYWORD |} ].

(** ** Chains of several names *)

(** The arguments after the values [vals] are stored at the positions
    [ps], one after the other. *)
Definition store_all (ps : list nat) (vals args : list pyval) : list pyval :=
  fold_left (λ args iv, <[iv.1 := iv.2]> args) (zip ps vals) args.

Section InvokeMany.

Context {W : Type}.
Variable call : Func → nat → list pyval → list (string * pyval) → M W pyval.

(** With a chain of several names, at the positions [ps] of the
    parameters: every step is called with the arguments of the call, in
    which the chained arguments are what the step before returned; what a
    step returns is unpacked into as many values as there are chained names;
    the result is the tuple of the chained values after the last step. *)
Fixpoint thread_accumulators (owner : nat) (ms : list PyFunc)
    (args : list pyval) (ps : list nat) : M W pyval :=
  match ms with
  | [] => mret (VTuple ((λ i, default VNone (args !! i)) <$> ps))
  | m :: ms =>
      r ← call_step call owner m args;
      vals ← lift (iterate r);
      if decide (length vals = length ps) then
        thread_accumulators owner ms (store_all ps vals args) ps
      else raise (ValueError unpack_mismatch)
  end.

End InvokeMany.

(** Steps that return their two arguments the other way round, and a
    composer of two such steps chained on both. *)
Definition swap : Func → nat → list pyval → list (string * pyval)
    → M unit pyval :=
  λ _ _ args _ w,
    match args with
    | [a; b] => (w, Ok (VTuple [b; a]))
    | _ => (w, Raise TypeError)
    end.

Definition two_swaps : MethodComposer :=
  {| __class__ := {| class_id := 2; class_name := "swapComposer";
                     class_args := ["a"; "b"]; class_chain := "a, b" |};
     __self__ := 1; __name__ := "swap"; _alias := Some "feat";
     _chain_on := Some "a, b";
     _names := ["f1"; "f2"];
     _methods := [Some (step 1); Some (step 2)];
     _signatures := [["feat"; "a"; "b"]] |}.

(** * Proofs *)

(** Unfolds the operations of the state/exception monad. *)
Ltac munfold :=
  unfold mbind, M_bind, result_bind, mret, M_ret, result_ret,
    get, put, modify, raise, lift in *;
  cbn in *.

(** ** Lists *)

Arguments list_insert_at : simpl never.

Lemma index_Ok x l i :
  index x l = Ok i ↔ l !! i = Some x ∧ ∀ j, j < i → l !! j ≠ Some x.
Proof.
  unfold index. destruct (list_find _ l) as [[j y]|] eqn:E.
  - apply list_find_Some in E as (Hj & -> & Hmin). split.
    + intros [= <-]. split; [done|]. intros k Hk Hx. by eapply Hmin.
    + intros [Hi Hmin']. f_equal.
      destruct (lt_eq_lt_dec i j) as [[Hlt| ->]|Hgt]; [|done|].
      * exfalso. by eapply Hmin.
      * exfalso. by eapply Hmin'.
  - split; [done|]. intros [Hi _].
    apply list_find_None in E. rewrite Forall_forall in E.
    exfalso. eapply E; [|done]. by eapply list_elem_of_lookup_2.
Qed.

Lemma index_Raise x l e : index x l = Raise e → (x ∉ l) ∧ e = ValueError not_in_list.
Proof.
  unfold index. destruct (list_find _ l) as [[j y]|] eqn:E; [done|].
  intros [= <-]. split; [|done].
  apply list_find_None in E. rewrite Forall_forall in E.
  intros Hx. by eapply E.
Qed.

Lemma index_elem_of x l : x ∈ l → ∃ i, index x l = Ok i.
Proof.
  intros Hx. destruct (index x l) as [i|e] eqn:E; [by eexists|].
  by apply index_Raise in E as [? _].
Qed.

Lemma index_lookup x l i : index x l = Ok i → l !! i = Some x.
Proof. intros H. by apply index_Ok in H as [? _]. Qed.

Lemma index_lt x l i : index x l = Ok i → i < length l.
Proof. intros H. eapply lookup_lt_Some, index_lookup, H. Qed.

Lemma index_NoDup x l i : NoDup l → l !! i = Some x → index x l = Ok i.
Proof.
  intros Hnd Hi. apply index_Ok. split; [done|].
  intros j Hj Hx. pose proof (NoDup_lookup _ _ _ _ Hnd Hi Hx). lia.
Qed.

Lemma list_insert_at_perm {A} i (x : A) l : list_insert_at i x l ≡ₚ x :: l.
Proof.
  unfold list_insert_at. rewrite <- Permutation_middle.
  by rewrite take_drop.
Qed.

Lemma length_list_insert_at {A} i (x : A) l :
  length (list_insert_at i x l) = S (length l).
Proof. by rewrite list_insert_at_perm. Qed.

Lemma NoDup_list_insert_at i (x : string) l :
  NoDup l → x ∉ l → NoDup (list_insert_at i x l).
Proof. intros. rewrite list_insert_at_perm. by constructor. Qed.

Lemma zip_list_insert_at {A B} i (x : A) (y : B) l k :
  length l = length k →
  zip (list_insert_at i x l) (list_insert_at i y k)
  = list_insert_at i (x, y) (zip l k).
Proof.
  unfold list_insert_at. revert l k. induction i as [|i IH]; intros l k Hlen.
  - by rewrite !take_0, !drop_0.
  - destruct l as [|a l], k as [|b k]; simplify_eq/=; [done|].
    by rewrite IH.
Qed.

Lemma zip_delete {A B} i (l : list A) (k : list B) :
  zip (delete i l) (delete i k) = delete i (zip l k).
Proof.
  revert i k. induction l as [|a l IH]; intros i k; [by destruct i|].
  destruct k as [|b k].
  - destruct i; simpl; [by destruct l|]. by destruct (delete i l).
  - destruct i; simpl; [done|]. by rewrite IH.
Qed.

Lemma zip_insert_r {A B} i (y : B) (l : list A) (k : list B) x :
  l !! i = Some x →
  zip l (<[i := y]> k) = <[i := (x, y)]> (zip l k).
Proof.
  revert i k. induction l as [|a l IH]; intros i k Hi; [done|].
  destruct k as [|b k], i as [|i]; simplify_eq/=; try done.
  by rewrite IH.
Qed.

(** ** The composer *)

Lemma check_duplicates_run name_ c :
  Composer._check_duplicates name_ c
  = if decide (name_ ∈ _names c) then (c, Raise DuplicateIdentifier)
    else (c, Ok tt).
Proof. unfold Composer._check_duplicates. munfold. by destruct (decide _). Qed.

Lemma composer_inv_intro c :
  length (_names c) = length (_methods c) → NoDup (_names c) → composer_inv c.
Proof.
  intros Hlen Hnd. split; [done..|].
  intros i id Hi.
  destruct (lookup_lt_is_Some_2 (_methods c) i) as [m Hm].
  { rewrite <- Hlen. by eapply lookup_lt_Some. }
  exists m. split; [done|]. split.
  - unfold Composer.__getitem__, getitem.
    by rewrite (index_NoDup _ _ _ Hnd Hi), Hm.
  - apply bool_decide_eq_true. by eapply list_elem_of_lookup_2.
Qed.

Lemma composer_inv_init cls obj func_name func alias chain_on func_id signatures :
  composer_inv (__init__ cls obj func_name func alias chain_on func_id signatures).
Proof. apply composer_inv_intro; [done|]. apply NoDup_singleton. Qed.

Lemma composer_inv_prepend c name_ method :
  composer_inv c → composer_inv (Composer.prepend name_ method c).1.
Proof.
  intros [Hlen Hnd _]. unfold Composer.prepend.
  munfold. rewrite check_duplicates_run.
  destruct (decide _) as [|Hnew]; cbn; [by apply composer_inv_intro|].
  apply composer_inv_intro; cbn.
  - by rewrite !length_list_insert_at, Hlen.
  - by apply NoDup_list_insert_at.
Qed.

Lemma composer_inv_append c name_ method :
  composer_inv c → composer_inv (Composer.append name_ method c).1.
Proof.
  intros [Hlen Hnd _]. unfold Composer.append.
  munfold. rewrite check_duplicates_run.
  destruct (decide _) as [|Hnew]; cbn; [by apply composer_inv_intro|].
  apply composer_inv_intro; cbn.
  - by rewrite !length_app, Hlen.
  - rewrite <- Permutation_cons_append. by constructor.
Qed.

Lemma composer_inv_add_after c anchor name_ method :
  composer_inv c → composer_inv (Composer.add_after anchor name_ method c).1.
Proof.
  intros [Hlen Hnd _]. unfold Composer.add_after.
  munfold. rewrite check_duplicates_run.
  destruct (decide _) as [|Hnew]; cbn; [by apply composer_inv_intro|].
  destruct (index anchor _) as [i|e]; cbn; [|by apply composer_inv_intro].
  apply composer_inv_intro; cbn.
  - by rewrite !length_list_insert_at, Hlen.
  - by apply NoDup_list_insert_at.
Qed.

Lemma composer_inv_add_before c anchor name_ method :
  composer_inv c → composer_inv (Composer.add_before anchor name_ method c).1.
Proof.
  intros [Hlen Hnd _]. unfold Composer.add_before.
  munfold. rewrite check_duplicates_run.
  destruct (decide _) as [|Hnew]; cbn; [by apply composer_inv_intro|].
  destruct (index anchor _) as [i|e]; cbn; [|by apply composer_inv_intro].
  apply composer_inv_intro; cbn.
  - by rewrite !length_list_insert_at, Hlen.
  - by apply NoDup_list_insert_at.
Qed.

Lemma composer_inv_replace c name_ method :
  composer_inv c → composer_inv (Composer.replace name_ method c).1.
Proof.
  intros [Hlen Hnd _]. unfold Composer.replace. munfold.
  destruct (index name_ _) as [i|e]; cbn; [|by apply composer_inv_intro].
  destruct (decide _); cbn; [|by apply composer_inv_intro].
  apply composer_inv_intro; cbn; [|done].
  by rewrite length_insert.
Qed.

Lemma composer_inv_remove c name_ :
  composer_inv c → composer_inv (Composer.remove name_ c).1.
Proof.
  intros [Hlen Hnd _]. unfold Composer.remove. munfold.
  destruct (index name_ _) as [i|e] eqn:Hi; cbn; [|by apply composer_inv_intro].
  apply index_lt in Hi.
  destruct (decide _) as [|Hge]; cbn; [|lia].
  apply composer_inv_intro; cbn.
  - rewrite !length_delete; [lia|..]; apply lookup_lt_is_Some_2; lia.
  - eapply sublist_NoDup; [done|]. apply sublist_delete.
Qed.

Lemma composer_inv_reset c : composer_inv (Composer.reset c).1.
Proof. apply composer_inv_intro; [done|]. apply NoDup_nil_2. Qed.

Lemma composer_inv_clone c new_obj :
  composer_inv c → composer_inv (Composer.clone new_obj c).
Proof. intros [Hlen Hnd _]. by apply composer_inv_intro. Qed.

(** What an update that went through did to the steps. *)

Lemma steps_prepend c c' name_ method :
  composer_inv c → Composer.prepend name_ method c = (c', Ok tt) →
  steps c' = (name_, method) :: steps c.
Proof.
  intros [Hlen _ _]. unfold Composer.prepend. munfold.
  rewrite check_duplicates_run. destruct (decide _); [done|].
  intros [= <-]. unfold steps; cbn. by rewrite zip_list_insert_at.
Qed.

Lemma steps_append c c' name_ method :
  composer_inv c → Composer.append name_ method c = (c', Ok tt) →
  steps c' = steps c ++ [(name_, method)].
Proof.
  intros [Hlen _ _]. unfold Composer.append. munfold.
  rewrite check_duplicates_run. destruct (decide _); [done|].
  intros [= <-]. unfold steps; cbn. by rewrite zip_with_app.
Qed.

Lemma steps_add_after c c' anchor name_ method :
  composer_inv c → Composer.add_after anchor name_ method c = (c', Ok tt) →
  ∃ i, index anchor (_names c) = Ok i
       ∧ steps c' = list_insert_at (i + 1) (name_, method) (steps c).
Proof.
  intros [Hlen _ _]. unfold Composer.add_after. munfold.
  rewrite check_duplicates_run. destruct (decide _); [done|].
  destruct (index anchor _) as [i|]; [|done].
  intros [= <-]. exists i. split; [done|].
  unfold steps; cbn. by rewrite zip_list_insert_at.
Qed.

Lemma steps_add_before c c' anchor name_ method :
  composer_inv c → Composer.add_before anchor name_ method c = (c', Ok tt) →
  ∃ i, index anchor (_names c) = Ok i
       ∧ steps c' = list_insert_at i (name_, method) (steps c).
Proof.
  intros [Hlen _ _]. unfold Composer.add_before. munfold.
  rewrite check_duplicates_run. destruct (decide _); [done|].
  destruct (index anchor _) as [i|]; [|done].
  intros [= <-]. exists i. split; [done|].
  unfold steps; cbn. by rewrite zip_list_insert_at.
Qed.

Lemma steps_replace c c' name_ method :
  Composer.replace name_ method c = (c', Ok tt) →
  ∃ i, index name_ (_names c) = Ok i
       ∧ steps c' = <[i := (name_, method)]> (steps c).
Proof.
  unfold Composer.replace. munfold.
  destruct (index name_ _) as [i|] eqn:Hi; [|done].
  destruct (decide _); [|done].
  intros [= <-]. exists i. split; [done|].
  unfold steps; cbn. apply zip_insert_r. by apply index_lookup.
Qed.

Lemma steps_remove c c' name_ :
  Composer.remove name_ c = (c', Ok tt) →
  ∃ i, index name_ (_names c) = Ok i ∧ steps c' = delete i (steps c).
Proof.
  unfold Composer.remove. munfold.
  destruct (index name_ _) as [i|] eqn:Hi; [|done].
  destruct (decide _); [|done].
  intros [= <-]. exists i. split; [done|].
  unfold steps; cbn. apply zip_delete.
Qed.

(** C4: on a composer that already has a step called [name_], each of
    [prepend], [append], [add_before] and [add_after] raises the
    [ValueError] of [_check_duplicates], and the composer it was called on,
    ids and methods included, is exactly what it was. *)
Theorem duplicate_id_refused (c : MethodComposer) (anchor name_ : string)
    (method : PyFunc) :
  name_ ∈ _names c →
  Composer.prepend name_ method c = (c, Raise DuplicateIdentifier)
  ∧ Composer.append name_ method c = (c, Raise DuplicateIdentifier)
  ∧ Composer.add_before anchor name_ method c = (c, Raise DuplicateIdentifier)
  ∧ Composer.add_after anchor name_ method c = (c, Raise DuplicateIdentifier).
Proof.
  intros Hdup.
  unfold Composer.prepend, Composer.append, Composer.add_before,
    Composer.add_after.
  munfold. rewrite check_duplicates_run. by destruct (decide _).
Qed.

Lemma duplicate_id_refused_witness :
  "old" ∈ _names old_composer
  ∧ Composer.add_after "gone" "old" (Some (step 1)) old_composer
    = (old_composer, Raise DuplicateIdentifier).
Proof.
  assert (H : "old" ∈ _names old_composer) by apply list_elem_of_here.
  split; [exact H|].
  exact (proj2 (proj2 (proj2
    (duplicate_id_refused old_composer "gone" "old" (Some (step 1)) H)))).
Defined.

(** C10: a composer just built satisfies the invariant, and every
    operation, whether it goes through or raises, leaves a composer that
    satisfies it: as many methods as ids, no id twice, and under each id the
    method that runs at the position of the id. *)
Theorem composer_invariant (c : MethodComposer) :
  composer_inv c →
  (∀ cls obj func_name func alias chain_on func_id signatures,
     composer_inv
       (__init__ cls obj func_name func alias chain_on func_id signatures))
  ∧ (∀ name_ method, composer_inv (Composer.prepend name_ method c).1)
  ∧ (∀ name_ method, composer_inv (Composer.append name_ method c).1)
  ∧ (∀ anchor name_ method,
       composer_inv (Composer.add_before anchor name_ method c).1)
  ∧ (∀ anchor name_ method,
       composer_inv (Composer.add_after anchor name_ method c).1)
  ∧ (∀ name_ method, composer_inv (Composer.replace name_ method c).1)
  ∧ (∀ name_, composer_inv (Composer.remove name_ c).1)
  ∧ composer_inv (Composer.reset c).1
  ∧ (∀ new_obj, composer_inv (Composer.clone new_obj c)).
Proof.
  intros Hinv. split_and!; intros.
  - apply composer_inv_init.
  - by apply composer_inv_prepend.
  - by apply composer_inv_append.
  - by apply composer_inv_add_before.
  - by apply composer_inv_add_after.
  - by apply composer_inv_replace.
  - by apply composer_inv_remove.
  - apply composer_inv_reset.
  - by apply composer_inv_clone.
Qed.

Lemma composer_invariant_witness :
  composer_inv old_composer
  ∧ composer_inv (Composer.remove "old" old_composer).1.
Proof.
  assert (H : composer_inv old_composer) by apply composer_inv_init.
  split; [exact H|].
  destruct (composer_invariant old_composer H)
    as (_ & _ & _ & _ & _ & _ & Hremove & _).
  exact (Hremove "old").
Defined.

(** ** Signatures *)

Lemma truthy_Some alias : truthy alias = true → ∃ a, alias = Some a ∧ a ≠ "".
Proof. destruct alias as [[|c a]|]; [done| |done]. intros _. by eexists. Qed.

Lemma normalize_signature_lookup sig alias i arg :
  sig !! i = Some arg →
  normalize_signature sig alias !! i = Some (norm_arg arg alias).
Proof.
  intros Hi. unfold normalize_signature. by rewrite list_lookup_fmap, Hi.
Qed.

(** C8, as stated, fails: with the alias [feat], a method whose first
    parameter is called [this] keeps [this] as its first token, where the
    description puts the alias. *)
Lemma first_parameter_not_replaced :
  normalize_signature this_value (Some "feat") = ["this"; "value"]
  ∧ described_signature this_value (Some "feat") = ["feat"; "value"]
  ∧ normalize_signature this_value (Some "feat")
    ≠ described_signature this_value (Some "feat").
Proof. split_and!; [reflexivity..|discriminate]. Qed.

(** C8, amended: [normalize_signature] gives one token per parameter; a
    parameter is replaced by the alias when it is called [self] and the alias
    is a non-empty string, whatever its position and kind; any other
    parameter gives its name, after one marker when it is variadic
    positional and after two when it is variadic keyword.  For a parameter
    list in which [self] is the first parameter and no other, this is the
    signature the design documents describe.  Two functions are compatible
    exactly when the token sequences are equal. *)
Theorem normalize_signature_tokens (sig : list Param) (alias : option string) :
  length (normalize_signature sig alias) = length sig
  ∧ (∀ i arg, sig !! i = Some arg →
       ∃ tok, normalize_signature sig alias !! i = Some tok
         ∧ (truthy alias = true → p_name arg = "self" → alias = Some tok)
         ∧ (truthy alias = false ∨ p_name arg ≠ "self" →
              (p_kind arg = VAR_POSITIONAL → tok = "*" +:+ p_name arg)
              ∧ (p_kind arg = VAR_KEYWORD → tok = "**" +:+ p_name arg)
              ∧ (p_kind arg ≠ VAR_POSITIONAL → p_kind arg ≠ VAR_KEYWORD →
                   tok = p_name arg)))
  ∧ (alias ≠ Some "" →
     (truthy alias = true →
        ∀ i arg, sig !! i = Some arg → p_name arg = "self" ↔ i = 0) →
     normalize_signature sig alias = described_signature sig alias)
  ∧ (∀ f g, signature_compatible alias f g = true
            ↔ normalize_signature (parameters f) alias
              = normalize_signature (parameters g) alias).
Proof.
  split_and!.
  - unfold normalize_signature. by rewrite length_fmap.
  - intros i arg Hi. exists (norm_arg arg alias).
    split; [by apply normalize_signature_lookup|]. unfold norm_arg. split.
    + intros Ht Hself. rewrite Ht, bool_decide_eq_true_2 by done. cbn.
      by apply truthy_Some in Ht as (a & -> & _).
    + intros Hnot.
      assert (truthy alias && bool_decide (p_name arg = "self") = false) as ->.
      { destruct Hnot as [->|Hne]; [done|].
        rewrite bool_decide_eq_false_2 by done. apply andb_false_r. }
      split_and!.
      * intros Hk. by rewrite bool_decide_eq_true_2.
      * intros Hk. rewrite bool_decide_eq_false_2 by (by rewrite Hk).
        by rewrite bool_decide_eq_true_2.
      * intros Hk1 Hk2. by rewrite !bool_decide_eq_false_2.
  - intros Hne Hself. unfold normalize_signature, described_signature.
    apply list_eq. intros i. rewrite list_lookup_fmap, list_lookup_imap.
    destruct (sig !! i) as [arg|] eqn:Hi; [cbn|done]. f_equal.
    unfold norm_arg, described_token.
    destruct (truthy alias) eqn:Ht; cbn.
    + specialize (Hself eq_refl i arg Hi).
      apply truthy_Some in Ht as (a & -> & _).
      destruct i as [|i].
      * rewrite bool_decide_eq_true_2; [done|]. by apply Hself.
      * rewrite bool_decide_eq_false_2; [done|]. intros Hs. by apply Hself in Hs.
    + destruct alias as [[|c a]|]; [done|done|]. by destruct i.
  - intros f g. unfold signature_compatible. apply bool_decide_eq_true.
Qed.

(** ** The cache of composer classes *)

Lemma accepted_signatures_cons func alias signatures :
  ∃ s l, accepted_signatures func alias signatures = s :: l.
Proof. destruct signatures as [[|s l]|]; cbn; eauto. Qed.

(** What a call of the metaclass comes to: it leaves the metaclass as it is
    when the key is known, and registers the class it creates otherwise. *)
Lemma serve_run r meta :
  ∃ cls,
    serve r meta
    = (match sigs meta !! request_key r with
       | Some _ => meta
       | None => {| sigs := <[request_key r := cls]> (sigs meta);
                    classes_created := S (classes_created meta) |}
       end,
       Ok (__init__ cls (r_obj r) (f_name (r_func r)) (Some (r_func r))
             (r_alias r) (r_chain_on r) (r_func_id r) (request_key r).1))
    ∧ match sigs meta !! request_key r with
      | Some known => cls = known
      | None => class_id cls = classes_created meta
      end.
Proof.
  unfold serve, MetaMethodComposer__call__, request_key.
  destruct (accepted_signatures_cons (r_func r) (r_alias r) (r_signatures r))
    as (s & l & Hs).
  rewrite Hs. munfold.
  destruct (sigs meta !! _) as [known|] eqn:Hk; cbn.
  - exists known. by rewrite Hk.
  - unfold create_composer. munfold. eexists.
    rewrite lookup_insert_eq. split; reflexivity.
Qed.

Lemma serve_keeps r meta meta' res k cls :
  sigs meta !! k = Some cls → serve r meta = (meta', res) →
  sigs meta' !! k = Some cls.
Proof.
  intros Hk. destruct (serve_run r meta) as (cls' & -> & Hcls). intros [= <- _].
  destruct (sigs meta !! request_key r) eqn:Hr; [done|]. cbn.
  rewrite lookup_insert_ne; [done|]. intros <-. congruence.
Qed.

Lemma serve_all_run rs meta :
  ∃ meta', serve_all rs meta = (meta', Ok tt)
           ∧ ∀ k cls, sigs meta !! k = Some cls → sigs meta' !! k = Some cls.
Proof.
  revert meta. induction rs as [|r rs IH]; intros meta; [by eexists|].
  cbn. munfold. destruct (serve_run r meta) as (cls & Hr & _).
  destruct (IH (serve r meta).1) as (meta' & Hrs & Hkeep).
  rewrite Hr in *. cbn in *. exists meta'. split; [done|].
  intros k cls' Hk. apply Hkeep. eapply serve_keeps; [done|]. by rewrite Hr.
Qed.

Lemma cache_wf_no_classes : cache_wf no_classes.
Proof. split; intros *; cbn; by rewrite lookup_empty. Qed.

(** A call of the metaclass keeps the cache well formed, and the composer it
    returns is an instance of the class generated for its signatures and its
    chain. *)
Lemma serve_wf r meta meta' c :
  cache_wf meta → serve r meta = (meta', Ok c) →
  cache_wf meta'
  ∧ sigs meta' !! (_signatures c, _chain_on c) = Some (__class__ c)
  ∧ class_args (__class__ c) = drop 1 (default [] (head (_signatures c)))
  ∧ class_chain (__class__ c) = default "" (_chain_on c).
Proof.
  intros [Hgen Hone]. unfold serve, MetaMethodComposer__call__.
  destruct (accepted_signatures_cons (r_func r) (r_alias r) (r_signatures r))
    as (s & l & Hs).
  rewrite Hs. munfold.
  destruct (sigs meta !! _) as [known|] eqn:Hk; cbn.
  - rewrite Hk. intros [= <- <-]. cbn.
    destruct (Hgen _ _ Hk) as (Hargs & Hchain & _). by split_and!.
  - unfold create_composer. munfold. rewrite lookup_insert_eq.
    intros [= <- <-]. cbn. split_and!; [|by rewrite lookup_insert_eq|done..].
    split; cbn.
    + intros k cls. destruct (decide (k = (s :: l, r_chain_on r))) as [->|Hne].
      * rewrite lookup_insert_eq. intros [= <-]. cbn. split_and!; [done..|lia].
      * rewrite lookup_insert_ne by done. intros Hin.
        destruct (Hgen _ _ Hin) as (? & ? & ?). split_and!; [done..|lia].
    + intros k1 k2 cls1 cls2.
      destruct (decide (k1 = (s :: l, r_chain_on r))) as [->|Hne1],
               (decide (k2 = (s :: l, r_chain_on r))) as [->|Hne2];
        rewrite ?lookup_insert_eq, ?lookup_insert_ne by done; [done|..].
      * intros [= <-] H2 Hid. destruct (Hgen _ _ H2) as (_ & _ & ?). cbn in Hid. lia.
      * intros H1 [= <-] Hid. destruct (Hgen _ _ H1) as (_ & _ & ?). cbn in Hid. lia.
      * apply Hone.
Qed.

Lemma serve_all_wf rs meta meta' :
  cache_wf meta → serve_all rs meta = (meta', Ok tt) → cache_wf meta'.
Proof.
  revert meta. induction rs as [|r rs IH]; intros meta Hwf.
  { by intros [= <-]. }
  cbn. munfold. destruct (serve r meta) as [meta1 [c|e]] eqn:Hr; [|done].
  apply IH. by eapply serve_wf.
Qed.

(** C6: two requests with the same key get the same class, whatever was
    requested in between.  Once the first request has returned a composer,
    its class is registered under the key: it is the class object created by
    that request if the key was new, and the class that was registered
    otherwise.  After any requests that returned, a second request with the
    key returns, creates no class, leaves the metaclass as it is, and its
    composer has the class of the first. *)
Theorem same_key_same_class (meta meta1 meta2 : MetaMethodComposer)
    (r1 r2 : request) (between : list request) (c1 : MethodComposer) :
  request_key r1 = request_key r2 →
  serve r1 meta = (meta1, Ok c1) →
  serve_all between meta1 = (meta2, Ok tt) →
  ∃ c2,
    serve r2 meta2 = (meta2, Ok c2)
    ∧ __class__ c1 = __class__ c2
    ∧ sigs meta1 !! request_key r1 = Some (__class__ c1)
    ∧ sigs meta2 !! request_key r1 = Some (__class__ c1)
    ∧ match sigs meta !! request_key r1 with
      | Some known => meta1 = meta ∧ __class__ c1 = known
      | None => class_id (__class__ c1) = classes_created meta
                ∧ classes_created meta1 = S (classes_created meta)
      end.
Proof.
  intros Hkey H1 Hbetween.
  destruct (serve_run r1 meta) as (cls & Hr1 & Hcls).
  rewrite H1 in Hr1. injection Hr1 as Hmeta1 Hc1.
  assert (sigs meta1 !! request_key r1 = Some cls) as Hin.
  { rewrite Hmeta1. destruct (sigs meta !! request_key r1) eqn:Hk.
    - by subst.
    - cbn. apply lookup_insert_eq. }
  destruct (serve_all_run between meta1) as (meta2' & Hbetween' & Hkeep).
  rewrite Hbetween in Hbetween'. injection Hbetween' as <-.
  pose proof (Hkeep _ _ Hin) as Hin2.
  destruct (serve_run r2 meta2) as (cls2 & Hr2 & Hcls2).
  rewrite <- Hkey, Hin2 in Hr2, Hcls2. subst cls2 c1.
  eexists. split_and!; [exact Hr2|done..|].
  cbn. destruct (sigs meta !! request_key r1); by subst.
Qed.

Lemma same_key_same_class_witness :
  request_key first_request = request_key second_request
  ∧ ∃ meta1 c1 meta2 c2,
      serve first_request no_classes = (meta1, Ok c1)
      ∧ serve_all [other_request] meta1 = (meta2, Ok tt)
      ∧ serve second_request meta2 = (meta2, Ok c2)
      ∧ __class__ c1 = __class__ c2.
Proof.
  split; [reflexivity|].
  destruct (serve_run first_request no_classes) as (cls & H1 & _).
  destruct (serve_all_run [other_request] (serve first_request no_classes).1)
    as (meta2 & H2 & _).
  rewrite H1 in H2.
  destruct (same_key_same_class _ _ _ first_request second_request
              [other_request] _ eq_refl H1 H2)
    as (c2 & H3 & H4 & _).
  eexists _, _, meta2, c2. split_and!; [exact H1|exact H2|exact H3|exact H4].
Defined.

(** ** Declarations *)

(** C7, on the code: a declaration without a function passes the check of
    [customize] unless its specifiers are empty or start with [remove]; it is
    the removal that raises the [RuntimeError], before the owner is looked
    at, and an insertion without a function that goes on to
    [modify_behavior], here to end as a step that is [None]. *)
Theorem remove_without_function_raises
    (analyse_function :
       SupportMethodCustomization → string → PyFunc → list string → result Analysis)
    (desc_name_ meth_name_ modif_id_ decorated_name : string)
    (anchor : list string) (owner : Owner) :
  customize_customize analyse_function
    (customize__init__ desc_name_ meth_name_ ("remove" :: anchor) modif_id_)
    decorated_name owner
  = (owner, Raise MissingFunction)
  ∧ ∃ owner' desc c,
      customize_customize accept_post_get
        (customize__init__ "feat" "post_get" ["prepend"] "custom")
        "_post_get" owner_class
      = (owner', Ok tt)
      ∧ owner'.2 !! "feat" = Some (Customizable desc)
      ∧ methods desc !! "post_get" = Some (Composed c)
      ∧ steps c = [("custom", None); ("old", Some f_old)].
Proof.
  split; [reflexivity|].
  do 3 eexists. split_and!; [vm_compute; reflexivity|reflexivity..].
Qed.

(** ** Calling a composer *)

Lemma bind_args_frame toks args :
  Forall bare toks → length args = length toks →
  bind_args toks args = Ok (frame toks args).
Proof.
  intros Hb. revert args. induction Hb as [|tok toks Htok _ IH]; intros args Hlen.
  - by destruct args.
  - destruct args as [|v args]; [done|]. cbn. rewrite Htok.
    rewrite IH by (cbn in Hlen; lia). done.
Qed.

Lemma frame_lookup_notin toks args x :
  x ∉ toks → frame toks args !! x = None.
Proof.
  revert args. induction toks as [|tok toks IH]; intros args Hx; [done|].
  destruct args as [|v args]; [done|]. cbn.
  apply not_elem_of_cons in Hx as [Hne Hx].
  rewrite lookup_insert_ne by done. by apply IH.
Qed.

Lemma eval_args_insert_notin toks env x v :
  Forall bare toks → x ∉ toks →
  eval_args toks (<[x := v]> env) = eval_args toks env.
Proof.
  intros Hb. induction Hb as [|tok toks Htok _ IH]; intros Hx; [done|].
  apply not_elem_of_cons in Hx as [Hne Hx].
  cbn. rewrite Htok. unfold read_var. rewrite lookup_insert_ne by done.
  by rewrite IH.
Qed.

Lemma eval_args_frame toks args :
  Forall bare toks → NoDup toks → length args = length toks →
  eval_args toks (frame toks args) = Ok (args, []).
Proof.
  intros Hb. revert args.
  induction Hb as [|tok toks Htok Hb IH]; intros args Hnd Hlen.
  - by destruct args.
  - destruct args as [|v args]; [done|].
    apply NoDup_cons in Hnd as [Hnotin Hnd].
    cbn. rewrite Htok. unfold read_var. rewrite lookup_insert_eq. cbn.
    rewrite eval_args_insert_notin by done.
    rewrite IH by (done || cbn in Hlen; lia). done.
Qed.

Lemma frame_insert toks args i t v :
  NoDup toks → toks !! i = Some t → length args = length toks →
  <[t := v]> (frame toks args) = frame toks (<[i := v]> args).
Proof.
  revert args i. induction toks as [|tok toks IH]; intros args i Hnd Hi Hlen; [done|].
  destruct args as [|a args]; [done|].
  apply NoDup_cons in Hnd as [Hnotin Hnd].
  destruct i as [|i]; simplify_eq/=.
  - by rewrite insert_insert_eq.
  - assert (t ≠ tok).
    { intros ->. apply Hnotin. by eapply list_elem_of_lookup_2. }
    rewrite (insert_insert_ne _ t tok) by done. by rewrite (IH args i).
Qed.

Lemma frame_lookup toks args i t v :
  NoDup toks → toks !! i = Some t → args !! i = Some v →
  frame toks args !! t = Some v.
Proof.
  revert args i. induction toks as [|tok toks IH]; intros args i Hnd Hi Hv; [done|].
  destruct args as [|a args]; [done|].
  apply NoDup_cons in Hnd as [Hnotin Hnd].
  destruct i as [|i]; simplify_eq/=.
  - by rewrite lookup_insert_eq.
  - rewrite lookup_insert_ne; [by eapply IH|].
    intros ->. apply Hnotin. by eapply list_elem_of_lookup_2.
Qed.

Lemma eval_args_ext toks env env' :
  Forall bare toks → (∀ x, x ∈ toks → env !! x = env' !! x) →
  eval_args toks env = eval_args toks env'.
Proof.
  intros Hb. induction Hb as [|tok toks Htok _ IH]; intros Hagree; [done|].
  cbn. rewrite Htok. unfold read_var.
  rewrite (Hagree tok) by apply list_elem_of_here.
  rewrite IH; [done|]. intros x Hx. apply Hagree. by apply list_elem_of_further.
Qed.

(** The local variables of a call in progress: the parameters, and the loop
    variable once the loop has been entered. *)
Lemma eval_args_locals toks args env :
  Forall bare toks → NoDup toks → "m" ∉ toks → length args = length toks →
  (∀ x, x ≠ "m" → env !! x = frame toks args !! x) →
  eval_args toks env = Ok (args, []).
Proof.
  intros Hb Hnd Hm Hlen Henv.
  rewrite <- (eval_args_frame toks args) by done.
  apply eval_args_ext; [done|]. intros x Hx. apply Henv. by intros ->.
Qed.

Section CallProofs.

Context {W : Type}.
Variable call : Func → nat → list pyval → list (string * pyval) → M W pyval.

Lemma thread_accumulator_insert owner ms args i v acc w :
  thread_accumulator call owner ms (<[i := v]> args) i acc w
  = thread_accumulator call owner ms args i acc w.
Proof.
  revert acc w. induction ms as [|m ms IH]; intros acc w; [done|].
  cbn. munfold. rewrite list_insert_insert_eq.
  destruct (call_step call owner m (<[i := acc]> args) w) as [w' [r|e]]; [|done].
  apply IH.
Qed.

Lemma run_methods_chained owner toks t i ms args acc env w :
  Forall bare toks → NoDup toks → "m" ∉ toks → toks !! i = Some t →
  length args = length toks → args !! i = Some acc →
  (∀ x, x ≠ "m" → env !! x = frame toks args !! x) →
  (env' ← run_methods call owner toks [t] ms env;
   lift (return_value [t] env')) w
  = thread_accumulator call owner ms args i acc w.
Proof.
  intros Hb Hnd Hm Ht.
  assert (Htm : t ≠ "m").
  { intros ->. apply Hm. by eapply list_elem_of_lookup_2. }
  revert args acc env w.
  induction ms as [|m ms IH]; intros args acc env w Hlen Hacc Henv.
  - cbn. munfold. unfold read_var. rewrite Henv by done.
    by erewrite frame_lookup.
  - cbn. rewrite (list_insert_id args i acc) by done.
    munfold. rewrite (eval_args_locals toks args); [|done..|].
    2:{ intros x Hx. rewrite lookup_insert_ne by done. by apply Henv. }
    cbn. unfold call_step. munfold.
    destruct m as [f|]; [|done]. cbn.
    destruct (call f owner args [] w) as [w' [r|e]]; [|done]. cbn.
    rewrite <- (thread_accumulator_insert owner ms args i r r w').
    rewrite <- (IH (<[i := r]> args) r
                  (<[t := r]> (<["m" := VFunc f]> env)) w').
    + by munfold.
    + by rewrite length_insert.
    + apply list_lookup_insert_eq. by eapply lookup_lt_Some.
    + intros x Hx. rewrite <- (frame_insert toks args i t r) by done.
      destruct (decide (x = t)) as [->|Hxt].
      * by rewrite !lookup_insert_eq.
      * rewrite !lookup_insert_ne by done. by apply Henv.
Qed.

Lemma run_methods_unchained owner toks ms args env w :
  Forall bare toks → NoDup toks → "m" ∉ toks → length args = length toks →
  (∀ x, x ≠ "m" → env !! x = frame toks args !! x) →
  (env' ← run_methods call owner toks [] ms env;
   lift (return_value [] env')) w
  = run_for_effect call owner ms args w.
Proof.
  intros Hb Hnd Hm Hlen. revert env w.
  induction ms as [|m ms IH]; intros env w Henv; [done|].
  cbn. munfold. rewrite (eval_args_locals toks args); [|done..|].
  2:{ intros x Hx. rewrite lookup_insert_ne by done. by apply Henv. }
  cbn. unfold call_step. munfold.
  destruct m as [f|]; [|done]. cbn.
  destruct (call f owner args [] w) as [w' [r|e]]; [|done]. cbn.
  rewrite <- (IH (<["m" := VFunc f]> env) w').
  - by munfold.
  - intros x Hx. rewrite lookup_insert_ne by done. by apply Henv.
Qed.

End CallProofs.

Lemma split_chain_name t :
  ","%char ∉ String.list_ascii_of_string t → " "%char ∉ String.list_ascii_of_string t →
  split_chain t = (t, []).
Proof.
  induction t as [|c t IH]; [done|]. cbn.
  intros [Hc Hcomma]%not_elem_of_cons [Hb Hblank]%not_elem_of_cons.
  rewrite IH by done.
  by rewrite !bool_decide_eq_false_2 by done.
Qed.

(** A chain that is one name is one target. *)
Lemma chain_targets_name t :
  t ≠ "" →
  ","%char ∉ String.list_ascii_of_string t → " "%char ∉ String.list_ascii_of_string t →
  chain_targets t = [t].
Proof.
  intros Hne Hcomma Hblank. unfold chain_targets.
  rewrite split_chain_name by done. by destruct t.
Qed.

(** C5, on the code: take a composer whose class takes plain parameters,
    none of them called [m], and a call with as many arguments.  If the
    chain of the class is one of the parameters, the call runs the steps in
    order, each with the value returned by the step before in the place of
    that argument, and returns what the last step returned (the argument
    itself when there is no step); three steps that add one, called with 0,
    return 3.  If the class has no chain, the call runs the steps in order
    with the arguments of the call and returns [None], whatever the steps
    return.  A parameter called [m] is overwritten by the loop variable of
    the generated text: of three steps that return what they are given,
    chained on [m] and called with 0, each is given itself and the call
    returns the last step, where threading gives every step 0 and returns 0;
    without a chain the steps are given themselves too. *)
Theorem call_threads_chain {W : Type}
    (call : Func → nat → list pyval → list (string * pyval) → M W pyval)
    (self : MethodComposer) (args : list pyval) (w : W) :
  Forall bare (class_args (__class__ self)) →
  NoDup (class_args (__class__ self)) →
  "m" ∉ class_args (__class__ self) →
  length args = length (class_args (__class__ self)) →
  (∀ t i acc,
     chain_targets (class_chain (__class__ self)) = [t] →
     class_args (__class__ self) !! i = Some t →
     args !! i = Some acc →
     __call__ call self args w
     = thread_accumulator call (__self__ self) (_methods self) args i acc w)
  ∧ (class_chain (__class__ self) = "" →
     __call__ call self args w
     = run_for_effect call (__self__ self) (_methods self) args w)
  ∧ __call__ add_one (three_steps "value") [VStr "driver"; VInt 0] []
    = ([VInt 0; VInt 1; VInt 2], Ok (VInt 3))
  ∧ __call__ add_one (three_steps "") [VStr "driver"; VInt 0] []
    = ([VInt 0; VInt 0; VInt 0], Ok VNone)
  ∧ __call__ pass_on (steps_on_m "m") [VStr "driver"; VInt 0] []
    = ([VFunc (step 1); VFunc (step 2); VFunc (step 3)], Ok (VFunc (step 3)))
  ∧ thread_accumulator pass_on 1 (_methods (steps_on_m "m"))
      [VStr "driver"; VInt 0] 1 (VInt 0) []
    = ([VInt 0; VInt 0; VInt 0], Ok (VInt 0))
  ∧ __call__ pass_on (steps_on_m "") [VStr "driver"; VInt 0] []
    = ([VFunc (step 1); VFunc (step 2); VFunc (step 3)], Ok VNone)
  ∧ run_for_effect pass_on 1 (_methods (steps_on_m ""))
      [VStr "driver"; VInt 0] []
    = ([VInt 0; VInt 0; VInt 0], Ok VNone).
Proof.
  intros Hb Hnd Hm Hlen. split_and!; [| |reflexivity..].
  - intros t i acc Ht Hi Hacc. unfold __call__. rewrite Ht.
    rewrite <- (run_methods_chained call _ _ t i _ args acc
                  (frame (class_args (__class__ self)) args)) by done.
    munfold. by rewrite bind_args_frame.
  - intros Hchain. unfold __call__. rewrite Hchain. cbn [chain_targets].
    rewrite <- (run_methods_unchained call _ (class_args (__class__ self))
                  _ args (frame (class_args (__class__ self)) args)) by done.
    munfold. by rewrite bind_args_frame.
Qed.

Lemma call_threads_chain_witness :
  Forall bare (class_args (__class__ (three_steps "value")))
  ∧ NoDup (class_args (__class__ (three_steps "value")))
  ∧ ("m" ∉ class_args (__class__ (three_steps "value")))
  ∧ length [VStr "driver"; VInt 0]
    = length (class_args (__class__ (three_steps "value")))
  ∧ __call__ add_one (three_steps "value") [VStr "driver"; VInt 0] []
    = thread_accumulator add_one 1 (_methods (three_steps "value"))
        [VStr "driver"; VInt 0] 1 (VInt 0) [].
Proof.
  assert (Hb : Forall bare (class_args (__class__ (three_steps "value"))))
    by (repeat constructor).
  assert (Hnd : NoDup (class_args (__class__ (three_steps "value"))))
    by (apply NoDup_cons_2; [by intros [=]%list_elem_of_singleton|apply NoDup_singleton]).
  assert (Hm : "m" ∉ class_args (__class__ (three_steps "value")))
    by (apply (bool_decide_unpack _); vm_compute; exact I).
  split_and!; [exact Hb|exact Hnd|exact Hm|reflexivity|].
  exact (proj1 (call_threads_chain add_one (three_steps "value")
                  [VStr "driver"; VInt 0] [] Hb Hnd Hm eq_refl)
           "value" 1 (VInt 0) eq_refl eq_refl eq_refl).
Defined.

(** ** Ordered dictionaries *)

Lemma od_get_set_eq {V} k (v : V) d : od_get k (od_set k v d) = Some v.
Proof.
  induction d as [|[k' v'] d IH]; cbn.
  - by rewrite decide_True.
  - destruct (decide (k' = k)) as [->|Hne]; cbn.
    + by rewrite decide_True.
    + by rewrite decide_False.
Qed.

Lemma od_get_set_ne {V} k k' (v : V) d :
  k ≠ k' → od_get k' (od_set k v d) = od_get k' d.
Proof.
  intros Hne. induction d as [|[k'' v''] d IH]; cbn.
  - by rewrite decide_False.
  - destruct (decide (k'' = k)) as [->|Hne']; cbn.
    + by rewrite !decide_False.
    + by rewrite IH.
Qed.

Lemma od_get_None {V} k (d : list (string * V)) : od_get k d = None ↔ k ∉ d.*1.
Proof.
  induction d as [|[k' v'] d IH]; cbn.
  - split; [intros _; apply not_elem_of_nil|done].
  - rewrite not_elem_of_cons. destruct (decide (k' = k)) as [->|Hne].
    + split; [done|]. by intros [? _].
    + rewrite IH. split; [done|]. by intros [_ ?].
Qed.

Lemma od_set_fresh {V} k (v : V) d :
  od_get k d = None → od_set k v d = d ++ [(k, v)].
Proof.
  induction d as [|[k' v'] d IH]; cbn; [done|].
  destruct (decide (k' = k)); [done|]. intros H. by rewrite IH.
Qed.

Lemma od_del_keys {V} k (d d' : list (string * V)) :
  od_del k d = Ok d' → d'.*1 `sublist_of` d.*1 ∧ (od_wf d → od_get k d' = None).
Proof.
  revert d'. induction d as [|[k' v'] d IH]; intros d'; cbn; [done|].
  destruct (decide (k' = k)) as [->|Hne].
  - intros [= <-]. split; [by apply sublist_cons|].
    intros [Hk _]%NoDup_cons. by apply od_get_None.
  - destruct (od_del k d) as [d''|] eqn:Hd; [|done]. cbn. intros [= <-].
    destruct (IH d'' eq_refl) as [Hsub Hget]. split; [by apply sublist_skip|].
    intros [_ Hwf]%NoDup_cons. cbn. rewrite decide_False by done. by apply Hget.
Qed.

Lemma od_del_Raise {V} k (d : list (string * V)) e :
  od_del k d = Raise e → e = KeyError.
Proof.
  induction d as [|[k' v'] d IH]; cbn; [congruence|].
  destruct (decide (k' = k)); [done|].
  destruct (od_del k d); [done|]. cbn. intros [= <-]. by apply IH.
Qed.

(** ** [modify_behavior], step by step *)

Arguments update_composer : simpl never.
Arguments update_customs : simpl never.
Arguments record_intent : simpl never.
Arguments MetaMethodComposer__call__ : simpl never.
Arguments new_composer : simpl never.
Arguments od_get : simpl never.
Arguments od_set : simpl never.
Arguments od_del : simpl never.

Lemma metaclass_call_run obj func_ alias chain_on func_id signatures meta :
  MetaMethodComposer__call__ obj func_ alias chain_on func_id signatures meta
  = ((new_composer obj func_ alias chain_on func_id signatures meta).1,
     Ok (new_composer obj func_ alias chain_on func_id signatures meta).2).
Proof.
  unfold MetaMethodComposer__call__, new_composer.
  destruct (accepted_signatures func_ alias signatures) as [|s l] eqn:Hs.
  { destruct signatures as [[|s l]|]; done. }
  munfold. destruct (sigs meta !! _) as [known|] eqn:Hk; cbn.
  - by rewrite Hk.
  - unfold create_composer. munfold. by rewrite lookup_insert_eq.
Qed.

Lemma set_method_twice method_name m m' o :
  set_method method_name m (set_method method_name m' o) = set_method method_name m o.
Proof. unfold set_method; cbn. by rewrite insert_insert_eq. Qed.

Section ModifyBehavior.

Variable analyse_function :
  SupportMethodCustomization → string → PyFunc → list string → result Analysis.

Lemma compose_method_run method_name func_ specifiers_ modif_id_ internal_
    sigs_ chain_on h :
  compose_method method_name func_ specifiers_ modif_id_ internal_ sigs_ chain_on h
  = match methods (self h) !! method_name with
    | None => (h, Raise AttributeError)
    | Some current =>
        let '(meta', c) := composer_for method_name current sigs_ chain_on h in
        let '(c', outcome) := update_composer specifiers_ modif_id_ func_ c in
        let o' := set_method method_name (Composed c') (self h) in
        match outcome with
        | Raise e =>
            ({| metaclass := meta';
                self := match current with
                        | Composed _ => o'
                        | Bound _ => self h
                        end |}, Raise e)
        | Ok _ =>
            if internal_ then ({| metaclass := meta'; self := o' |}, Ok tt)
            else
              match od_get method_name (_customs (self h)) with
              | Some (Mapping customs) =>
                  match update_customs c' func_ specifiers_ modif_id_ customs with
                  | Ok customs' =>
                      ({| metaclass := meta';
                          self := set_customs
                                    (od_set method_name (Mapping customs')
                                       (_customs (self h))) o' |}, Ok tt)
                  | Raise e => ({| metaclass := meta'; self := o' |}, Raise e)
                  end
              | Some (Replacement _) =>
                  ({| metaclass := meta'; self := o' |}, Raise TypeError)
              | None => ({| metaclass := meta'; self := o' |}, Raise KeyError)
              end
        end
    end.
Proof.
  unfold compose_method, on_self, on_metaclass, getattr, composer_for. munfold.
  destruct (methods (self h) !! method_name) as [[f|c]|]; cbn; [| |done].
  - rewrite metaclass_call_run. cbn.
    destruct (new_composer _ _ _ _ _ _ _) as [meta' c]. cbn.
    destruct (update_composer _ _ _ c) as [c' [[]|e]]; cbn; [|by destruct h].
    destruct internal_; cbn; [done|].
    destruct (od_get method_name _) as [[old|customs]|]; cbn; [done| |done].
    by destruct (update_customs _ _ _ _ _).
  - destruct (update_composer _ _ _ c) as [c' [[]|e]]; cbn; [|done].
    rewrite !set_method_twice.
    destruct internal_; cbn; [done|].
    destruct (od_get method_name _) as [[old|customs]|]; cbn; [done| |done].
    by destruct (update_customs _ _ _ _ _).
Qed.

Lemma modify_behavior_run method_name func_ specifiers_ modif_id_ internal_ h :
  modify_behavior analyse_function method_name func_ specifiers_ modif_id_
    internal_ h
  = let h1 := intent_recorded method_name func_ specifiers_ internal_ h in
    let modif_id' := match specifiers_ with [] => "old" | _ => modif_id_ end in
    match (if bool_decide (specifiers_ = [])
              || negb (bool_decide (specifiers_ !! 0 = Some "remove"))
           then analyse_function (self h1) method_name func_ specifiers_
           else Ok (specifiers_, None, None)) with
    | Raise e => (h1, Raise e)
    | Ok ([], _, _) => replace_method method_name func_ modif_id' h1
    | Ok (specifiers', sigs_, chain_on) =>
        compose_method method_name func_ specifiers' modif_id' internal_
          sigs_ chain_on h1
    end.
Proof.
  unfold modify_behavior, intent_recorded, on_self. munfold.
  destruct internal_; cbn.
  - destruct (_ || _); cbn; [|by destruct specifiers_].
    destruct (analyse_function _ _ _ _) as [[[[|k sp'] sg] ch]|e]; done.
  - destruct (_ || _); cbn; [|by destruct specifiers_].
    destruct (analyse_function _ _ _ _) as [[[[|k sp'] sg] ch]|e]; done.
Qed.

Lemma od_get_record_intent method_name func_ kind_ rest o :
  od_get method_name (record_intent method_name func_ (kind_ :: rest) (_customs o))
  = Some (Mapping (customs_of method_name o)).
Proof.
  unfold record_intent, customs_of.
  destruct (od_get method_name (_customs o)) as [[old|customs]|] eqn:Hget;
    by rewrite ?od_get_set_eq.
Qed.

End ModifyBehavior.

Lemma update_customs_remove c func_ anchor rest modif_id_ customs :
  update_customs c func_ ("remove" :: anchor :: rest) modif_id_ customs
  = od_del modif_id_ customs.
Proof. reflexivity. Qed.

Lemma update_customs_replace c func_ anchor rest modif_id_ customs old :
  od_get anchor customs = Some old →
  update_customs c func_ ("replace" :: anchor :: rest) modif_id_ customs
  = Ok (od_set anchor (func_, old.2) customs).
Proof. intros H. unfold update_customs. munfold. by rewrite H. Qed.

Lemma update_customs_insertion c func_ specifiers_ modif_id_ customs :
  is_insertion specifiers_ = true →
  update_customs c func_ specifiers_ modif_id_ customs
  = Ok (od_set modif_id_ (func_, specifiers_) customs).
Proof.
  destruct specifiers_ as [|kind_ rest]; [done|]. cbn.
  intros Hk%bool_decide_eq_true.
  repeat (apply elem_of_cons in Hk as [->|Hk]); [done..|].
  by apply elem_of_nil in Hk.
Qed.

(** The record after a removal and after a replacement.  When
    [modify_behavior] has applied a removal that is not internal, the
    modifications recorded for the method are those recorded before without
    the entry of the modification id, the others in their order; when it has
    applied the replacement of a step that has an entry, that entry holds
    the new function with the specifiers it was recorded with, at its place,
    and the other entries are as they were. *)
Lemma record_after_remove_and_replace
    (analyse_function :
       SupportMethodCustomization → string → PyFunc → list string → result Analysis)
    (h h' : Heap) (method_name : string) (func_ : PyFunc)
    (anchor modif_id_ : string) (rest : list string) :
  (modify_behavior analyse_function method_name func_
     ("remove" :: anchor :: rest) modif_id_ false h = (h', Ok tt) →
   ∃ customs',
     od_get method_name (_customs (self h')) = Some (Mapping customs')
     ∧ od_del modif_id_ (customs_of method_name (self h)) = Ok customs'
     ∧ (od_wf (customs_of method_name (self h)) →
        od_get modif_id_ customs' = None))
  ∧ (∀ specifiers_ sigs_ chain_on old_func old_specifiers,
       specifiers_ ≠ [] → specifiers_ !! 0 ≠ Some "remove" →
       analyse_function
         (self (intent_recorded method_name func_ specifiers_ false h))
         method_name func_ specifiers_
       = Ok ("replace" :: anchor :: rest, sigs_, chain_on) →
       od_get anchor (customs_of method_name (self h))
       = Some (old_func, old_specifiers) →
       modify_behavior analyse_function method_name func_ specifiers_ modif_id_
         false h = (h', Ok tt) →
       ∃ customs',
         od_get method_name (_customs (self h')) = Some (Mapping customs')
         ∧ customs' = od_set anchor (func_, old_specifiers)
                        (customs_of method_name (self h))
         ∧ od_get anchor customs' = Some (func_, old_specifiers)).
Proof.
  split.
  - rewrite modify_behavior_run. cbn zeta.
    rewrite (bool_decide_eq_true_2 (_ !! 0 = _)) by done.
    rewrite bool_decide_eq_false_2 by done. cbn [orb negb].
    rewrite compose_method_run. unfold intent_recorded. cbn.
    destruct (methods (self h) !! method_name) as [current|]; [|done].
    destruct (composer_for _ _ _ _ _) as [meta' c].
    destruct (update_composer _ _ _ c) as [c' [[]|e]]; [|done].
    rewrite od_get_record_intent, update_customs_remove.
    destruct (od_del modif_id_ _) as [customs'|] eqn:Hdel; [|done].
    intros [= <-]. exists customs'. cbn. rewrite od_get_set_eq.
    split_and!; [done..|]. by apply od_del_keys in Hdel as [_ ?].
  - intros sp sg ch old_func old_specifiers Hne Hrm Hhook Hold.
    rewrite modify_behavior_run. cbn zeta.
    rewrite bool_decide_eq_false_2 by done.
    rewrite (bool_decide_eq_false_2 (sp !! 0 = _)) by done.
    cbn [orb negb]. rewrite Hhook.
    rewrite compose_method_run.
    destruct sp as [|kind_ sp]; [done|]. unfold intent_recorded. cbn.
    destruct (methods (self h) !! method_name) as [current|]; [|done].
    destruct (composer_for _ _ _ _ _) as [meta' c].
    destruct (update_composer _ _ _ c) as [c' [[]|e]]; [|done].
    rewrite od_get_record_intent.
    rewrite (update_customs_replace _ _ _ _ _ _ _ Hold).
    intros [= <-]. eexists. cbn. rewrite od_get_set_eq.
    split_and!; [done..|]. apply od_get_set_eq.
Qed.

(** ** Updating a composer *)

Ltac composer_unfold :=
  unfold update_composer, Composer.add_before, Composer.add_after,
    Composer.replace, Composer.remove, Composer.prepend, Composer.append,
    Composer._check_duplicates, getitem in *;
  munfold.

(** Settles the comparisons of two given strings. *)
Ltac decide_kinds :=
  repeat match goal with
  | |- context [bool_decide (?a = ?b)] =>
      first [ rewrite (bool_decide_eq_true_2 (a = b)) by done
            | rewrite (bool_decide_eq_false_2 (a = b)) by done ]
  end.

(** What an update does to the ids and the methods depends on the ids and
    the methods only. *)
Lemma update_composer_deterministic specifiers_ modif_id_ func_ c1 c2 c1' c2' r1 r2 :
  _names c1 = _names c2 → _methods c1 = _methods c2 →
  update_composer specifiers_ modif_id_ func_ c1 = (c1', r1) →
  update_composer specifiers_ modif_id_ func_ c2 = (c2', r2) →
  r1 = r2 ∧ _names c1' = _names c2' ∧ _methods c1' = _methods c2'.
Proof.
  destruct c1 as [cl1 s1 n1 a1 ch1 ns1 ms1 sg1], c2 as [cl2 s2 n2 a2 ch2 ns2 ms2 sg2].
  cbn. intros <- <-. composer_unfold.
  intros H1 H2.
  repeat (case_match; simplify_eq/=; try done).
Qed.

(** An update that is not a replacement or a removal, and whose anchor, if
    it has one, is a step of the composer, does not end in the [ValueError]
    of [list.index]. *)
Lemma update_composer_anchor_found specifiers_ modif_id_ func_ c :
  specifiers_ !! 0 ≠ Some "replace" → specifiers_ !! 0 ≠ Some "remove" →
  (specifiers_ !! 0 = Some "add_before" ∨ specifiers_ !! 0 = Some "add_after" →
   ∃ anchor, specifiers_ !! 1 = Some anchor ∧ anchor ∈ _names c) →
  (update_composer specifiers_ modif_id_ func_ c).2 ≠ Raise AnchorNotFound.
Proof.
  intros Hrep Hrem Hanchor. composer_unfold.
  destruct (specifiers_ !! 0) as [kind_|] eqn:Hkind; cbn; [|done].
  destruct (bool_decide (kind_ = "add_before")) eqn:Hb.
  { apply bool_decide_eq_true in Hb as ->.
    destruct Hanchor as (anchor & -> & Hin); [by left|]. cbn.
    destruct (decide _); cbn; [done|].
    destruct (index_elem_of _ _ Hin) as [i ->]. done. }
  destruct (bool_decide (kind_ = "add_after")) eqn:Ha.
  { apply bool_decide_eq_true in Ha as ->.
    destruct Hanchor as (anchor & -> & Hin); [by right|]. cbn.
    destruct (decide _); cbn; [done|].
    destruct (index_elem_of _ _ Hin) as [i ->]. done. }
  rewrite !bool_decide_eq_false_2 by congruence.
  repeat (case_match; simplify_eq/=; try done).
Qed.

Lemma replace_method_no_anchor_error method_name func_ modif_id_ h :
  (replace_method method_name func_ modif_id_ h).2 ≠ Raise AnchorNotFound.
Proof. unfold replace_method, on_self. munfold. by destruct func_. Qed.

Lemma update_customs_no_anchor_error c func_ specifiers_ modif_id_ customs :
  specifiers_ !! 0 ≠ Some "replace" →
  update_customs c func_ specifiers_ modif_id_ customs ≠ Raise AnchorNotFound.
Proof.
  intros Hrep. unfold update_customs, getitem. munfold.
  destruct (specifiers_ !! 0) as [kind_|]; cbn; [|done].
  destruct (bool_decide (kind_ = "remove")).
  { by intros ?%od_del_Raise. }
  rewrite bool_decide_eq_false_2 by congruence. done.
Qed.

Arguments modify_behavior : simpl never.
Arguments copy_modifier : simpl never.

(** ** The search for another anchor *)

Lemma find_anchor_found fuel names our_names shift i name_ :
  find_anchor fuel names our_names shift i = Ok (Some name_) →
  name_ ∈ our_names.
Proof.
  revert i. induction fuel as [|fuel IH]; intros i; cbn; [done|].
  destruct (decide _); [|done]. munfold.
  destruct (getitem_Z names (i + shift)) as [n|]; [|done].
  destruct (decide (n ∈ our_names)); [by intros [= <-]|]. apply IH.
Qed.

Lemma find_anchor_no_anchor_error fuel names our_names shift i :
  find_anchor fuel names our_names shift i ≠ Raise AnchorNotFound.
Proof.
  revert i. induction fuel as [|fuel IH]; intros i; cbn; [done|].
  destruct (decide _); [|done]. munfold.
  unfold getitem_Z, getitem.
  repeat (case_match; simplify_eq/=; try done).
Qed.

(** Going backward, the loop ends within the bound it is run with, and
    reads inside the list. *)
Lemma find_anchor_terminates fuel names our_names i :
  (0 ≤ i < Z.of_nat (length names))%Z → (Z.to_nat i < fuel) →
  ∃ found, find_anchor fuel names our_names (-1) i = Ok found.
Proof.
  revert i. induction fuel as [|fuel IH]; intros i Hi Hfuel; [lia|].
  cbn.
  destruct (decide _) as [Hin|]; [|by eexists]. munfold.
  unfold getitem_Z. rewrite decide_True by lia.
  unfold getitem.
  destruct (lookup_lt_is_Some_2 names (Z.to_nat (i + -1))) as [n ->]; [lia|].
  destruct (decide (n ∈ our_names)); [by eexists|].
  apply IH; lia.
Qed.

Section Replay.

Variable analyse_function :
  SupportMethodCustomization → string → PyFunc → list string → result Analysis.

Hypothesis analyse_function_well_behaved : well_behaved analyse_function.

Lemma compose_method_no_anchor_error method_name func_ specifiers_ modif_id_
    internal_ sigs_ chain_on h :
  specifiers_ !! 0 ≠ Some "replace" → specifiers_ !! 0 ≠ Some "remove" →
  (specifiers_ !! 0 = Some "add_before" ∨ specifiers_ !! 0 = Some "add_after" →
   ∃ c anchor, methods (self h) !! method_name = Some (Composed c)
               ∧ specifiers_ !! 1 = Some anchor ∧ anchor ∈ _names c) →
  (compose_method method_name func_ specifiers_ modif_id_ internal_ sigs_
     chain_on h).2 ≠ Raise AnchorNotFound.
Proof.
  intros Hrep Hrem Hanchor. rewrite compose_method_run.
  destruct (methods (self h) !! method_name) as [current|] eqn:Hcur; [|done].
  destruct (composer_for _ _ _ _ _) as [meta' c] eqn:Hc.
  pose proof (update_composer_anchor_found specifiers_ modif_id_ func_ c Hrep Hrem)
    as Hupd.
  destruct (update_composer _ _ _ c) as [c' [[]|e]]; cbn in *.
  - destruct internal_; [done|].
    destruct (od_get method_name _) as [[old|customs]|]; [done| |done].
    pose proof (update_customs_no_anchor_error c' func_ specifiers_ modif_id_
                  customs Hrep).
    destruct (update_customs _ _ _ _ _); cbn in *; congruence.
  - apply Hupd. intros Hkind.
    destruct (Hanchor Hkind) as (c0 & anchor & Hc0 & Ha & Hin).
    simplify_eq/=. by exists anchor.
Qed.

Lemma modify_behavior_no_anchor_error method_name func_ specifiers_ modif_id_
    internal_ h :
  specifiers_ !! 0 ≠ Some "replace" → specifiers_ !! 0 ≠ Some "remove" →
  (specifiers_ !! 0 = Some "add_before" ∨ specifiers_ !! 0 = Some "add_after" →
   ∃ c anchor, methods (self h) !! method_name = Some (Composed c)
               ∧ specifiers_ !! 1 = Some anchor ∧ anchor ∈ _names c) →
  (modify_behavior analyse_function method_name func_ specifiers_ modif_id_
     internal_ h).2 ≠ Raise AnchorNotFound.
Proof.
  intros Hrep Hrem Hanchor. rewrite modify_behavior_run. cbn zeta.
  rewrite (bool_decide_eq_false_2 (specifiers_ !! 0 = _)) by done.
  rewrite orb_true_r.
  pose proof (analyse_function_well_behaved
    (self (intent_recorded method_name func_ specifiers_ internal_ h))
    method_name func_ specifiers_) as Hhook.
  destruct (analyse_function _ _ _ _) as [[[sp' sg] ch]|e]; [|cbn; congruence].
  assert (methods (self (intent_recorded method_name func_ specifiers_
                           internal_ h)) = methods (self h)) as Hsame.
  { unfold intent_recorded. by destruct internal_. }
  destruct Hhook as [->| ->].
  - destruct specifiers_ as [|kind_ rest].
    { apply replace_method_no_anchor_error. }
    apply compose_method_no_anchor_error; [done..|]. by rewrite Hsame.
  - apply replace_method_no_anchor_error.
Qed.

Lemma copy_modifier_no_anchor_error obj meth_name_ custom_ modifier h :
  degradable obj meth_name_ (custom_, modifier) →
  (copy_modifier analyse_function obj meth_name_ custom_ modifier h).2
  ≠ Raise AnchorNotFound.
Proof.
  destruct modifier as [func_ sp]. intros (Hins & Hcustom).
  assert (sp !! 0 ≠ Some "replace" ∧ sp !! 0 ≠ Some "remove") as [Hrep Hrem].
  { destruct sp as [|k r]; [done|]. cbn in Hins |- *.
    split; intros [= ->]; by vm_compute in Hins. }
  unfold copy_modifier, getattr, getitem. munfold.
  destruct (methods (self h) !! meth_name_) as [method|] eqn:Hmethod; [|done].
  destruct (sp !! 0) as [kind_|] eqn:Hkind; [|done].
  destruct (bool_decide (kind_ ∈ _)) eqn:Hanchored; cbn.
  2:{ apply bool_decide_eq_false in Hanchored.
      apply modify_behavior_no_anchor_error; [congruence..|].
      rewrite Hkind. intros [[= ->]|[= ->]]; exfalso; apply Hanchored; set_solver. }
  destruct method as [f|method].
  { apply modify_behavior_no_anchor_error.
    all: destruct (bool_decide (kind_ = "add_after")); cbn; try done.
    all: by intros [?|?]. }
  destruct (sp !! 1) as [anchor|] eqn:Hanchor; [|done]. cbn.
  destruct (decide (anchor ∈ _names method)) as [Hin|Hout].
  { apply modify_behavior_no_anchor_error; [congruence..|].
    intros _. by exists method, anchor. }
  destruct (methods obj !! meth_name_) as [[f|theirs]|] eqn:Htheirs; [done| |done].
  cbn. destruct (index custom_ (_names theirs)) as [i|e] eqn:Hindex; cbn.
  2:{ apply index_Raise in Hindex as [Hnot _]. exfalso. apply Hnot.
      apply Hcustom; [|done]. apply bool_decide_eq_true in Hanchored.
      repeat (apply elem_of_cons in Hanchored as [->|Hanchored]);
        [by right|by left|by apply elem_of_nil in Hanchored]. }
  pose proof (find_anchor_no_anchor_error (length (_names theirs)) (_names theirs)
    (_names method) (if bool_decide (kind_ = "add_after") then -1 else -1)%Z
    (Z.of_nat i)) as Hfind.
  destruct (find_anchor _ _ _ _ _) as [[name_|]|e] eqn:Hfound; cbn; [| |congruence].
  - apply find_anchor_found in Hfound.
    apply modify_behavior_no_anchor_error; cbn.
    + apply bool_decide_eq_true in Hanchored. intros [= ->]. set_solver.
    + apply bool_decide_eq_true in Hanchored. intros [= ->]. set_solver.
    + intros _. by exists method, name_.
  - apply modify_behavior_no_anchor_error.
    all: destruct (bool_decide (kind_ = "add_after")); cbn; try done.
    all: by intros [?|?].
Qed.

Lemma copy_modifiers_no_anchor_error obj meth_name_ modifiers h :
  Forall (degradable obj meth_name_) modifiers →
  (copy_modifiers analyse_function obj meth_name_ modifiers h).2
  ≠ Raise AnchorNotFound.
Proof.
  intros Hall. revert h.
  induction Hall as [|[custom_ modifier] modifiers Hd _ IH]; intros h; [done|].
  cbn. munfold.
  pose proof (copy_modifier_no_anchor_error obj meth_name_ custom_ modifier h Hd).
  destruct (copy_modifier _ _ _ _ _ h) as [h1 [[]|e]]; cbn in *; [|congruence].
  apply IH.
Qed.

Lemma copy_methods_no_anchor_error obj customs h :
  (∀ meth_name_ modifiers,
     (meth_name_, Mapping modifiers) ∈ customs →
     Forall (degradable obj meth_name_) modifiers) →
  (copy_methods analyse_function obj customs h).2 ≠ Raise AnchorNotFound.
Proof.
  revert h. induction customs as [|[meth_name_ modifiers] customs IH];
    intros h Hall; [done|].
  assert (∀ h1, (copy_methods analyse_function obj customs h1).2
                ≠ Raise AnchorNotFound) as Hrest.
  { intros h1. apply IH. intros m mods Hin. apply Hall. by right. }
  cbn. munfold. destruct modifiers as [func_|modifiers].
  - pose proof (modify_behavior_no_anchor_error meth_name_ func_ [] "custom"
                  false h) as Hfirst.
    destruct (modify_behavior _ _ _ _ _ _ h) as [h1 [[]|e]]; cbn in *.
    + apply Hrest.
    + apply Hfirst; [done..|]. by intros [?|?].
  - pose proof (copy_modifiers_no_anchor_error obj meth_name_ modifiers h)
      as Hfirst.
    destruct (copy_modifiers _ _ _ _ h) as [h1 [[]|e]]; cbn in *.
    + apply Hrest.
    + apply Hfirst, Hall. by left.
Qed.

End Replay.

(** ** Insertions, seen on the ids and the methods *)

Lemma composer_for_pipeline method_name current sigs_ chain_on h meta' c :
  methods (self h) !! method_name = Some current →
  composer_for method_name current sigs_ chain_on h = (meta', c) →
  pipeline method_name (self h) = Some (_names c, _methods c).
Proof.
  intros Hcur. unfold pipeline, composer_for. rewrite Hcur.
  destruct current as [f|c0]; [|by intros [= _ <-]].
  unfold new_composer. by destruct (sigs _ !! _); intros [= _ <-].
Qed.

Lemma pipeline_set_method method_name c o :
  pipeline method_name (set_method method_name (Composed c) o)
  = Some (_names c, _methods c).
Proof. unfold pipeline. cbn. by rewrite lookup_insert_eq. Qed.

Section Insertions.

Variable analyse_function :
  SupportMethodCustomization → string → PyFunc → list string → result Analysis.

Hypothesis analyse_function_transparent : transparent analyse_function.

(** An insertion that is not internal: it fails on an object without the
    method; otherwise it updates a composer that has the ids and the methods
    of the method, and when that goes through, the method has the ids and
    the methods of the updated composer and the modification is recorded
    under its id. *)
Lemma modify_behavior_insertion method_name func_ specifiers_ modif_id_ h h' r :
  is_insertion specifiers_ = true →
  modify_behavior analyse_function method_name func_ specifiers_ modif_id_
    false h = (h', r) →
  match pipeline method_name (self h) with
  | None => r = Raise AttributeError
  | Some (ns, ms) =>
      ∃ c c', _names c = ns ∧ _methods c = ms
        ∧ update_composer specifiers_ modif_id_ func_ c = (c', r)
        ∧ (r = Ok tt →
           pipeline method_name (self h') = Some (_names c', _methods c')
           ∧ _customs (self h')
             = od_set method_name
                 (Mapping (od_set modif_id_ (func_, specifiers_)
                             (customs_of method_name (self h))))
                 (record_intent method_name func_ specifiers_
                    (_customs (self h))))
  end.
Proof.
  intros Hins. rewrite modify_behavior_run. cbn zeta.
  destruct specifiers_ as [|kind_ rest]; [done|].
  assert (bool_decide (kind_ :: rest = [])
          || negb (bool_decide ((kind_ :: rest) !! 0 = Some "remove")) = true)
    as ->.
  { cbn. apply bool_decide_eq_true in Hins.
    rewrite bool_decide_eq_false_2; [done|]. intros [= ->].
    repeat (apply elem_of_cons in Hins as [?|Hins]; [done|]).
    by apply elem_of_nil in Hins. }
  destruct (analyse_function_transparent
    (self (intent_recorded method_name func_ (kind_ :: rest) false h))
    method_name func_ (kind_ :: rest)) as (sg & ch & ->).
  rewrite compose_method_run. unfold intent_recorded. cbn.
  destruct (methods (self h) !! method_name) as [current|] eqn:Hcur.
  2:{ unfold pipeline. rewrite Hcur. by intros [= _ <-]. }
  destruct (composer_for _ _ _ _ _) as [meta' c] eqn:Hc.
  assert (pipeline method_name (self h) = Some (_names c, _methods c)) as ->.
  { eapply (composer_for_pipeline _ _ sg ch); [done|].
    rewrite <- Hc. by destruct current. }
  destruct (update_composer _ _ _ c) as [c' [[]|e]] eqn:Hupd.
  - rewrite od_get_record_intent, update_customs_insertion by done.
    intros [= <- <-]. exists c, c'. split_and!; [done..|].
    intros _. split; [|done]. unfold pipeline. cbn. by rewrite lookup_insert_eq.
  - intros [= <- <-]. by exists c, c'.
Qed.

End Insertions.

Lemma is_insertion_kind specifiers_ :
  is_insertion specifiers_ = true →
  ∃ kind_ rest, specifiers_ = kind_ :: rest
    ∧ (kind_ = "prepend" ∨ kind_ = "append" ∨ kind_ = "add_before"
       ∨ kind_ = "add_after").
Proof.
  destruct specifiers_ as [|kind_ rest]; [done|]. cbn.
  intros Hk%bool_decide_eq_true. exists kind_, rest. split; [done|].
  repeat (apply elem_of_cons in Hk as [->|Hk]); [tauto..|].
  by apply elem_of_nil in Hk.
Qed.

(** An insertion next to an anchor that goes through found its anchor. *)
Lemma update_composer_anchored kind_ rest modif_id_ func_ c c' :
  kind_ = "add_before" ∨ kind_ = "add_after" →
  update_composer (kind_ :: rest) modif_id_ func_ c = (c', Ok tt) →
  ∃ anchor, rest !! 0 = Some anchor ∧ anchor ∈ _names c.
Proof.
  intros [->| ->]; composer_unfold; decide_kinds.
  all: destruct (rest !! 0) as [anchor|]; [|done]; cbn.
  all: destruct (decide _); [done|].
  all: destruct (index anchor _) as [i|] eqn:Hi; [|done].
  all: intros _; exists anchor; split; [done|].
  all: eapply list_elem_of_lookup_2, index_lookup, Hi.
Qed.

(** On a composer of one step, inserting after the step is appending and
    inserting before it is prepending. *)
Lemma update_composer_single kind_ rest modif_id_ func_ c c' cB cB' rB n0 m0 :
  kind_ = "add_before" ∨ kind_ = "add_after" →
  _names c = [n0] → _methods c = [m0] →
  _names cB = [n0] → _methods cB = [m0] →
  update_composer (kind_ :: rest) modif_id_ func_ c = (c', Ok tt) →
  update_composer
    (if bool_decide (kind_ = "add_after") then ["append"] else ["prepend"])
    modif_id_ func_ cB = (cB', rB) →
  rB = Ok tt ∧ _names cB' = _names c' ∧ _methods cB' = _methods c'.
Proof.
  destruct c as [cl1 s1 n1 a1 ch1 ns1 ms1 sg1], cB as [cl2 s2 n2 a2 ch2 ns2 ms2 sg2].
  cbn. intros [->| ->] -> -> -> ->; composer_unfold; decide_kinds; cbn;
    decide_kinds; unfold index; cbn.
  all: destruct (rest !! 0) as [anchor|]; [|done]; cbn.
  all: destruct (decide (modif_id_ ∈ [n0])); [done|]; cbn.
  all: destruct (decide (n0 = anchor)); [|done]; cbn.
  all: by intros [= <-] [= <- <-].
Qed.

(** ** Replaying insertions *)

Section RoundTrip.

Variable analyse_function :
  SupportMethodCustomization → string → PyFunc → list string → result Analysis.

Hypothesis analyse_function_transparent : transparent analyse_function.

(** The same insertion on two objects whose method has the same ids and
    methods ends the same way. *)
Lemma modify_behavior_insertion_same method_name func_ specifiers_ modif_id_
    hA hA' hB :
  is_insertion specifiers_ = true →
  pipeline method_name (self hB) = pipeline method_name (self hA) →
  modify_behavior analyse_function method_name func_ specifiers_ modif_id_
    false hA = (hA', Ok tt) →
  ∃ hB',
    modify_behavior analyse_function method_name func_ specifiers_ modif_id_
      false hB = (hB', Ok tt)
    ∧ pipeline method_name (self hB') = pipeline method_name (self hA').
Proof.
  intros Hins Hsame HA.
  apply (modify_behavior_insertion _ analyse_function_transparent) in HA; [|done].
  destruct (modify_behavior analyse_function method_name func_ specifiers_
              modif_id_ false hB) as [hB' rB] eqn:HB.
  apply (modify_behavior_insertion _ analyse_function_transparent) in HB; [|done].
  rewrite Hsame in HB.
  destruct (pipeline method_name (self hA)) as [[ns ms]|]; [|done].
  destruct HA as (c & c' & Hns & Hms & Hupd & HA).
  destruct HB as (cB & cB' & HnsB & HmsB & HupdB & HB).
  destruct (update_composer_deterministic specifiers_ modif_id_ func_
              c cB c' cB' (Ok tt) rB)
    as (<- & Hns' & Hms'); [congruence..|].
  destruct (HA eq_refl) as [-> _], (HB eq_refl) as [HpB _].
  exists hB'. split; [done|]. by rewrite HpB, Hns', Hms'.
Qed.

(** Replaying on [hB] an insertion that went through on [hA], where the
    method had the ids and the methods it has on [hB]. *)
Lemma copy_modifier_follows obj method_name func_ specifiers_ modif_id_
    hA hA' hB :
  is_insertion specifiers_ = true →
  pipeline method_name (self hB) = pipeline method_name (self hA) →
  modify_behavior analyse_function method_name func_ specifiers_ modif_id_
    false hA = (hA', Ok tt) →
  ∃ hB',
    copy_modifier analyse_function obj method_name modif_id_
      (func_, specifiers_) hB = (hB', Ok tt)
    ∧ pipeline method_name (self hB') = pipeline method_name (self hA').
Proof.
  intros Hins Hsame HA.
  destruct (modify_behavior_insertion_same _ _ _ _ _ _ hB Hins Hsame HA)
    as (hB1 & HB1 & Hp1).
  pose proof HA as HA'.
  apply (modify_behavior_insertion _ analyse_function_transparent) in HA'; [|done].
  destruct (pipeline method_name (self hA)) as [[ns ms]|] eqn:HpA; [|done].
  destruct HA' as (c & c' & Hns & Hms & Hupd & HA').
  destruct (HA' eq_refl) as [HpA' _]. clear HA'.
  destruct (is_insertion_kind _ Hins) as (kind_ & rest & -> & Hkind).
  unfold copy_modifier, getattr, getitem. munfold.
  assert (∃ method, methods (self hB) !! method_name = Some method
            ∧ match method with
              | Composed cB => _names cB = ns ∧ _methods cB = ms
              | Bound f => ns = [default "old" (_old_ids (self hB) !! method_name)]
                           ∧ ms = [Some f]
              end) as (method & Hmethod & Hview).
  { unfold pipeline in Hsame.
    destruct (methods (self hB) !! method_name) as [[f|cB]|]; simplify_eq/=;
      by eexists. }
  rewrite Hmethod.
  destruct (bool_decide (kind_ ∈ ["add_after"; "add_before"])) eqn:Hanchored; cbn.
  2:{ by exists hB1. }
  assert (kind_ = "add_before" ∨ kind_ = "add_after") as Hkind'.
  { apply bool_decide_eq_true in Hanchored.
    repeat (apply elem_of_cons in Hanchored as [->|Hanchored]); [tauto..|].
    by apply elem_of_nil in Hanchored. }
  destruct method as [f|cB].
  - destruct Hview as [-> ->].
    destruct (modify_behavior analyse_function method_name func_
                (if bool_decide (kind_ = "add_after") then ["append"]
                 else ["prepend"]) modif_id_ false hB) as [hB' rB] eqn:HB.
    apply (modify_behavior_insertion _ analyse_function_transparent) in HB;
      [|by destruct (bool_decide (kind_ = "add_after"))].
    rewrite Hsame in HB.
    destruct HB as (cB & cB' & HnsB & HmsB & HupdB & HB).
    destruct (update_composer_single kind_ rest modif_id_ func_ c c' cB cB' rB
                _ _ Hkind' Hns Hms HnsB HmsB Hupd HupdB) as (-> & Hns' & Hms').
    destruct (HB eq_refl) as [HpB _].
    exists hB'. split; [done|]. by rewrite HpB, HpA', Hns', Hms'.
  - destruct Hview as [HnsB HmsB].
    destruct (update_composer_anchored _ _ _ _ _ _ Hkind' Hupd)
      as (anchor & Hanchor & Hin).
    destruct rest as [|anchor0 rest]; [done|]. cbn in Hanchor. simplify_eq. cbn. rewrite decide_True by congruence.
    by exists hB1.
Qed.

Lemma od_single_get {V} k (v : V) : od_get k [(k, v)] = Some v.
Proof. unfold od_get. by rewrite decide_True. Qed.

Lemma od_single_set {V} k (v w : V) : od_set k w [(k, v)] = [(k, w)].
Proof. unfold od_set. by rewrite decide_True. Qed.

End RoundTrip.

(** ** Replays on examples *)

(** C1, on the code.  The source has the steps [old], [y], [z] and the
    target [old], [z].  A step [w] inserted after [y] is replayed after
    [old], found going backward.  A step [w] inserted before [y] is replayed
    before [old], found going backward as well, where going forward finds
    [z]; and on a target that has none of the steps it is prepended, not
    appended.  A step [w] inserted after [y] as the last step of the source
    is prepended without any search, although [old] stands before it in both
    objects. *)
Theorem add_before_searches_backward :
  names_of (self w_after_y) "post_get" = ["old"; "y"; "w"; "z"]
  ∧ names_of (self w_before_y) "post_get" = ["old"; "w"; "y"; "z"]
  ∧ names_of (self rebuilt) "post_get" = ["old"; "z"]
  ∧ (∃ h, copy_custom_behaviors accept_post_get (self w_after_y) rebuilt
          = (h, Ok tt)
          ∧ names_of (self h) "post_get" = ["old"; "w"; "z"])
  ∧ (∃ h, copy_custom_behaviors accept_post_get (self w_before_y) rebuilt
          = (h, Ok tt)
          ∧ names_of (self h) "post_get" = ["w"; "old"; "z"])
  ∧ names_of (self w_before_last) "post_get" = ["old"; "w"; "y"]
  ∧ names_of (self unrelated) "post_get" = ["q"]
  ∧ (∃ h, copy_custom_behaviors accept_post_get (self w_before_last) unrelated
          = (h, Ok tt)
          ∧ names_of (self h) "post_get" = ["w"; "q"])
  ∧ names_of (self w_last) "post_get" = ["old"; "y"; "w"]
  ∧ (∃ h, copy_custom_behaviors accept_post_get (self w_last) rebuilt
          = (h, Ok tt)
          ∧ names_of (self h) "post_get" = ["w"; "old"; "z"]).
Proof.
  split_and!; try reflexivity.
  all: eexists; split; [vm_compute; reflexivity|reflexivity].
Qed.

(** The search, when it goes backward from a position of the list, ends
    within the bound [copy_custom_behaviors] runs it with. *)
Lemma find_anchor_in_bound names our_names i :
  i < length names →
  ∃ found,
    find_anchor (length names) names our_names (-1) (Z.of_nat i) = Ok found.
Proof. intros Hi. apply find_anchor_terminates; lia. Qed.

Lemma accept_well_behaved sigs_ chain_on : well_behaved (accept sigs_ chain_on).
Proof. intros o m f sp. by left. Qed.

Lemma accept_transparent sigs_ chain_on : transparent (accept sigs_ chain_on).
Proof. intros o m f sp. by eexists _, _. Qed.



(** ** Replays on the steps alone *)

Lemma put_before_names anchor e st st' :
  put_before anchor e st = Some st' → st'.*1 ≡ₚ e.1 :: st.*1.
Proof.
  revert st'. induction st as [|s st IH]; intros st'; cbn; [done|].
  destruct (decide (s.1 = anchor)); [by intros [= <-]|].
  destruct (put_before anchor e st) as [st1|]; [|done]. cbn. intros [= <-].
  cbn. rewrite (IH st1 eq_refl). apply Permutation_swap.
Qed.

Lemma put_after_names anchor e st st' :
  put_after anchor e st = Some st' → st'.*1 ≡ₚ e.1 :: st.*1.
Proof.
  revert st'. induction st as [|s st IH]; intros st'; cbn; [done|].
  destruct (decide (s.1 = anchor)); [intros [= <-]; apply Permutation_swap|].
  destruct (put_after anchor e st) as [st1|]; [|done]. cbn. intros [= <-].
  cbn. rewrite (IH st1 eq_refl). apply Permutation_swap.
Qed.

Lemma insert_step_names specifiers_ modif_id_ func_ st st' :
  insert_step specifiers_ modif_id_ func_ st = Some st' →
  (modif_id_ ∉ st.*1) ∧ st'.*1 ≡ₚ modif_id_ :: st.*1.
Proof.
  unfold insert_step. destruct (decide _); [done|].
  destruct specifiers_ as [|kind_ rest]; [done|].
  intros Hstep. split; [done|]. revert Hstep.
  repeat case_bool_decide; intros Hstep; try done.
  - by simplify_eq.
  - simplify_eq. rewrite fmap_app. cbn. by rewrite <- Permutation_cons_append.
  - destruct (rest !! 0); [|done]. by apply put_before_names in Hstep.
  - destruct (rest !! 0); [|done]. by apply put_after_names in Hstep.
Qed.

Lemma insert_step_is_insertion specifiers_ modif_id_ func_ st st' :
  insert_step specifiers_ modif_id_ func_ st = Some st' →
  is_insertion specifiers_ = true.
Proof.
  unfold insert_step. destruct (decide _); [done|].
  destruct specifiers_ as [|kind_ rest]; [done|]. cbn.
  intros Hstep. apply bool_decide_eq_true. revert Hstep.
  repeat case_bool_decide; intros Hstep; simplify_eq; set_solver.
Qed.

Lemma replay_app customs1 customs2 st :
  replay (customs1 ++ customs2) st = replay customs1 st ≫= replay customs2.
Proof.
  revert st. induction customs1 as [|[custom_ [func_ sp]] customs1 IH];
    intros st; cbn; [done|].
  destruct (insert_step sp custom_ func_ st); cbn; [apply IH|done].
Qed.

Lemma replay_snoc customs st0 st st' specifiers_ modif_id_ func_ :
  replay customs st0 = Some st →
  insert_step specifiers_ modif_id_ func_ st = Some st' →
  replay (customs ++ [(modif_id_, (func_, specifiers_))]) st0 = Some st'.
Proof.
  intros Hreplay Hstep. rewrite replay_app, Hreplay.
  change (insert_step specifiers_ modif_id_ func_ st ≫= (λ st', Some st')
          = Some st').
  by rewrite Hstep.
Qed.

Lemma replay_names customs st st' :
  replay customs st = Some st' → st'.*1 ≡ₚ customs.*1 ++ st.*1.
Proof.
  revert st. induction customs as [|[custom_ [func_ sp]] customs IH];
    intros st; cbn; [by intros [= <-]|].
  destruct (insert_step sp custom_ func_ st) as [st1|] eqn:H1; [|done]. cbn.
  intros Hrest. apply insert_step_names in H1 as [_ H1].
  rewrite (IH _ Hrest), H1. by rewrite Permutation_middle.
Qed.

(** The ids on record are distinct and none is an id of the start. *)
Lemma replay_keys customs st st' :
  replay customs st = Some st' →
  NoDup customs.*1 ∧ ∀ k, k ∈ customs.*1 → k ∉ st.*1.
Proof.
  revert st. induction customs as [|[custom_ [func_ sp]] customs IH];
    intros st; cbn.
  { intros _. split; [constructor|]. by intros k ?%elem_of_nil. }
  destruct (insert_step sp custom_ func_ st) as [st1|] eqn:H1; [|done]. cbn.
  intros Hrest. apply insert_step_names in H1 as [Hnew H1].
  destruct (IH _ Hrest) as [Hnd Hfresh].
  assert (∀ k, k ∈ customs.*1 → k ≠ custom_ ∧ k ∉ st.*1) as Hk.
  { intros k Hin. specialize (Hfresh k Hin). rewrite H1 in Hfresh.
    by apply not_elem_of_cons in Hfresh. }
  split.
  - constructor; [|done]. intros Hin. by destruct (Hk _ Hin).
  - intros k [->|Hin]%elem_of_cons; [done|]. by destruct (Hk _ Hin).
Qed.

Lemma replay_NoDup customs st st' :
  NoDup st.*1 → replay customs st = Some st' → NoDup st'.*1.
Proof.
  intros Hnd Hr. rewrite (replay_names _ _ _ Hr).
  destruct (replay_keys _ _ _ Hr) as [Hk Hfresh].
  apply NoDup_app. split_and!; done.
Qed.

(** *** Another function under an id *)

Lemma retarget_names x func_ st : (retarget x func_ st).*1 = st.*1.
Proof.
  unfold retarget. rewrite <- list_fmap_compose. apply list_fmap_ext.
  intros i s _. cbn. by destruct (decide (s.1 = x)).
Qed.

Lemma retarget_id x func_ st : x ∉ st.*1 → retarget x func_ st = st.
Proof.
  induction st as [|s st IH]; [done|]. cbn.
  intros [Hs Hst]%not_elem_of_cons.
  rewrite decide_False by done. f_equal. by apply IH.
Qed.

Lemma put_before_retarget x func_ anchor e st st' :
  put_before anchor e st = Some st' →
  put_before anchor (if decide (e.1 = x) then (x, func_) else e)
    (retarget x func_ st) = Some (retarget x func_ st').
Proof.
  unfold retarget.
  revert st'. induction st as [|s st IH]; intros st'; cbn; [done|].
  assert ((if decide (s.1 = x) then (x, func_) else s).1 = s.1) as ->.
  { by destruct (decide (s.1 = x)). }
  destruct (decide (s.1 = anchor)); [by intros [= <-]|].
  destruct (put_before anchor e st) as [st1|]; [|done]. cbn. intros [= <-].
  by rewrite (IH st1 eq_refl).
Qed.

Lemma put_after_retarget x func_ anchor e st st' :
  put_after anchor e st = Some st' →
  put_after anchor (if decide (e.1 = x) then (x, func_) else e)
    (retarget x func_ st) = Some (retarget x func_ st').
Proof.
  unfold retarget.
  revert st'. induction st as [|s st IH]; intros st'; cbn; [done|].
  assert ((if decide (s.1 = x) then (x, func_) else s).1 = s.1) as ->.
  { by destruct (decide (s.1 = x)). }
  destruct (decide (s.1 = anchor)); [by intros [= <-]|].
  destruct (put_after anchor e st) as [st1|]; [|done]. cbn. intros [= <-].
  by rewrite (IH st1 eq_refl).
Qed.

(** An insertion goes through just as well on the retargeted steps, with the
    new function if it inserts the id. *)
Lemma insert_step_retarget x func' specifiers_ modif_id_ func_ st st' :
  insert_step specifiers_ modif_id_ func_ st = Some st' →
  insert_step specifiers_ modif_id_
    (if decide (modif_id_ = x) then func' else func_) (retarget x func' st)
  = Some (retarget x func' st').
Proof.
  unfold insert_step. rewrite retarget_names.
  destruct (decide (modif_id_ ∈ st.*1)); [done|].
  destruct specifiers_ as [|kind_ rest]; [done|].
  assert ((if decide (modif_id_ = x) then (x, func') else (modif_id_, func_))
          = (modif_id_, if decide (modif_id_ = x) then func' else func_)) as He.
  { by destruct (decide (modif_id_ = x)) as [->|]. }
  repeat case_bool_decide; intros Hstep; try done.
  - simplify_eq. cbn. by rewrite He.
  - simplify_eq. unfold retarget. rewrite fmap_app. cbn. by rewrite He.
  - destruct (rest !! 0) as [anchor|]; [|done]. cbn in *.
    rewrite <- He.
    by apply (put_before_retarget x func' anchor (modif_id_, func_)).
  - destruct (rest !! 0) as [anchor|]; [|done]. cbn in *.
    rewrite <- He.
    by apply (put_after_retarget x func' anchor (modif_id_, func_)).
Qed.

Lemma replay_retarget x func' customs st st' :
  replay customs st = Some st' → x ∉ customs.*1 →
  replay customs (retarget x func' st) = Some (retarget x func' st').
Proof.
  revert st. induction customs as [|[custom_ [func_ sp]] customs IH];
    intros st; cbn; [by intros [= <-]|].
  destruct (insert_step sp custom_ func_ st) as [st1|] eqn:H1; [|done]. cbn.
  intros Hrest [Hne Hnotin]%not_elem_of_cons.
  apply (insert_step_retarget x func') in H1.
  rewrite decide_False in H1 by done. rewrite H1. cbn. by apply IH.
Qed.

(** Replaying a record in which the entry of [x] got another function gives
    the steps with that function under [x]. *)
Lemma replay_od_set x func' customs st st' old :
  replay customs st = Some st' → od_get x customs = Some old →
  replay (od_set x (func', old.2) customs) st = Some (retarget x func' st').
Proof.
  revert st. induction customs as [|[custom_ [func_ sp]] customs IH];
    intros st; [done|].
  unfold od_get, od_set. fold (@od_get Modifier) (@od_set Modifier). cbn.
  destruct (insert_step sp custom_ func_ st) as [st1|] eqn:H1; [|done]. cbn.
  intros Hrest. destruct (decide (custom_ = x)) as [->|Hne].
  - intros [= <-]. cbn.
    pose proof H1 as [Hnew Hperm]%insert_step_names.
    apply (insert_step_retarget x func') in H1.
    rewrite decide_True, retarget_id in H1 by done. rewrite H1. cbn.
    apply replay_retarget; [done|].
    intros Hin. destruct (replay_keys _ _ _ Hrest) as [_ Hfresh].
    apply (Hfresh _ Hin). rewrite Hperm. by left.
  - intros Hold. cbn. rewrite H1. cbn. by apply IH.
Qed.

(** *** Without a step *)

Lemma strip_names x st k : k ∈ (strip x st).*1 ↔ k ∈ st.*1 ∧ k ≠ x.
Proof.
  unfold strip. rewrite !list_elem_of_fmap. split.
  - intros (s & -> & [Hs Hin]%list_elem_of_filter). split; [by exists s|done].
  - intros [(s & -> & Hin) Hne]. exists s. split; [done|].
    by apply list_elem_of_filter.
Qed.

Lemma strip_id x st : x ∉ st.*1 → strip x st = st.
Proof.
  unfold strip. induction st as [|s st IH]; [done|]. rewrite fmap_cons.
  intros [Hs Hst]%not_elem_of_cons.
  rewrite filter_cons_True by done. f_equal. by apply IH.
Qed.

Lemma put_before_strip x anchor e st st' :
  put_before anchor e st = Some st' → anchor ≠ x → e.1 ≠ x →
  put_before anchor e (strip x st) = Some (strip x st').
Proof.
  intros H Ha He. revert st' H. unfold strip.
  induction st as [|s st IH]; intros st' Hput; [done|]. cbn in Hput.
  destruct (decide (s.1 = anchor)) as [Hs|Hs].
  - simplify_eq. rewrite !filter_cons_True by congruence. cbn [put_before].
    by rewrite decide_True.
  - destruct (put_before anchor e st) as [st1|]; [|done]. cbn in Hput.
    simplify_eq. destruct (decide (s.1 = x)).
    + rewrite !filter_cons_False by naive_solver. by apply IH.
    + rewrite !filter_cons_True by done. cbn [put_before].
      rewrite decide_False by done. by rewrite (IH st1 eq_refl).
Qed.

Lemma put_after_strip x anchor e st st' :
  put_after anchor e st = Some st' → anchor ≠ x → e.1 ≠ x →
  put_after anchor e (strip x st) = Some (strip x st').
Proof.
  intros H Ha He. revert st' H. unfold strip.
  induction st as [|s st IH]; intros st' Hput; [done|]. cbn in Hput.
  destruct (decide (s.1 = anchor)) as [Hs|Hs].
  - simplify_eq. rewrite !filter_cons_True by congruence. cbn [put_after].
    by rewrite decide_True.
  - destruct (put_after anchor e st) as [st1|]; [|done]. cbn in Hput.
    simplify_eq. destruct (decide (s.1 = x)).
    + rewrite !filter_cons_False by naive_solver. by apply IH.
    + rewrite !filter_cons_True by done. cbn [put_after].
      rewrite decide_False by done. by rewrite (IH st1 eq_refl).
Qed.

(** An insertion of another id, not anchored on [x], goes through just as
    well without the step [x]. *)
Lemma insert_step_strip x specifiers_ modif_id_ func_ st st' :
  insert_step specifiers_ modif_id_ func_ st = Some st' →
  modif_id_ ≠ x → specifiers_ !! 1 ≠ Some x →
  insert_step specifiers_ modif_id_ func_ (strip x st) = Some (strip x st').
Proof.
  unfold insert_step. intros Hstep Hne Hanchor.
  destruct (decide (modif_id_ ∈ st.*1)); [done|].
  rewrite decide_False by (rewrite strip_names; tauto).
  destruct specifiers_ as [|kind_ rest]; [done|]. revert Hstep.
  repeat case_bool_decide; intros Hstep; try done.
  - simplify_eq. unfold strip. by rewrite filter_cons_True.
  - simplify_eq. unfold strip. rewrite filter_app. do 2 f_equal.
    by rewrite filter_cons_True.
  - cbn in Hanchor. destruct (rest !! 0) as [anchor|]; [|done]. cbn in *.
    apply put_before_strip; [done|congruence|done].
  - cbn in Hanchor. destruct (rest !! 0) as [anchor|]; [|done]. cbn in *.
    apply put_after_strip; [done|congruence|done].
Qed.

(** Taking out the step an insertion has just put in. *)
Lemma insert_step_then_strip specifiers_ x func_ st st' :
  insert_step specifiers_ x func_ st = Some st' → strip x st' = st.
Proof.
  unfold insert_step. destruct (decide (x ∈ st.*1)) as [|Hnew]; [done|].
  assert (∀ anchor st1, put_before anchor (x, func_) st = Some st1 →
            strip x st1 = st) as Hbefore.
  { clear -Hnew. intros anchor. unfold strip.
    induction st as [|s st IH]; intros st1 Hput; [done|]. cbn in Hput.
    rewrite fmap_cons in Hnew. apply not_elem_of_cons in Hnew as [Hs Hst].
    destruct (decide (s.1 = anchor)).
    - simplify_eq. rewrite filter_cons_False by naive_solver.
      rewrite filter_cons_True by done. f_equal. by apply (strip_id x).
    - destruct (put_before anchor _ st) as [st2|]; [|done]. cbn in Hput.
      simplify_eq. rewrite filter_cons_True by done. f_equal. by apply IH. }
  assert (∀ anchor st1, put_after anchor (x, func_) st = Some st1 →
            strip x st1 = st) as Hafter.
  { clear -Hnew. intros anchor. unfold strip.
    induction st as [|s st IH]; intros st1 Hput; [done|]. cbn in Hput.
    rewrite fmap_cons in Hnew. apply not_elem_of_cons in Hnew as [Hs Hst].
    destruct (decide (s.1 = anchor)).
    - simplify_eq. rewrite filter_cons_True by done.
      rewrite filter_cons_False by naive_solver. f_equal. by apply (strip_id x).
    - destruct (put_after anchor _ st) as [st2|]; [|done]. cbn in Hput.
      simplify_eq. rewrite filter_cons_True by done. f_equal. by apply IH. }
  destruct specifiers_ as [|kind_ rest]; [done|].
  repeat case_bool_decide; intros Hstep; try done.
  - simplify_eq. unfold strip. rewrite filter_cons_False by naive_solver.
    by apply (strip_id x).
  - simplify_eq. unfold strip. rewrite filter_app.
    rewrite filter_cons_False by naive_solver. rewrite filter_nil, app_nil_r.
    by apply (strip_id x).
  - destruct (rest !! 0) as [anchor|]; [|done]. by eapply Hbefore.
  - destruct (rest !! 0) as [anchor|]; [|done]. by eapply Hafter.
Qed.

Lemma replay_strip x customs st st' :
  replay customs st = Some st' → x ∉ customs.*1 →
  Forall (λ item, item.2.2 !! 1 ≠ Some x) customs →
  replay customs (strip x st) = Some (strip x st').
Proof.
  revert st. induction customs as [|[custom_ [func_ sp]] customs IH];
    intros st; cbn; [by intros [= <-]|].
  destruct (insert_step sp custom_ func_ st) as [st1|] eqn:H1; [|done]. cbn.
  intros Hrest [Hne Hnotin]%not_elem_of_cons [Hfree Hall]%Forall_cons.
  rewrite (insert_step_strip x _ _ _ _ _ H1) by done. cbn. by apply IH.
Qed.

(** Replaying a record from which the entry of [x] was deleted gives the
    steps without [x], when no entry is anchored on [x]. *)
Lemma replay_od_del x customs customs' st st' :
  replay customs st = Some st' → od_del x customs = Ok customs' →
  Forall (λ item, item.2.2 !! 1 ≠ Some x) customs →
  replay customs' st = Some (strip x st').
Proof.
  revert st customs'.
  induction customs as [|[custom_ [func_ sp]] customs IH]; intros st customs';
    [done|].
  unfold od_del. fold (@od_del Modifier). cbn.
  destruct (insert_step sp custom_ func_ st) as [st1|] eqn:H1; [|done]. cbn.
  intros Hrest Hdel [Hfree Hall]%Forall_cons.
  destruct (decide (custom_ = x)) as [->|Hne].
  - simplify_eq. rewrite <- (insert_step_then_strip _ _ _ _ _ H1).
    apply replay_strip; [done| |done].
    pose proof H1 as [Hnew Hperm]%insert_step_names.
    intros Hin. destruct (replay_keys _ _ _ Hrest) as [_ Hfresh].
    apply (Hfresh _ Hin). rewrite Hperm. by left.
  - munfold. destruct (od_del x customs) as [customs1|] eqn:Hd; [|done].
    simplify_eq. cbn.
    rewrite H1. cbn. by apply IH.
Qed.

(** ** From the composer to the steps *)

Lemma put_before_zip anchor e (ns : list string) (ms : list PyFunc) i :
  length ns = length ms → index anchor ns = Ok i →
  put_before anchor e (zip ns ms) = Some (list_insert_at i e (zip ns ms)).
Proof.
  intros Hlen [Hi Hmin]%index_Ok. revert ns ms Hlen Hi Hmin.
  induction i as [|i IH]; intros [|n ns] [|m ms] Hlen Hi Hmin; simplify_eq/=.
  - by rewrite decide_True.
  - rewrite decide_False.
    2:{ intros ->. by apply (Hmin 0); [lia|]. }
    rewrite (IH ns ms); [done|lia|done|].
    intros j Hj. apply (Hmin (S j)). lia.
Qed.

Lemma put_after_zip anchor e (ns : list string) (ms : list PyFunc) i :
  length ns = length ms → index anchor ns = Ok i →
  put_after anchor e (zip ns ms) = Some (list_insert_at (i + 1) e (zip ns ms)).
Proof.
  intros Hlen [Hi Hmin]%index_Ok. revert ns ms Hlen Hi Hmin.
  induction i as [|i IH]; intros [|n ns] [|m ms] Hlen Hi Hmin; simplify_eq/=.
  - by rewrite decide_True.
  - rewrite decide_False.
    2:{ intros ->. by apply (Hmin 0); [lia|]. }
    rewrite (IH ns ms); [done|lia|done|].
    intros j Hj. apply (Hmin (S j)). lia.
Qed.

Lemma put_before_None anchor e (st : list (string * PyFunc)) :
  anchor ∉ st.*1 → put_before anchor e st = None.
Proof.
  induction st as [|s st IH]; [done|]. rewrite fmap_cons.
  intros [Hs Hst]%not_elem_of_cons. cbn.
  rewrite decide_False by done. by rewrite IH.
Qed.

Lemma put_after_None anchor e (st : list (string * PyFunc)) :
  anchor ∉ st.*1 → put_after anchor e st = None.
Proof.
  induction st as [|s st IH]; [done|]. rewrite fmap_cons.
  intros [Hs Hst]%not_elem_of_cons. cbn.
  rewrite decide_False by done. by rewrite IH.
Qed.

Lemma steps_names c :
  length (_names c) = length (_methods c) → (steps c).*1 = _names c.
Proof. intros Hlen. unfold steps. apply fst_zip. lia. Qed.

Lemma steps_methods c :
  length (_names c) = length (_methods c) → (steps c).*2 = _methods c.
Proof. intros Hlen. unfold steps. apply snd_zip. lia. Qed.

(** An insertion goes through on a composer exactly when it does on its
    steps, and gives the composer of the steps it gives. *)
Lemma update_composer_insert_step specifiers_ modif_id_ func_ c :
  length (_names c) = length (_methods c) →
  is_insertion specifiers_ = true →
  match insert_step specifiers_ modif_id_ func_ (steps c) with
  | Some st' =>
      ∃ c', update_composer specifiers_ modif_id_ func_ c = (c', Ok tt)
            ∧ steps c' = st'
  | None => ∃ c' e, update_composer specifiers_ modif_id_ func_ c = (c', Raise e)
  end.
Proof.
  intros Hlen (kind_ & rest & -> & Hkind)%is_insertion_kind.
  unfold insert_step. rewrite steps_names by done.
  destruct Hkind as [->|[->|[->| ->]]]; composer_unfold; decide_kinds.
  - destruct (decide _); [by eexists _, _|]. eexists. split; [done|].
    unfold steps. cbn. by rewrite zip_list_insert_at.
  - destruct (decide _); [by eexists _, _|]. eexists. split; [done|].
    unfold steps. cbn. by rewrite zip_with_app.
  - destruct (rest !! 0) as [anchor|]; cbn.
    2:{ destruct (decide _); by eexists _, _. }
    destruct (decide _); [by eexists _, _|].
    destruct (index anchor (_names c)) as [i|e] eqn:Hi.
    + unfold steps at 1. rewrite (put_before_zip _ _ _ _ i) by done.
      eexists. split; [done|]. unfold steps. cbn. by rewrite zip_list_insert_at.
    + apply index_Raise in Hi as [Hi _].
      rewrite put_before_None by (by rewrite steps_names). by eexists _, _.
  - destruct (rest !! 0) as [anchor|]; cbn.
    2:{ destruct (decide _); by eexists _, _. }
    destruct (decide _); [by eexists _, _|].
    destruct (index anchor (_names c)) as [i|e] eqn:Hi.
    + unfold steps at 1. rewrite (put_after_zip _ _ _ _ i) by done.
      eexists. split; [done|]. unfold steps. cbn. by rewrite zip_list_insert_at.
    + apply index_Raise in Hi as [Hi _].
      rewrite put_after_None by (by rewrite steps_names). by eexists _, _.
Qed.

Lemma insert_retarget x func_ g (st : list (string * PyFunc)) i :
  NoDup st.*1 → st !! i = Some (x, g) →
  <[i := (x, func_)]> st = retarget x func_ st.
Proof.
  unfold retarget. revert i. induction st as [|s st IH]; intros i Hnd Hi; [done|].
  rewrite fmap_cons in Hnd. apply NoDup_cons in Hnd as [Hs Hnd].
  destruct i as [|i]; simplify_eq/=.
  - rewrite decide_True by done. f_equal.
    symmetry. by apply (retarget_id x).
  - rewrite decide_False.
    2:{ intros Heq. apply Hs. rewrite Heq.
        apply list_elem_of_fmap. exists (x, g). split; [done|].
        by eapply list_elem_of_lookup_2. }
    f_equal. by apply IH.
Qed.

Lemma delete_strip x g (st : list (string * PyFunc)) i :
  NoDup st.*1 → st !! i = Some (x, g) → delete i st = strip x st.
Proof.
  unfold strip. revert i. induction st as [|s st IH]; intros i Hnd Hi; [done|].
  rewrite fmap_cons in Hnd. apply NoDup_cons in Hnd as [Hs Hnd].
  destruct i as [|i]; simplify_eq/=.
  - rewrite filter_cons_False by naive_solver.
    symmetry. by apply (strip_id x).
  - rewrite filter_cons_True.
    2:{ intros Heq. apply Hs. rewrite Heq.
        apply list_elem_of_fmap. exists (x, g). split; [done|].
        by eapply list_elem_of_lookup_2. }
    f_equal. by apply IH.
Qed.

Lemma steps_lookup c i x :
  length (_names c) = length (_methods c) → _names c !! i = Some x →
  ∃ g, steps c !! i = Some (x, g).
Proof.
  intros Hlen Hi.
  destruct (lookup_lt_is_Some_2 (_methods c) i) as [g Hg].
  { rewrite <- Hlen. by eapply lookup_lt_Some. }
  exists g. unfold steps. by rewrite lookup_zip_with, Hi, Hg.
Qed.

(** The replacement and the removal of a step of a composer, on its steps. *)
Lemma update_composer_replace x rest modif_id_ func_ c c' :
  composer_inv c →
  update_composer ("replace" :: x :: rest) modif_id_ func_ c = (c', Ok tt) →
  steps c' = retarget x func_ (steps c).
Proof.
  intros [Hlen Hnd _]. unfold update_composer. munfold. intros Hupd.
  apply steps_replace in Hupd as (i & Hi & ->).
  apply index_lookup in Hi.
  destruct (steps_lookup c i x Hlen Hi) as [g Hg].
  apply (insert_retarget _ _ g); [|done]. by rewrite steps_names.
Qed.

Lemma update_composer_remove x rest modif_id_ func_ c c' :
  composer_inv c →
  update_composer ("remove" :: x :: rest) modif_id_ func_ c = (c', Ok tt) →
  steps c' = strip x (steps c).
Proof.
  intros [Hlen Hnd _]. unfold update_composer. munfold. intros Hupd.
  apply steps_remove in Hupd as (i & Hi & ->).
  apply index_lookup in Hi.
  destruct (steps_lookup c i x Hlen Hi) as [g Hg].
  apply (delete_strip _ g); [|done]. by rewrite steps_names.
Qed.

Lemma update_composer_inv specifiers_ modif_id_ func_ c :
  composer_inv c →
  composer_inv (update_composer specifiers_ modif_id_ func_ c).1.
Proof.
  intros Hinv. unfold update_composer, getitem. munfold.
  destruct (specifiers_ !! 0) as [kind_|]; [|done]. cbn.
  repeat case_bool_decide.
  all: try (destruct (specifiers_ !! 1) as [anchor|]; [|done]; cbn).
  - by apply composer_inv_add_before.
  - by apply composer_inv_add_after.
  - by apply composer_inv_replace.
  - by apply composer_inv_remove.
  - by apply composer_inv_prepend.
  - by apply composer_inv_append.
  - done.
Qed.

(** ** From the object to the steps *)

Lemma steps_of_pipeline method_name o :
  steps_of method_name o = (λ p, zip p.1 p.2) <$> pipeline method_name o.
Proof.
  unfold steps_of, pipeline.
  by destruct (methods o !! method_name) as [[f|c]|].
Qed.

Lemma pipeline_of_steps method_name o1 o2 :
  well_composed method_name o1 → well_composed method_name o2 →
  steps_of method_name o1 = steps_of method_name o2 →
  pipeline method_name o1 = pipeline method_name o2.
Proof.
  intros Hw1 Hw2. rewrite !steps_of_pipeline.
  destruct (pipeline method_name o1) as [[ns1 ms1]|] eqn:H1,
           (pipeline method_name o2) as [[ns2 ms2]|] eqn:H2; cbn; try done.
  destruct (Hw1 _ _ H1) as [Hl1 _], (Hw2 _ _ H2) as [Hl2 _].
  intros [= Hzip]. do 2 f_equal.
  - rewrite <- (fst_zip ns1 ms1), <- (fst_zip ns2 ms2) by lia. by rewrite Hzip.
  - rewrite <- (snd_zip ns1 ms1), <- (snd_zip ns2 ms2) by lia. by rewrite Hzip.
Qed.

Section Recorded.

Variable analyse_function :
  SupportMethodCustomization → string → PyFunc → list string → result Analysis.

Hypothesis analyse_function_transparent : transparent analyse_function.

(** A modification with specifiers that is not internal: it updates a
    composer that has the ids and the methods of the method, then the
    record. *)
Lemma modify_behavior_recorded method_name func_ specifiers_ modif_id_ h h' r :
  specifiers_ ≠ [] →
  modify_behavior analyse_function method_name func_ specifiers_ modif_id_
    false h = (h', r) →
  match pipeline method_name (self h) with
  | None => r = Raise AttributeError
  | Some (ns, ms) =>
      ∃ c c' ro, _names c = ns ∧ _methods c = ms
        ∧ update_composer specifiers_ modif_id_ func_ c = (c', ro)
        ∧ match ro with
          | Raise e => r = Raise e
          | Ok _ =>
              pipeline method_name (self h') = Some (_names c', _methods c')
              ∧ match update_customs c' func_ specifiers_ modif_id_
                        (customs_of method_name (self h)) with
                | Ok customs' =>
                    r = Ok tt
                    ∧ _customs (self h')
                      = od_set method_name (Mapping customs')
                          (record_intent method_name func_ specifiers_
                             (_customs (self h)))
                | Raise e => r = Raise e
                end
          end
  end.
Proof.
  intros Hsp. rewrite modify_behavior_run. cbn zeta.
  destruct specifiers_ as [|kind_ rest]; [done|].
  assert (∃ sg ch,
    (if bool_decide (kind_ :: rest = [])
        || negb (bool_decide ((kind_ :: rest) !! 0 = Some "remove"))
     then analyse_function
            (self (intent_recorded method_name func_ (kind_ :: rest) false h))
            method_name func_ (kind_ :: rest)
     else Ok (kind_ :: rest, None, None))
    = Ok (kind_ :: rest, sg, ch)) as (sg & ch & ->).
  { destruct (_ || _); [apply analyse_function_transparent|by eexists _, _]. }
  rewrite compose_method_run. unfold intent_recorded. cbn.
  destruct (methods (self h) !! method_name) as [current|] eqn:Hcur.
  2:{ unfold pipeline. rewrite Hcur. by intros [= _ <-]. }
  destruct (composer_for _ _ _ _ _) as [meta' c] eqn:Hc.
  assert (pipeline method_name (self h) = Some (_names c, _methods c)) as ->.
  { eapply (composer_for_pipeline _ _ sg ch); [done|].
    rewrite <- Hc. by destruct current. }
  destruct (update_composer _ _ _ c) as [c' [[]|e]] eqn:Hupd.
  - rewrite od_get_record_intent.
    destruct (update_customs _ _ _ _ _) as [customs'|e] eqn:Hcustoms.
    + intros [= <- <-]. exists c, c', (Ok tt).
      split_and!; [done..| |by rewrite Hcustoms].
      unfold pipeline. cbn. by rewrite lookup_insert_eq.
    + intros [= <- <-]. exists c, c', (Ok tt).
      split_and!; [done..| |by rewrite Hcustoms].
      unfold pipeline. cbn. by rewrite lookup_insert_eq.
  - intros [= <- <-]. by exists c, c', (Raise e).
Qed.

(** The invariant of the replay is kept by every reproducible directive
    that goes through. *)
Lemma tracks_modify_behavior method_name st0 d h h' :
  tracks method_name st0 h →
  reproducible (customs_of method_name (self h)) d →
  modify_behavior analyse_function method_name (d_func d) (d_specifiers d)
    (d_modif_id d) (d_internal d) h = (h', Ok tt) →
  tracks method_name st0 h'.
Proof.
  intros (customs & st & Hst & Hwell & Hreplay & Hshape) [Hint Hkind] Hrun.
  rewrite Hint in Hrun.
  assert (customs_of method_name (self h) = customs) as HL.
  { unfold customs_of. destruct Hshape as [[-> ->]| ->]; [done|].
    by rewrite od_single_get. }
  rewrite HL in Hkind.
  assert (d_specifiers d ≠ []) as Hsp.
  { destruct Hkind as [Hins|[(x & rest & -> & _)|(x & rest & -> & _)]];
      [|done..]. by destruct (d_specifiers d). }
  apply modify_behavior_recorded in Hrun; [|done].
  rewrite steps_of_pipeline in Hst.
  destruct (pipeline method_name (self h)) as [[ns ms]|] eqn:Hp; [|done].
  destruct Hrun as (c & c' & ro & <- & <- & Hupd & Hrun).
  destruct ro as [[]|e]; [|done]. destruct Hrun as [Hp' Hrun].
  rewrite HL in Hrun.
  destruct (update_customs _ _ _ _ customs) as [customs'|e] eqn:Hcustoms; [|done].
  destruct Hrun as [_ Hrecord].
  destruct (Hwell _ _ Hp) as [Hlen Hnd].
  assert (composer_inv c) as Hinv by by apply composer_inv_intro.
  assert (composer_inv c') as Hinv'.
  { pose proof (update_composer_inv (d_specifiers d) (d_modif_id d) (d_func d)
                  c Hinv). by rewrite Hupd in *. }
  cbn in Hst. injection Hst as <-. fold (steps c) in *.
  assert (_customs (self h') = [(method_name, Mapping customs')]) as Hshape'.
  { rewrite Hrecord. unfold record_intent.
    destruct (d_specifiers d) as [|kind_ rest]; [done|].
    destruct Hshape as [[-> ->]| ->].
    - cbn. apply od_single_set.
    - rewrite od_single_get. apply od_single_set. }
  exists customs', (steps c'). split_and!; [| | |by right].
  { rewrite steps_of_pipeline, Hp'. done. }
  { intros ns' ms'. rewrite Hp'. intros [= <- <-]. by destruct Hinv'. }
  destruct Hkind as [Hins|[(x & rest & Hspec & Hx)|(x & rest & Hspec & Hid & Hx & Hfree)]].
  - (* an insertion *)
    rewrite update_customs_insertion in Hcustoms by done. injection Hcustoms as <-.
    pose proof (update_composer_insert_step (d_specifiers d) (d_modif_id d)
                  (d_func d) c Hlen Hins) as Hstep.
    destruct (insert_step _ _ _ (steps c)) as [st'|] eqn:Hst'.
    2:{ destruct Hstep as (? & ? & ?). congruence. }
    destruct Hstep as (c'' & Hupd' & <-). simplify_eq.
    pose proof Hst' as [Hnew _]%insert_step_names.
    rewrite od_set_fresh.
    2:{ apply od_get_None. intros Hin. apply Hnew.
        rewrite (replay_names _ _ _ Hreplay). apply elem_of_app. by left. }
    assert (c'' = c') as -> by congruence.
    by eapply replay_snoc.
  - (* the replacement of a step on record *)
    rewrite Hspec in *.
    destruct (od_get x customs) as [old|] eqn:Hold.
    2:{ by apply od_get_None in Hold. }
    rewrite (update_customs_replace _ _ _ _ _ _ _ Hold) in Hcustoms.
    injection Hcustoms as <-.
    rewrite (update_composer_replace _ _ _ _ _ _ Hinv Hupd).
    by apply replay_od_set.
  - (* the removal of a step on record *)
    rewrite Hspec, Hid in *. rewrite update_customs_remove in Hcustoms.
    rewrite (update_composer_remove _ _ _ _ _ _ Hinv Hupd).
    by eapply replay_od_del.
Qed.

Lemma tracks_apply_directives method_name st0 ds h h' :
  tracks method_name st0 h →
  reproducible_run analyse_function method_name ds h →
  apply_directives analyse_function method_name ds h = (h', Ok tt) →
  tracks method_name st0 h'.
Proof.
  revert h. induction ds as [|d ds IH]; intros h Htracks Hds.
  { by intros [= <-]. }
  cbn in Hds. destruct Hds as [Hd Hds]. cbn. munfold.
  destruct (modify_behavior _ _ _ _ _ _ h) as [h1 [[]|e]] eqn:Hrun; [|done].
  cbn in Hds. apply IH; [|done]. by eapply tracks_modify_behavior.
Qed.

End Recorded.

Section RoundTripReplay.

Variable analyse_function :
  SupportMethodCustomization → string → PyFunc → list string → result Analysis.

Hypothesis analyse_function_transparent : transparent analyse_function.

(** A recorded modification that goes through on the steps of the target
    is reproduced on the target. *)
Lemma copy_modifier_replay obj method_name modif_id_ func_ specifiers_ h st st' :
  steps_of method_name (self h) = Some st →
  well_composed method_name (self h) →
  insert_step specifiers_ modif_id_ func_ st = Some st' →
  ∃ h',
    copy_modifier analyse_function obj method_name modif_id_
      (func_, specifiers_) h = (h', Ok tt)
    ∧ steps_of method_name (self h') = Some st'
    ∧ well_composed method_name (self h').
Proof.
  intros Hst Hwell Hstep.
  pose proof (insert_step_is_insertion _ _ _ _ _ Hstep) as Hins.
  destruct (modify_behavior analyse_function method_name func_ specifiers_
              modif_id_ false h) as [h1 r] eqn:Hrun.
  pose proof Hrun as Hrec.
  apply (modify_behavior_recorded _ analyse_function_transparent) in Hrec.
  2:{ by destruct specifiers_. }
  rewrite steps_of_pipeline in Hst.
  destruct (pipeline method_name (self h)) as [[ns ms]|] eqn:Hp; [|done].
  destruct Hrec as (c & c' & ro & <- & <- & Hupd & Hrec).
  destruct (Hwell _ _ Hp) as [Hlen Hnd].
  cbn in Hst. injection Hst as <-. fold (steps c) in *.
  pose proof (update_composer_insert_step specifiers_ modif_id_ func_ c Hlen Hins)
    as Hlink.
  rewrite Hstep in Hlink. destruct Hlink as (c'' & Hupd' & <-).
  assert (c'' = c' ∧ ro = Ok tt) as [-> ->] by (split; congruence).
  destruct Hrec as [Hp1 Hrec].
  rewrite update_customs_insertion in Hrec by done. destruct Hrec as [-> _].
  destruct (copy_modifier_follows analyse_function analyse_function_transparent
              obj method_name func_ specifiers_ modif_id_ h h1 h Hins eq_refl Hrun)
    as (h' & Hcopy & Hp').
  exists h'. split; [done|].
  assert (composer_inv c') as [Hlen' Hnd' _].
  { pose proof (update_composer_inv specifiers_ modif_id_ func_ c
                  (composer_inv_intro c Hlen Hnd)).
    by rewrite Hupd in *. }
  split.
  - by rewrite steps_of_pipeline, Hp', Hp1.
  - intros ns' ms'. rewrite Hp', Hp1. by intros [= <- <-].
Qed.

Lemma copy_modifiers_replay obj method_name customs h st st' :
  steps_of method_name (self h) = Some st →
  well_composed method_name (self h) →
  replay customs st = Some st' →
  ∃ h',
    copy_modifiers analyse_function obj method_name customs h = (h', Ok tt)
    ∧ steps_of method_name (self h') = Some st'
    ∧ well_composed method_name (self h').
Proof.
  revert h st. induction customs as [|[custom_ [func_ sp]] customs IH];
    intros h st Hst Hwell; cbn.
  { intros [= <-]. by exists h. }
  destruct (insert_step sp custom_ func_ st) as [st1|] eqn:Hstep; [|done]. cbn.
  intros Hrest.
  destruct (copy_modifier_replay obj _ _ _ _ _ _ _ Hst Hwell Hstep)
    as (h1 & Hcopy & Hst1 & Hwell1).
  destruct (IH h1 st1 Hst1 Hwell1 Hrest) as (h' & Hcopies & Hst' & Hwell').
  exists h'. split; [|done]. munfold. by rewrite Hcopy.
Qed.


End RoundTripReplay.


(** ** The record after a removal or a replacement, replayed *)

Section RecordReplay.

Variable analyse_function :
  SupportMethodCustomization → string → PyFunc → list string → result Analysis.

Hypothesis analyse_function_transparent : transparent analyse_function.

(** A record that replays, on the steps alone, to the steps of the method
    is replayed by [copy_custom_behaviors] to these steps, on a target that
    has the steps the replay starts from. *)
Lemma tracks_replay method_name st0 h hB :
  tracks method_name st0 h →
  steps_of method_name (self hB) = Some st0 →
  well_composed method_name (self hB) →
  ∃ hB',
    copy_custom_behaviors analyse_function (self h) hB = (hB', Ok tt)
    ∧ pipeline method_name (self hB') = pipeline method_name (self h).
Proof.
  intros (customs & st & Hst & Hwell & Hreplay & Hshape) HstB HwellB.
  destruct (copy_modifiers_replay analyse_function analyse_function_transparent
              (self h) method_name customs hB st0 st HstB HwellB Hreplay)
    as (hB' & Hcopy & HstB' & HwellB').
  unfold copy_custom_behaviors.
  destruct Hshape as [[-> ->]| ->].
  - cbn in Hcopy, Hreplay. munfold. simplify_eq. exists hB'. split; [done|].
    apply pipeline_of_steps; [done..|]. by rewrite HstB, Hst.
  - exists hB'. split.
    + cbn. munfold. by rewrite Hcopy.
    + apply pipeline_of_steps; [done..|]. by rewrite HstB', Hst.
Qed.

End RecordReplay.

Lemma built_with_y_a_tracks :
  tracks "post_get" [("old", Some f_old); ("y", Some (step 1))] built_with_y_a.
Proof.
  exists [("a", (Some (step 2), ["append"]))],
         [("old", Some f_old); ("y", Some (step 1)); ("a", Some (step 2))].
  split_and!; [reflexivity| |reflexivity|by right].
  intros ns ms [= <- <-]. split; [done|].
  apply (bool_decide_unpack _). vm_compute. exact I.
Qed.

(** C9, on the code.  When [modify_behavior] has applied a removal that is
    not internal, the entry that has left the record of the method is the
    entry of the id the call was made under, not the entry of the step that
    was removed; when it has applied the replacement of a step that has an
    entry, that entry holds the new function with the specifiers it was
    recorded with.  So the record replays to the steps the method is left
    with after the replacement of a step on record, and after the removal of
    a step on record that no entry is anchored on when the removal is made
    under the id of that step: here for an owner whose [analyse_function]
    leaves the specifiers alone, a record that replayed to the steps of the
    method before, and a target that has a composer with the steps that
    replay starts from.  A removal made under another id leaves the removed
    step on record and drops another entry: after [a] and [b] are appended
    and [a] is removed under the id [b], the method runs [old] and [b], the
    record holds [a] alone, and the replay gives a method that runs [old]
    and [a]. *)
Theorem customs_after_remove_and_replace
    (analyse_function :
       SupportMethodCustomization → string → PyFunc → list string → result Analysis)
    (h h' : Heap) (method_name : string) (func_ : PyFunc)
    (anchor modif_id_ : string) (rest : list string) :
  (modify_behavior analyse_function method_name func_
     ("remove" :: anchor :: rest) modif_id_ false h = (h', Ok tt) →
   ∃ customs',
     od_get method_name (_customs (self h')) = Some (Mapping customs')
     ∧ od_del modif_id_ (customs_of method_name (self h)) = Ok customs'
     ∧ (od_wf (customs_of method_name (self h)) →
        od_get modif_id_ customs' = None))
  ∧ (∀ specifiers_ sigs_ chain_on old_func old_specifiers,
       specifiers_ ≠ [] → specifiers_ !! 0 ≠ Some "remove" →
       analyse_function
         (self (intent_recorded method_name func_ specifiers_ false h))
         method_name func_ specifiers_
       = Ok ("replace" :: anchor :: rest, sigs_, chain_on) →
       od_get anchor (customs_of method_name (self h))
       = Some (old_func, old_specifiers) →
       modify_behavior analyse_function method_name func_ specifiers_ modif_id_
         false h = (h', Ok tt) →
       ∃ customs',
         od_get method_name (_customs (self h')) = Some (Mapping customs')
         ∧ customs' = od_set anchor (func_, old_specifiers)
                        (customs_of method_name (self h))
         ∧ od_get anchor customs' = Some (func_, old_specifiers))
  ∧ (transparent analyse_function →
     ∀ st0 hB,
       tracks method_name st0 h →
       anchor ∈ (customs_of method_name (self h)).*1 →
       steps_of method_name (self hB) = Some st0 →
       well_composed method_name (self hB) →
       composed method_name (self hB) →
       (modif_id_ = anchor →
        Forall (λ item, item.2.2 !! 1 ≠ Some anchor)
          (customs_of method_name (self h)) →
        modify_behavior analyse_function method_name func_
          ("remove" :: anchor :: rest) modif_id_ false h = (h', Ok tt) →
        ∃ hB',
          copy_custom_behaviors analyse_function (self h') hB = (hB', Ok tt)
          ∧ pipeline method_name (self hB') = pipeline method_name (self h'))
       ∧ (modify_behavior analyse_function method_name func_
            ("replace" :: anchor :: rest) modif_id_ false h = (h', Ok tt) →
          ∃ hB',
            copy_custom_behaviors analyse_function (self h') hB = (hB', Ok tt)
            ∧ pipeline method_name (self hB') = pipeline method_name (self h')))
  ∧ apply_directives accept_post_get "post_get"
      [custom (step 1) ["append"] "a"; custom (step 2) ["append"] "b";
       {| d_func := None; d_specifiers := ["remove"; "a"]; d_modif_id := "b";
          d_internal := false |}] (start (feature 1))
    = (a_removed_under_b, Ok tt)
  ∧ pipeline "post_get" (self a_removed_under_b)
    = Some (["old"; "b"], [Some f_old; Some (step 2)])
  ∧ customs_of "post_get" (self a_removed_under_b)
    = [("a", (Some (step 1), ["append"]))]
  ∧ ∃ hB,
      copy_custom_behaviors accept_post_get (self a_removed_under_b)
        (start (feature 2)) = (hB, Ok tt)
      ∧ pipeline "post_get" (self hB)
        = Some (["old"; "a"], [Some f_old; Some (step 1)]).
Proof.
  destruct (record_after_remove_and_replace analyse_function h h' method_name
              func_ anchor modif_id_ rest) as [Hremove Hreplace].
  split_and!; [exact Hremove|exact Hreplace| |vm_compute; reflexivity
              |reflexivity|reflexivity|].
  - intros Htransparent st0 hB Htracks Hanchor HstB HwellB _. split.
    + intros -> Hfree Hrun.
      apply (tracks_replay analyse_function Htransparent _ st0); [|done..].
      apply (tracks_modify_behavior analyse_function Htransparent method_name
               st0 {| d_func := func_; d_specifiers := "remove" :: anchor :: rest;
                      d_modif_id := anchor; d_internal := false |} h h');
        [done| |done].
      split; [done|]. right. right. by exists anchor, rest.
    + intros Hrun.
      apply (tracks_replay analyse_function Htransparent _ st0); [|done..].
      apply (tracks_modify_behavior analyse_function Htransparent method_name
               st0 {| d_func := func_; d_specifiers := "replace" :: anchor :: rest;
                      d_modif_id := modif_id_; d_internal := false |} h h');
        [done| |done].
      split; [done|]. right. left. by exists anchor, rest.
  - eexists. split; [vm_compute; reflexivity|reflexivity].
Qed.

Lemma customs_after_remove_and_replace_witness :
  transparent accept_post_get
  ∧ tracks "post_get" [("old", Some f_old); ("y", Some (step 1))] built_with_y_a
  ∧ composed "post_get" (self (built_with_y 2))
  ∧ ∃ h',
      modify_behavior accept_post_get "post_get" None ["remove"; "a"] "a" false
        built_with_y_a = (h', Ok tt)
      ∧ customs_of "post_get" (self h') = []
      ∧ ∃ hB',
          copy_custom_behaviors accept_post_get (self h') (built_with_y 2)
          = (hB', Ok tt)
          ∧ pipeline "post_get" (self hB') = pipeline "post_get" (self h').
Proof.
  assert (H1 : transparent accept_post_get) by apply accept_transparent.
  assert (H2 : tracks "post_get" [("old", Some f_old); ("y", Some (step 1))]
                 built_with_y_a) by apply built_with_y_a_tracks.
  assert (H3 : composed "post_get" (self (built_with_y 2))) by (by eexists).
  assert (H4 : well_composed "post_get" (self (built_with_y 2))).
  { intros ns ms [= <- <-]. split; [done|].
    apply (bool_decide_unpack _). vm_compute. exact I. }
  assert (Hrun : modify_behavior accept_post_get "post_get" None
                   ["remove"; "a"] "a" false built_with_y_a
                 = ((modify_behavior accept_post_get "post_get" None
                       ["remove"; "a"] "a" false built_with_y_a).1, Ok tt))
    by (vm_compute; reflexivity).
  split_and!; [exact H1|exact H2|exact H3|].
  eexists. split; [exact Hrun|]. split; [reflexivity|].
  destruct (customs_after_remove_and_replace accept_post_get built_with_y_a
              (modify_behavior accept_post_get "post_get" None
                 ["remove"; "a"] "a" false built_with_y_a).1
              "post_get" None "a" "a" []) as (_ & _ & Hreplay & _).
  refine (proj1 (Hreplay H1 _ (built_with_y 2) H2 _ eq_refl H4 H3) eq_refl _ Hrun).
  - apply list_elem_of_here.
  - repeat constructor. discriminate.
Defined.

(** ** Replays that lack an anchor *)

(** The search loop, once entered, looks at the names before the position
    it starts from, the nearest first, down to the first name. *)
Lemma find_anchor_scan fuel names our_names i :
  i < fuel → i + 1 < length names →
  find_anchor fuel names our_names (-1) (Z.of_nat i)
  = Ok ((λ p, p.2) <$> list_find (λ n, n ∈ our_names) (reverse (take i names))).
Proof.
  revert fuel. induction i as [|j IH]; intros fuel Hfuel Hlen.
  - destruct fuel as [|fuel]; [lia|]. cbn. by rewrite decide_False by lia.
  - destruct fuel as [|fuel]; [lia|]. cbn [find_anchor].
    rewrite decide_True by lia.
    replace (Z.of_nat (S j) + -1)%Z with (Z.of_nat j) by lia.
    assert (j < length names) as Hj by lia.
    apply lookup_lt_is_Some in Hj as [n Hn].
    unfold getitem_Z. rewrite decide_True by lia. rewrite Nat2Z.id.
    unfold getitem. rewrite Hn. cbn.
    rewrite (take_S_r _ _ _ Hn), reverse_snoc. cbn.
    destruct (decide (n ∈ our_names)) as [Hin|Hin].
    + done.
    + rewrite IH by lia.
      by destruct (list_find _ _) as [[k y]|].
Qed.

Lemma find_anchor_nearest names our_names i :
  i < length names →
  find_anchor (length names) names our_names (-1) (Z.of_nat i)
  = Ok (if decide (0 < i ∧ i + 1 < length names)
        then (λ p, p.2) <$> list_find (λ n, n ∈ our_names) (reverse (take i names))
        else None).
Proof.
  intros Hi. destruct (decide (0 < i ∧ i + 1 < length names)) as [[H0 H1]|Hout].
  - by apply find_anchor_scan.
  - destruct (length names) as [|fuel] eqn:Hlen; [lia|]. cbn.
    rewrite Hlen. by rewrite decide_False by lia.
Qed.

Lemma index_absent x l : x ∉ l → index x l = Raise AnchorNotFound.
Proof.
  intros Hx. destruct (index x l) as [i|e] eqn:Hi.
  - apply index_lookup in Hi. exfalso. apply Hx. by eapply list_elem_of_lookup_2.
  - by apply index_Raise in Hi as [_ ->].
Qed.

Lemma update_composer_absent kind_ x rest modif_id_ func_ c :
  kind_ = "remove" ∨ kind_ = "replace" → x ∉ _names c →
  update_composer (kind_ :: x :: rest) modif_id_ func_ c
  = (c, Raise AnchorNotFound).
Proof.
  intros [->| ->] Hx; composer_unfold; decide_kinds; cbn;
    by rewrite index_absent.
Qed.

Section Degraded.

Variable analyse_function :
  SupportMethodCustomization → string → PyFunc → list string → result Analysis.

(** A modification that is no insertion next to an anchor is replayed as
    it was recorded. *)
Lemma copy_modifier_verbatim obj meth_name_ custom_ func_ kind_ rest h :
  is_Some (methods (self h) !! meth_name_) →
  kind_ ≠ "add_after" → kind_ ≠ "add_before" →
  copy_modifier analyse_function obj meth_name_ custom_ (func_, kind_ :: rest) h
  = modify_behavior analyse_function meth_name_ func_ (kind_ :: rest) custom_
      false h.
Proof.
  intros [method Hm] Hafter Hbefore. unfold copy_modifier, getattr. munfold.
  rewrite Hm. cbn. rewrite bool_decide_eq_false_2; [done|].
  rewrite !elem_of_cons, elem_of_nil. tauto.
Qed.

Lemma modify_behavior_remove_absent meth_name_ func_ x rest modif_id_ h c :
  methods (self h) !! meth_name_ = Some (Composed c) → x ∉ _names c →
  (modify_behavior analyse_function meth_name_ func_ ("remove" :: x :: rest)
     modif_id_ false h).2 = Raise AnchorNotFound.
Proof.
  intros Hm Hx. rewrite modify_behavior_run. cbn zeta.
  rewrite (bool_decide_eq_true_2 (_ !! 0 = _)) by done.
  rewrite bool_decide_eq_false_2 by done. cbn [orb negb].
  rewrite compose_method_run. unfold intent_recorded. cbn. rewrite Hm.
  cbn [composer_for]. rewrite update_composer_absent by (done || by left).
  done.
Qed.

Lemma modify_behavior_replace_absent meth_name_ func_ x rest modif_id_ h c
    sigs_ chain_on :
  methods (self h) !! meth_name_ = Some (Composed c) → x ∉ _names c →
  analyse_function
    (self (intent_recorded meth_name_ func_ ("replace" :: x :: rest) false h))
    meth_name_ func_ ("replace" :: x :: rest)
  = Ok ("replace" :: x :: rest, sigs_, chain_on) →
  (modify_behavior analyse_function meth_name_ func_ ("replace" :: x :: rest)
     modif_id_ false h).2 = Raise AnchorNotFound.
Proof.
  intros Hm Hx Hhook. rewrite modify_behavior_run. cbn zeta.
  rewrite (bool_decide_eq_false_2 (_ !! 0 = _)) by done.
  rewrite orb_true_r, Hhook.
  rewrite compose_method_run. unfold intent_recorded. cbn. rewrite Hm.
  cbn [composer_for]. rewrite update_composer_absent by (done || by right).
  done.
Qed.

(** An insertion next to an anchor that the composer of the target does
    not have, for a step that the composer of the source has: it is applied
    with another step for anchor, one that both composers have, or
    prepended. *)
Lemma copy_modifier_reanchored obj meth_name_ custom_ func_ kind_ anchor rest h
    source target :
  kind_ = "add_after" ∨ kind_ = "add_before" →
  methods (self h) !! meth_name_ = Some (Composed target) →
  anchor ∉ _names target →
  methods obj !! meth_name_ = Some (Composed source) →
  custom_ ∈ _names source →
  ∃ specifiers_,
    copy_modifier analyse_function obj meth_name_ custom_
      (func_, kind_ :: anchor :: rest) h
    = modify_behavior analyse_function meth_name_ func_ specifiers_ custom_
        false h
    ∧ (specifiers_ = ["prepend"]
       ∨ ∃ n, specifiers_ = [kind_; n] ∧ n ∈ _names target ∧ n ∈ _names source).
Proof.
  intros Hkind Htarget Hanchor Hsource [i Hi]%index_elem_of.
  unfold copy_modifier, getattr. munfold. rewrite Htarget. cbn.
  rewrite bool_decide_eq_true_2.
  2:{ destruct Hkind as [->| ->]; rewrite !elem_of_cons; tauto. }
  cbn. rewrite decide_False by done. rewrite Hsource. cbn. rewrite Hi. cbn.
  assert ((if bool_decide (kind_ = "add_after") then (-1)%Z else (-1)%Z)
          = (-1)%Z) as -> by (by destruct (bool_decide _)).
  rewrite find_anchor_nearest by (by eapply index_lt).
  cbn. destruct (decide _) as [Hin|Hout].
  - destruct (list_find _ _) as [[k n]|] eqn:Hfind; cbn.
    + apply list_find_Some in Hfind as (Hk & Hn & _).
      eexists. split; [done|]. right. exists n. split_and!; [done..|].
      apply list_elem_of_lookup_2 in Hk. rewrite elem_of_reverse in Hk.
      by eapply subseteq_take.
    + eexists. split; [done|]. by left.
  - eexists. split; [done|]. by left.
Qed.

(** The same insertion, for a step that the composer of the source has no
    more: looking the step up raises. *)
Lemma copy_modifier_step_absent obj meth_name_ custom_ func_ kind_ anchor rest h
    source target :
  kind_ = "add_after" ∨ kind_ = "add_before" →
  methods (self h) !! meth_name_ = Some (Composed target) →
  anchor ∉ _names target →
  methods obj !! meth_name_ = Some (Composed source) →
  custom_ ∉ _names source →
  copy_modifier analyse_function obj meth_name_ custom_
    (func_, kind_ :: anchor :: rest) h
  = (h, Raise AnchorNotFound).
Proof.
  intros Hkind Htarget Hanchor Hsource Hcustom.
  unfold copy_modifier, getattr. munfold. rewrite Htarget. cbn.
  rewrite bool_decide_eq_true_2.
  2:{ destruct Hkind as [->| ->]; rewrite !elem_of_cons; tauto. }
  cbn. rewrite decide_False by done. rewrite Hsource. cbn.
  by rewrite index_absent.
Qed.

End Degraded.



(** * More of [composition.py] *)

(** ** Looking a step up in a composer *)

Lemma od_get_cons {V} k k' (v : V) d :
  od_get k ((k', v) :: d) = if decide (k' = k) then Some v else od_get k d.
Proof. reflexivity. Qed.

Lemma od_get_app {V} k (d1 d2 : list (string * V)) :
  od_get k (d1 ++ d2)
  = match od_get k d1 with Some v => Some v | None => od_get k d2 end.
Proof.
  induction d1 as [|[k' v'] d1 IH]; [done|].
  rewrite <- app_comm_cons, !od_get_cons.
  by destruct (decide (k' = k)).
Qed.

Lemma od_get_notin {V} k (d : list (string * V)) : k ∉ d.*1 → od_get k d = None.
Proof.
  induction d as [|[k' v'] d IH]; [done|]. rewrite fmap_cons, od_get_cons.
  intros [Hne Hk]%not_elem_of_cons.
  rewrite decide_False by done. by apply IH.
Qed.

Lemma od_get_insert_at_ne {V} k x (v : V) i d :
  k ≠ x → od_get k (list_insert_at i (x, v) d) = od_get k d.
Proof.
  intros Hk. unfold list_insert_at. rewrite od_get_app, od_get_cons.
  rewrite decide_False by done.
  by rewrite <- (od_get_app k (take i d) (drop i d)), take_drop.
Qed.

Lemma od_get_insert_at_eq {V} x (v : V) i d :
  x ∉ d.*1 → od_get x (list_insert_at i (x, v) d) = Some v.
Proof.
  intros Hx. unfold list_insert_at. rewrite od_get_app.
  rewrite od_get_notin.
  - by rewrite od_get_cons, decide_True.
  - intros Hin. apply Hx. rewrite <- (take_drop i d), fmap_app.
    apply elem_of_app. by left.
Qed.

Lemma od_get_zip {V} key (ns : list string) (ms : list V) :
  length ns = length ms →
  od_get key (zip ns ms)
  = match index key ns with Ok i => ms !! i | Raise _ => None end.
Proof.
  revert ms. induction ns as [|n ns IH]; intros [|m ms] Hlen; try done.
  change (zip (n :: ns) (m :: ms)) with ((n, m) :: zip ns ms).
  rewrite od_get_cons. unfold index. cbn.
  destruct (decide (n = key)) as [->|Hne]; [done|].
  rewrite IH by (cbn in Hlen; lia). unfold index.
  by destruct (list_find _ ns) as [[i y]|].
Qed.

(** [composer[key]] is the method of the first step of id [key]. *)
Lemma getitem_steps c key :
  length (_names c) = length (_methods c) →
  Composer.__getitem__ key c
  = match od_get key (steps c) with
    | Some m => Ok m
    | None => Raise (ValueError not_in_list)
    end.
Proof.
  intros Hlen. unfold Composer.__getitem__, steps. rewrite od_get_zip by done.
  destruct (index key _) as [i|e] eqn:Hi.
  - unfold getitem. apply index_lt in Hi. rewrite Hlen in Hi.
    apply lookup_lt_is_Some in Hi as [m ->]. done.
  - by apply index_Raise in Hi as [_ ->].
Qed.

Lemma contains_steps c key :
  length (_names c) = length (_methods c) →
  Composer.__contains__ key c = bool_decide (key ∈ (steps c).*1).
Proof. intros Hlen. by rewrite steps_names. Qed.

(** The four insertions, when they go through, put the new step somewhere
    among the steps, which are otherwise as they were. *)
Lemma insertion_steps c c' anchor name_ method :
  composer_inv c →
  Composer.prepend name_ method c = (c', Ok tt)
  ∨ Composer.append name_ method c = (c', Ok tt)
  ∨ Composer.add_before anchor name_ method c = (c', Ok tt)
  ∨ Composer.add_after anchor name_ method c = (c', Ok tt) →
  (name_ ∉ _names c) ∧ composer_inv c'
  ∧ ∃ i, steps c' = list_insert_at i (name_, method) (steps c).
Proof.
  intros Hinv Hop.
  assert (name_ ∉ _names c) as Hnew.
  { intros Hin.
    destruct Hop as [Hop|[Hop|[Hop|Hop]]]; revert Hop;
      unfold Composer.prepend, Composer.append, Composer.add_before,
        Composer.add_after; munfold; rewrite check_duplicates_run;
      by rewrite decide_True. }
  split; [done|].
  destruct Hop as [Hop|[Hop|[Hop|Hop]]].
  - split.
    + pose proof (composer_inv_prepend c name_ method Hinv) as H.
      by rewrite Hop in H.
    + exists 0. by rewrite (steps_prepend _ _ _ _ Hinv Hop).
  - split.
    + pose proof (composer_inv_append c name_ method Hinv) as H.
      by rewrite Hop in H.
    + exists (length (steps c)). rewrite (steps_append _ _ _ _ Hinv Hop).
      unfold list_insert_at. by rewrite take_ge, drop_ge by lia.
  - split.
    + pose proof (composer_inv_add_before c anchor name_ method Hinv) as H.
      by rewrite Hop in H.
    + destruct (steps_add_before _ _ _ _ _ Hinv Hop) as (i & _ & ->). by exists i.
  - split.
    + pose proof (composer_inv_add_after c anchor name_ method Hinv) as H.
      by rewrite Hop in H.
    + destruct (steps_add_after _ _ _ _ _ Hinv Hop) as (i & _ & ->).
      by exists (i + 1).
Qed.

(** X1: after an insertion that went through, the composer gives the new
    method under the new id, has one step more, and gives under every other
    id what it gave before. *)
Theorem inserted_step_is_found (c c' : MethodComposer) (anchor name_ : string)
    (method : PyFunc) :
  composer_inv c →
  Composer.prepend name_ method c = (c', Ok tt)
  ∨ Composer.append name_ method c = (c', Ok tt)
  ∨ Composer.add_before anchor name_ method c = (c', Ok tt)
  ∨ Composer.add_after anchor name_ method c = (c', Ok tt) →
  Composer.__getitem__ name_ c' = Ok method
  ∧ Composer.__contains__ name_ c' = true
  ∧ length (_names c') = S (length (_names c))
  ∧ ∀ key, key ≠ name_ →
      Composer.__getitem__ key c' = Composer.__getitem__ key c
      ∧ Composer.__contains__ key c' = Composer.__contains__ key c.
Proof.
  intros Hinv Hop.
  destruct (insertion_steps _ _ _ _ _ Hinv Hop) as (Hnew & Hinv' & i & Hsteps).
  pose proof (inv_length _ Hinv) as Hlen.
  pose proof (inv_length _ Hinv') as Hlen'.
  assert (_names c' ≡ₚ name_ :: _names c) as Hperm.
  { rewrite <- (steps_names c'), Hsteps by done.
    unfold list_insert_at. rewrite fmap_app, fmap_cons. cbn.
    rewrite <- Permutation_middle, <- fmap_app, take_drop.
    by rewrite steps_names. }
  split_and!.
  - rewrite getitem_steps, Hsteps by done.
    rewrite od_get_insert_at_eq; [done|]. by rewrite steps_names.
  - apply bool_decide_eq_true. rewrite Hperm. by left.
  - by rewrite Hperm.
  - intros key Hkey. split.
    + rewrite !getitem_steps, Hsteps by done.
      by rewrite od_get_insert_at_ne.
    + unfold Composer.__contains__. apply bool_decide_ext.
      rewrite Hperm, elem_of_cons. tauto.
Qed.

Lemma inserted_step_is_found_witness :
  composer_inv old_composer
  ∧ (∃ c', Composer.add_after "old" "w" (Some (step 1)) old_composer = (c', Ok tt)
           ∧ Composer.__getitem__ "w" c' = Ok (Some (step 1))
           ∧ Composer.__getitem__ "old" c' = Ok (Some f_old)).
Proof.
  assert (H1 : composer_inv old_composer) by apply composer_inv_init.
  split; [exact H1|].
  eexists. split; [reflexivity|].
  pose proof (inserted_step_is_found old_composer _ "old" "w" (Some (step 1)) H1
                (or_intror (or_intror (or_intror eq_refl)))) as (Hw & _ & _ & Hold).
  split; [exact Hw|].
  destruct (Hold "old") as [-> _]; [done|]. reflexivity.
Defined.

(** ** Ids the composer does not have *)

Lemma index_notin x l : x ∉ l → index x l = Raise (ValueError not_in_list).
Proof.
  intros Hx. destruct (index x l) as [i|e] eqn:Hi.
  - apply index_lookup in Hi. exfalso. apply Hx. by eapply list_elem_of_lookup_2.
  - by apply index_Raise in Hi as [_ ->].
Qed.

(** X2: an id the composer does not have is answered with the [ValueError]
    of [list.index], by the insertions next to an anchor (given a new id
    that passes the check of duplicates), by [replace], by [remove] and by
    the lookup [composer[id]]; the composer is left exactly as it was. *)
Theorem missing_id_refused (c : MethodComposer) (anchor name_ : string)
    (method : PyFunc) :
  anchor ∉ _names c →
  (name_ ∉ _names c →
   Composer.add_before anchor name_ method c = (c, Raise (ValueError not_in_list))
   ∧ Composer.add_after anchor name_ method c = (c, Raise (ValueError not_in_list)))
  ∧ Composer.replace anchor method c = (c, Raise (ValueError not_in_list))
  ∧ Composer.remove anchor c = (c, Raise (ValueError not_in_list))
  ∧ Composer.__getitem__ anchor c = Raise (ValueError not_in_list)
  ∧ Composer.__contains__ anchor c = false.
Proof.
  intros Hanchor. pose proof (index_notin _ _ Hanchor) as Hi.
  split_and!.
  - intros Hnew. unfold Composer.add_before, Composer.add_after. munfold.
    rewrite check_duplicates_run, decide_False by done. by rewrite Hi.
  - unfold Composer.replace. munfold. by rewrite Hi.
  - unfold Composer.remove. munfold. by rewrite Hi.
  - unfold Composer.__getitem__. by rewrite Hi.
  - by apply bool_decide_eq_false.
Qed.

Lemma missing_id_refused_witness :
  ("gone" ∉ _names old_composer)
  ∧ Composer.remove "gone" old_composer
    = (old_composer, Raise (ValueError not_in_list)).
Proof.
  assert (H1 : "gone" ∉ _names old_composer).
  { intros [?|H]%elem_of_cons; [done|]. by apply elem_of_nil in H. }
  split; [exact H1|].
  exact (proj1 (proj2 (proj2
    (missing_id_refused old_composer "gone" "w" None H1)))).
Defined.

(** ** Where an insertion next to an anchor puts the step *)

(** X3: on a composer that has the step [anchor] and no step [name_],
    [add_before] and [add_after] go through; the new step comes right
    before, or right after, the step [anchor], and the other steps are where
    they were. *)
Theorem anchored_insertion_position (c : MethodComposer) (anchor name_ : string)
    (method : PyFunc) :
  composer_inv c → anchor ∈ _names c → name_ ∉ _names c →
  ∃ before after m c1 c2,
    steps c = before ++ (anchor, m) :: after
    ∧ Composer.add_before anchor name_ method c = (c1, Ok tt)
    ∧ steps c1 = before ++ (name_, method) :: (anchor, m) :: after
    ∧ Composer.add_after anchor name_ method c = (c2, Ok tt)
    ∧ steps c2 = before ++ (anchor, m) :: (name_, method) :: after.
Proof.
  intros Hinv Hanchor Hnew. pose proof (inv_length _ Hinv) as Hlen.
  destruct (index_elem_of _ _ Hanchor) as [i Hi].
  destruct (steps_lookup c i anchor Hlen (index_lookup _ _ _ Hi)) as [m Hm].
  assert (∃ c1, Composer.add_before anchor name_ method c = (c1, Ok tt))
    as [c1 H1].
  { unfold Composer.add_before. munfold.
    rewrite check_duplicates_run, decide_False by done. rewrite Hi. by eexists. }
  assert (∃ c2, Composer.add_after anchor name_ method c = (c2, Ok tt))
    as [c2 H2].
  { unfold Composer.add_after. munfold.
    rewrite check_duplicates_run, decide_False by done. rewrite Hi. by eexists. }
  exists (take i (steps c)), (drop (S i) (steps c)), m, c1, c2.
  pose proof (take_drop_middle _ _ _ Hm) as Hsplit.
  assert (length (take i (steps c)) = i) as Htake.
  { apply length_take_le. apply lookup_lt_Some in Hm. lia. }
  split_and!; [done|done| |done|].
  - destruct (steps_add_before _ _ _ _ _ Hinv H1) as (i' & Hi' & ->).
    assert (i' = i) as -> by congruence.
    unfold list_insert_at. rewrite <- Hsplit at 2.
    by rewrite drop_app_length' by done.
  - destruct (steps_add_after _ _ _ _ _ Hinv H2) as (i' & Hi' & ->).
    assert (i' = i) as -> by congruence.
    unfold list_insert_at. rewrite <- Hsplit at 1 2.
    rewrite (cons_middle _ (take i _)), app_assoc.
    rewrite take_app_length', drop_app_length' by (rewrite length_app; cbn; lia).
    by rewrite <- app_assoc.
Qed.

Lemma anchored_insertion_position_witness :
  composer_inv old_y_z
  ∧ "y" ∈ _names old_y_z
  ∧ ("w" ∉ _names old_y_z)
  ∧ ∃ c1 c2,
      Composer.add_before "y" "w" None old_y_z = (c1, Ok tt)
      ∧ _names c1 = ["old"; "w"; "y"; "z"]
      ∧ Composer.add_after "y" "w" None old_y_z = (c2, Ok tt)
      ∧ _names c2 = ["old"; "y"; "w"; "z"].
Proof.
  assert (H1 : composer_inv old_y_z).
  { apply composer_inv_intro; [done|].
    apply (bool_decide_unpack _). vm_compute. exact I. }
  assert (H2 : "y" ∈ _names old_y_z) by (cbn; rewrite !elem_of_cons; tauto).
  assert (H3 : "w" ∉ _names old_y_z).
  { cbn. rewrite !elem_of_cons, elem_of_nil. intros H; decompose [or] H; done. }
  split_and!; [exact H1|exact H2|exact H3|].
  destruct (anchored_insertion_position old_y_z "y" "w" None H1 H2 H3)
    as (before & after & m & c1 & c2 & Hs & Hb & Hs1 & Ha & Hs2).
  exists c1, c2. vm_compute in Hb, Ha.
  injection Hb as <-. injection Ha as <-. done.
Defined.

(** ** Removing and replacing a step *)

Lemma od_get_strip {V} key x (st : list (string * V)) :
  key ≠ x → od_get key (filter (λ s, s.1 ≠ x) st) = od_get key st.
Proof.
  intros Hkey. induction st as [|[k v] st IH]; [done|].
  rewrite od_get_cons. destruct (decide (k = x)) as [->|Hk].
  - rewrite filter_cons_False by (cbn; tauto).
    by rewrite decide_False by congruence.
  - rewrite filter_cons_True by done. rewrite od_get_cons. by rewrite IH.
Qed.

Lemma od_get_retarget key x func_ (st : list (string * PyFunc)) :
  od_get key (retarget x func_ st)
  = if decide (key = x) then
      if decide (x ∈ st.*1) then Some func_ else None
    else od_get key st.
Proof.
  unfold retarget. induction st as [|[k v] st IH].
  { cbn. destruct (decide (key = x)); [|done].
    rewrite decide_False; [done|]. apply not_elem_of_nil. }
  rewrite !fmap_cons. cbn [fst].
  destruct (decide (k = x)) as [Hk|Hk]; rewrite !od_get_cons, ?IH;
    destruct (decide (key = x)) as [Hkey|Hkey]; subst.
  - rewrite decide_True by done. rewrite decide_True; [done|]. by left.
  - by rewrite !decide_False by done.
  - rewrite decide_False by done.
    destruct (decide (x ∈ st.*1)) as [Hin|Hin].
    + rewrite decide_True; [done|]. by right.
    + rewrite decide_False; [done|].
      intros [?|?]%elem_of_cons; [congruence|done].
  - done.
Qed.

Lemma remove_runs c name_ :
  composer_inv c → name_ ∈ _names c →
  ∃ c', Composer.remove name_ c = (c', Ok tt).
Proof.
  intros [Hlen _ _] Hin. destruct (index_elem_of _ _ Hin) as [i Hi].
  unfold Composer.remove. munfold. rewrite Hi.
  apply index_lt in Hi. rewrite decide_True by lia. by eexists.
Qed.

Lemma replace_runs c name_ method :
  composer_inv c → name_ ∈ _names c →
  ∃ c', Composer.replace name_ method c = (c', Ok tt) ∧ _names c' = _names c.
Proof.
  intros [Hlen _ _] Hin. destruct (index_elem_of _ _ Hin) as [i Hi].
  unfold Composer.replace. munfold. rewrite Hi.
  apply index_lt in Hi. rewrite decide_True by lia. by eexists.
Qed.

(** X4: on a composer that has the step [name_], [remove] goes through: the
    other steps are left, in their order; the id is no longer there, looking
    it up raises, and every other id gives what it gave. *)
Theorem removed_step_is_gone (c : MethodComposer) (name_ : string) :
  composer_inv c → name_ ∈ _names c →
  ∃ c', Composer.remove name_ c = (c', Ok tt)
        ∧ steps c' = strip name_ (steps c)
        ∧ Composer.__contains__ name_ c' = false
        ∧ Composer.__getitem__ name_ c' = Raise (ValueError not_in_list)
        ∧ ∀ key, key ≠ name_ →
            Composer.__getitem__ key c' = Composer.__getitem__ key c
            ∧ Composer.__contains__ key c' = Composer.__contains__ key c.
Proof.
  intros Hinv Hin. destruct (remove_runs c name_ Hinv Hin) as [c' Hrun].
  exists c'. split; [done|].
  assert (composer_inv c') as Hinv'.
  { pose proof (composer_inv_remove c name_ Hinv) as H. by rewrite Hrun in H. }
  pose proof (inv_length _ Hinv) as Hlen.
  pose proof (inv_length _ Hinv') as Hlen'.
  assert (steps c' = strip name_ (steps c)) as Hsteps.
  { destruct (steps_remove _ _ _ Hrun) as (i & Hi & ->).
    destruct (steps_lookup c i name_ Hlen (index_lookup _ _ _ Hi)) as [g Hg].
    apply (delete_strip _ g); [|done]. rewrite steps_names by done.
    apply Hinv. }
  assert (name_ ∉ _names c') as Hgone.
  { rewrite <- steps_names, Hsteps by done. rewrite strip_names. tauto. }
  split_and!; [done| | |].
  - by apply bool_decide_eq_false.
  - unfold Composer.__getitem__. by rewrite index_notin.
  - intros key Hkey. split.
    + rewrite !getitem_steps, Hsteps by done. unfold strip.
      by rewrite od_get_strip.
    + unfold Composer.__contains__. apply bool_decide_ext.
      rewrite <- (steps_names c'), Hsteps, strip_names, steps_names by done.
      tauto.
Qed.

Lemma removed_step_is_gone_witness :
  composer_inv old_y_z
  ∧ "y" ∈ _names old_y_z
  ∧ ∃ c', Composer.remove "y" old_y_z = (c', Ok tt)
          ∧ steps c' = [("old", Some f_old); ("z", Some (step 2))].
Proof.
  assert (H1 : composer_inv old_y_z).
  { apply composer_inv_intro; [done|].
    apply (bool_decide_unpack _). vm_compute. exact I. }
  assert (H2 : "y" ∈ _names old_y_z) by (cbn; rewrite !elem_of_cons; tauto).
  split_and!; [exact H1|exact H2|].
  destruct (removed_step_is_gone old_y_z "y" H1 H2) as (c' & Hrun & Hsteps & _).
  exists c'. split; [exact Hrun|]. rewrite Hsteps. reflexivity.
Defined.

(** X5: on a composer that has the step [name_], [replace] goes through:
    the ids are what they were, in their order, the id [name_] gives the new
    method and every other id gives what it gave. *)
Theorem replaced_step_is_found (c : MethodComposer) (name_ : string)
    (method : PyFunc) :
  composer_inv c → name_ ∈ _names c →
  ∃ c', Composer.replace name_ method c = (c', Ok tt)
        ∧ _names c' = _names c
        ∧ Composer.__getitem__ name_ c' = Ok method
        ∧ ∀ key, key ≠ name_ →
            Composer.__getitem__ key c' = Composer.__getitem__ key c.
Proof.
  intros Hinv Hin.
  destruct (replace_runs c name_ method Hinv Hin) as (c' & Hrun & Hnames).
  exists c'. split_and!; [done..| |].
  all: assert (composer_inv c') as Hinv'
    by (pose proof (composer_inv_replace c name_ method Hinv) as H;
        by rewrite Hrun in H).
  all: pose proof (inv_length _ Hinv) as Hlen.
  all: pose proof (inv_length _ Hinv') as Hlen'.
  all: assert (steps c' = retarget name_ method (steps c)) as Hsteps.
  1,3: destruct (steps_replace _ _ _ _ Hrun) as (i & Hi & ->);
       destruct (steps_lookup c i name_ Hlen (index_lookup _ _ _ Hi)) as [g Hg];
       apply (insert_retarget _ _ g); [|done]; rewrite steps_names by done;
       apply Hinv.
  - rewrite getitem_steps, Hsteps, od_get_retarget by done.
    rewrite decide_True by done. rewrite decide_True; [done|].
    by rewrite steps_names.
  - intros key Hkey. rewrite !getitem_steps, Hsteps, od_get_retarget by done.
    by rewrite decide_False.
Qed.

Lemma replaced_step_is_found_witness :
  composer_inv old_y_z
  ∧ "y" ∈ _names old_y_z
  ∧ ∃ c', Composer.replace "y" (Some (step 7)) old_y_z = (c', Ok tt)
          ∧ Composer.__getitem__ "y" c' = Ok (Some (step 7)).
Proof.
  assert (H1 : composer_inv old_y_z).
  { apply composer_inv_intro; [done|].
    apply (bool_decide_unpack _). vm_compute. exact I. }
  assert (H2 : "y" ∈ _names old_y_z) by (cbn; rewrite !elem_of_cons; tauto).
  split_and!; [exact H1|exact H2|].
  destruct (replaced_step_is_found old_y_z "y" (Some (step 7)) H1 H2)
    as (c' & Hrun & _ & Hget & _).
  by exists c'.
Defined.

(** ** Taking an inserted step out again *)

Lemma index_insert_at x l i :
  x ∉ l → index x (list_insert_at i x l) = Ok (length (take i l)).
Proof.
  intros Hx. apply index_Ok. unfold list_insert_at. split.
  - by rewrite lookup_app_r, Nat.sub_diag by lia.
  - intros j Hj. rewrite lookup_app_l by done. intros Hin.
    apply Hx. apply list_elem_of_lookup_2 in Hin.
    rewrite <- (take_drop i l). apply elem_of_app. by left.
Qed.

Lemma delete_insert_at {A} (x : A) l i :
  delete (length (take i l)) (list_insert_at i x l) = l.
Proof.
  unfold list_insert_at. rewrite delete_middle. apply take_drop.
Qed.

(** An insertion that goes through puts the id and the method at one
    position of the two lists. *)
Lemma insertion_lists c c' anchor name_ method :
  length (_names c) = length (_methods c) →
  Composer.prepend name_ method c = (c', Ok tt)
  ∨ Composer.append name_ method c = (c', Ok tt)
  ∨ Composer.add_before anchor name_ method c = (c', Ok tt)
  ∨ Composer.add_after anchor name_ method c = (c', Ok tt) →
  (name_ ∉ _names c)
  ∧ ∃ i, c' = set_methods (list_insert_at i method (_methods c))
                (set_names (list_insert_at i name_ (_names c)) c).
Proof.
  intros Hlen Hop.
  destruct Hop as [Hop|[Hop|[Hop|Hop]]]; revert Hop;
    unfold Composer.prepend, Composer.append, Composer.add_before,
      Composer.add_after; munfold; rewrite check_duplicates_run;
    destruct (decide _) as [|Hnew]; try done.
  - intros [= <-]. split; [done|]. by exists 0.
  - intros [= <-]. split; [done|]. exists (length (_names c)).
    unfold list_insert_at. rewrite take_ge, drop_ge by lia.
    rewrite Hlen. by rewrite take_ge, drop_ge by lia.
  - destruct (index anchor _) as [i|]; [|done].
    intros [= <-]. split; [done|]. by exists i.
  - destruct (index anchor _) as [i|]; [|done].
    intros [= <-]. split; [done|]. by exists (i + 1).
Qed.

(** X6: removing a step that was just inserted, by any of the four
    insertions, gives back the composer as it was before the insertion. *)
Theorem insert_then_remove (c c' : MethodComposer) (anchor name_ : string)
    (method : PyFunc) :
  length (_names c) = length (_methods c) →
  Composer.prepend name_ method c = (c', Ok tt)
  ∨ Composer.append name_ method c = (c', Ok tt)
  ∨ Composer.add_before anchor name_ method c = (c', Ok tt)
  ∨ Composer.add_after anchor name_ method c = (c', Ok tt) →
  Composer.remove name_ c' = (c, Ok tt).
Proof.
  intros Hlen Hop.
  destruct (insertion_lists _ _ _ _ _ Hlen Hop) as (Hnew & i & ->).
  unfold Composer.remove. munfold.
  rewrite index_insert_at by done. rewrite delete_insert_at.
  rewrite decide_True.
  2:{ rewrite length_list_insert_at, !length_take. lia. }
  replace (length (take i (_names c))) with (length (take i (_methods c)))
    by (rewrite !length_take; lia).
  rewrite delete_insert_at. by destruct c.
Qed.

Lemma insert_then_remove_witness :
  length (_names old_y_z) = length (_methods old_y_z)
  ∧ ∃ c', Composer.add_before "z" "w" None old_y_z = (c', Ok tt)
          ∧ Composer.remove "w" c' = (old_y_z, Ok tt).
Proof.
  split; [reflexivity|]. eexists. split; [reflexivity|].
  exact (insert_then_remove old_y_z _ "z" "w" None eq_refl
           (or_intror (or_intror (or_introl eq_refl)))).
Defined.

(** ** More of the metaclass *)

(** A composer the metaclass built is registered, and stays so whatever
    the metaclass is asked for afterwards. *)
Lemma served_is_registered r meta0 meta1 c between meta :
  serve r meta0 = (meta1, Ok c) →
  serve_all between meta1 = (meta, Ok tt) →
  registered meta c.
Proof.
  intros Hserve Hall.
  destruct (serve_run r meta0) as (cls & Hrun & Hcls).
  rewrite Hserve in Hrun. injection Hrun as Hmeta1 ->.
  destruct (serve_all_run between meta1) as (meta' & Hall' & Hkeep).
  rewrite Hall in Hall'. injection Hall' as <-.
  split.
  - cbn. apply Hkeep. rewrite Hmeta1.
    destruct (sigs meta0 !! request_key r) as [known|] eqn:Hk.
    + subst cls. exact Hk.
    + cbn. apply lookup_insert_eq.
  - cbn. unfold request_key. cbn.
    by destruct (accepted_signatures_cons (r_func r) (r_alias r) (r_signatures r))
      as (s & l & ->).
Qed.

(** X7: the clone of a composer whose class is registered for its
    signatures and its chain, as the class of every composer the metaclass
    built is, creates no class and leaves the metaclass as it is: the copy
    is an instance of the class of the original, with its name, its alias,
    its chain and its signatures, the ids and the methods of the original in
    their order, and for owner the object given, or the owner of the
    original when none is given. *)
Theorem clone_keeps_class (signature_of : MethodComposer → list Param)
    (code_of : MethodComposer → nat) (meta : MetaMethodComposer)
    (c : MethodComposer) (new_obj : option nat) :
  registered meta c →
  clone_call signature_of code_of new_obj c meta
  = (meta, Ok (Composer.clone new_obj c))
  ∧ __class__ (Composer.clone new_obj c) = __class__ c
  ∧ steps (Composer.clone new_obj c) = steps c
  ∧ __self__ (Composer.clone new_obj c) = default (__self__ c) new_obj
  ∧ registered meta (Composer.clone new_obj c).
Proof.
  intros [Hreg Hsigs]. split_and!; [|done..].
  unfold clone_call. munfold. rewrite metaclass_call_run.
  unfold new_composer.
  destruct (_signatures c) as [|s l] eqn:Hs; [done|]. cbn.
  rewrite Hreg. cbn. unfold Composer.clone. by rewrite Hs.
Qed.

Lemma clone_keeps_class_witness :
  registered first_served.1 first_served.2
  ∧ clone_call (λ _, []) (λ _, 0) (Some 2) first_served.2 first_served.1
    = (first_served.1, Ok (Composer.clone (Some 2) first_served.2)).
Proof.
  assert (H1 : registered first_served.1 first_served.2).
  { split; [vm_compute; reflexivity|discriminate]. }
  split; [exact H1|].
  exact (proj1 (clone_keeps_class (λ _, []) (λ _, 0) first_served.1
                  first_served.2 (Some 2) H1)).
Defined.

(** X8: two requests with different keys that return a composer,
    whatever requests returned in between, get instances of two different
    classes, when the cache is well formed, as the empty cache is and as
    every call leaves it. *)
Theorem different_keys_different_classes
    (meta meta1 meta2 meta3 : MetaMethodComposer)
    (r1 r2 : request) (between : list request) (c1 c2 : MethodComposer) :
  cache_wf meta →
  request_key r1 ≠ request_key r2 →
  serve r1 meta = (meta1, Ok c1) →
  serve_all between meta1 = (meta2, Ok tt) →
  serve r2 meta2 = (meta3, Ok c2) →
  class_id (__class__ c1) ≠ class_id (__class__ c2)
  ∧ sigs meta3 !! request_key r1 = Some (__class__ c1)
  ∧ sigs meta3 !! request_key r2 = Some (__class__ c2)
  ∧ cache_wf meta3.
Proof.
  intros Hwf Hkeys Hserve1 Hall Hserve2.
  destruct (serve_wf _ _ _ _ Hwf Hserve1) as (Hwf1 & Hreg1 & _).
  pose proof (serve_all_wf _ _ _ Hwf1 Hall) as Hwf2.
  destruct (serve_wf _ _ _ _ Hwf2 Hserve2) as (Hwf3 & Hreg2 & _).
  destruct (serve_all_run between meta1) as (meta2' & Hall' & Hkeep).
  rewrite Hall in Hall'. injection Hall' as <-.
  apply Hkeep in Hreg1.
  apply (serve_keeps r2 _ _ _ _ _ Hreg1) in Hserve2 as Hreg1'.
  assert (Hk1 : (_signatures c1, _chain_on c1) = request_key r1).
  { destruct (serve_run r1 meta) as (cls & Hrun & _).
    rewrite Hserve1 in Hrun. by injection Hrun as _ ->. }
  assert (Hk2 : (_signatures c2, _chain_on c2) = request_key r2).
  { destruct (serve_run r2 meta2) as (cls & Hrun & _).
    rewrite Hserve2 in Hrun. by injection Hrun as _ ->. }
  rewrite Hk1 in Hreg1'. rewrite Hk2 in Hreg2.
  split_and!; [|done..].
  intros Hid. apply Hkeys.
  apply (wf_one_key _ Hwf3 _ _ _ _ Hreg1' Hreg2 Hid).
Qed.

Lemma different_keys_different_classes_witness :
  cache_wf no_classes
  ∧ request_key first_request ≠ request_key other_request
  ∧ ∃ meta1 c1 meta2 meta3 c2,
      serve first_request no_classes = (meta1, Ok c1)
      ∧ serve_all [second_request] meta1 = (meta2, Ok tt)
      ∧ serve other_request meta2 = (meta3, Ok c2)
      ∧ class_id (__class__ c1) ≠ class_id (__class__ c2).
Proof.
  assert (H1 : cache_wf no_classes) by apply cache_wf_no_classes.
  assert (H2 : request_key first_request ≠ request_key other_request)
    by discriminate.
  split_and!; [exact H1|exact H2|].
  destruct (serve_run first_request no_classes) as (cls1 & Ha & _).
  destruct (serve_all_run [second_request] (serve first_request no_classes).1)
    as (meta2 & Hb & _).
  rewrite Ha in Hb.
  destruct (serve_run other_request meta2) as (cls2 & Hc & _).
  eexists _, _, meta2, _, _. split_and!; [exact Ha|exact Hb|exact Hc|].
  exact (proj1 (different_keys_different_classes _ _ _ _ first_request
                  other_request [second_request] _ _ H1 H2 Ha Hb Hc)).
Defined.

(** X9: the composer a call of the metaclass returns has the original
    function for only step, under the id given.  When signatures are given,
    they are the signatures of the composer and the signature of the function
    is not looked at: the generated [__call__] takes the parameters of the
    first of them but the first one.  When none is given, or an empty list,
    the normalised signature of the function is used.  The class chains on
    [chain_on], or on nothing. *)
Theorem composer_class_follows_signatures (meta meta' : MetaMethodComposer)
    (r : request) (c : MethodComposer) :
  cache_wf meta →
  serve r meta = (meta', Ok c) →
  steps c = [(r_func_id r, Some (r_func r))]
  ∧ __self__ c = r_obj r
  ∧ class_chain (__class__ c) = default "" (r_chain_on r)
  ∧ (∀ s l, r_signatures r = Some (s :: l) →
       _signatures c = s :: l ∧ class_args (__class__ c) = drop 1 s)
  ∧ (r_signatures r = None ∨ r_signatures r = Some [] →
     _signatures c = [normalize_signature (parameters (r_func r)) (r_alias r)]
     ∧ class_args (__class__ c)
       = drop 1 (normalize_signature (parameters (r_func r)) (r_alias r))).
Proof.
  intros Hwf Hserve.
  destruct (serve_wf _ _ _ _ Hwf Hserve) as (_ & _ & Hargs & Hchain).
  destruct (serve_run r meta) as (cls & Hrun & _).
  rewrite Hserve in Hrun. injection Hrun as _ ->.
  cbn in *. split_and!; [done..| |].
  - intros s l Hs. unfold request_key in *. rewrite Hs in *. by cbn in *.
  - intros Hs. unfold request_key in *.
    destruct Hs as [Hs|Hs]; rewrite Hs in *; by cbn in *.
Qed.

Lemma composer_class_follows_signatures_witness :
  cache_wf no_classes
  ∧ ∃ meta' c,
      serve second_request no_classes = (meta', Ok c)
      ∧ class_args (__class__ c) = ["driver"; "value"]
      ∧ class_chain (__class__ c) = "value".
Proof.
  assert (H1 : cache_wf no_classes) by apply cache_wf_no_classes.
  split; [exact H1|]. eexists _, _. split; [reflexivity|].
  destruct (composer_class_follows_signatures no_classes _ second_request _
              H1 eq_refl) as (_ & _ & Hchain & _ & Hnone).
  destruct (Hnone (or_introl eq_refl)) as [_ Hargs].
  split; [exact Hargs|exact Hchain].
Defined.

(** ** More of the call of a composer *)

Lemma bind_args_arity toks args :
  Forall bare toks → length args ≠ length toks →
  bind_args toks args = Raise TypeError.
Proof.
  intros Hb. revert args. induction Hb as [|tok toks Htok _ IH]; intros args Hlen.
  - by destruct args.
  - cbn. rewrite Htok. destruct args as [|v args]; [done|].
    rewrite IH; [done|]. cbn in Hlen. lia.
Qed.

Section CallMore.

Context {W : Type}.
Variable call : Func → nat → list pyval → list (string * pyval) → M W pyval.

Lemma call_chained (self : MethodComposer) args t i acc w :
  Forall bare (class_args (__class__ self)) →
  NoDup (class_args (__class__ self)) →
  "m" ∉ class_args (__class__ self) →
  length args = length (class_args (__class__ self)) →
  chain_targets (class_chain (__class__ self)) = [t] →
  class_args (__class__ self) !! i = Some t →
  args !! i = Some acc →
  __call__ call self args w
  = thread_accumulator call (__self__ self) (_methods self) args i acc w.
Proof.
  intros Hb Hnd Hm Hlen Ht Hi Hacc. unfold __call__. rewrite Ht.
  rewrite <- (run_methods_chained call _ _ t i _ args acc
                (frame (class_args (__class__ self)) args)) by done.
  munfold. by rewrite bind_args_frame.
Qed.

Lemma call_unchained (self : MethodComposer) args w :
  Forall bare (class_args (__class__ self)) →
  NoDup (class_args (__class__ self)) →
  "m" ∉ class_args (__class__ self) →
  length args = length (class_args (__class__ self)) →
  class_chain (__class__ self) = "" →
  __call__ call self args w
  = run_for_effect call (__self__ self) (_methods self) args w.
Proof.
  intros Hb Hnd Hm Hlen Hchain. unfold __call__. rewrite Hchain.
  cbn [chain_targets].
  rewrite <- (run_methods_unchained call _ (class_args (__class__ self))
                _ args (frame (class_args (__class__ self)) args)) by done.
  munfold. by rewrite bind_args_frame.
Qed.

(** The loop over the steps, cut in two. *)
Lemma run_methods_app owner toks targets ms1 ms2 env w :
  run_methods call owner toks targets (ms1 ++ ms2) env w
  = (env' ← run_methods call owner toks targets ms1 env;
     run_methods call owner toks targets ms2 env') w.
Proof.
  revert env w. induction ms1 as [|m ms1 IH]; intros env w; [done|].
  cbn. munfold.
  destruct (eval_args toks _) as [[pos kw]|e]; [|done]. cbn.
  destruct m as [f|]; [|done]. cbn.
  destruct (call f owner pos kw w) as [w' [r|e]]; [|done]. cbn.
  destruct (assign targets r _) as [env'|e]; [|done]. cbn.
  apply IH.
Qed.

Lemma assign_all_bound targets vals env x :
  is_Some (env !! x) → is_Some (assign_all targets vals env !! x).
Proof.
  revert vals env. induction targets as [|t targets IH]; intros vals env Hx;
    [done|].
  destruct vals as [|v vals]; [done|]. cbn. apply IH.
  destruct (decide (x = t)) as [->|Hne].
  - rewrite lookup_insert_eq. by eexists.
  - by rewrite lookup_insert_ne.
Qed.

Lemma assign_bound targets r env env' x :
  assign targets r env = Ok env' → is_Some (env !! x) → is_Some (env' !! x).
Proof.
  unfold assign. destruct targets as [|t [|t' targets]].
  - by intros [= <-].
  - intros [= <-] Hx. destruct (decide (x = t)) as [->|Hne].
    + rewrite lookup_insert_eq. by eexists.
    + by rewrite lookup_insert_ne.
  - munfold. destruct (iterate r) as [vals|e]; [|done]. cbn.
    destruct (decide _); [|done]. intros [= <-] Hx.
    exact (assign_all_bound (t :: t' :: targets) vals env x Hx).
Qed.

(** The loop leaves the variables that are bound bound. *)
Lemma run_methods_bound owner toks targets ms env w w' env' x :
  run_methods call owner toks targets ms env w = (w', Ok env') →
  is_Some (env !! x) → is_Some (env' !! x).
Proof.
  revert env w. induction ms as [|m ms IH]; intros env w.
  { by intros [= _ <-]. }
  cbn. munfold.
  destruct (eval_args toks _) as [[pos kw]|e]; [|done]. cbn.
  destruct m as [f|]; [|done]. cbn.
  destruct (call f owner pos kw w) as [w1 [r|e]]; [|done]. cbn.
  destruct (assign targets r _) as [env1|e] eqn:Hassign; [|done]. cbn.
  intros Hrun Hx. apply (IH _ _ Hrun). apply (assign_bound _ _ _ _ _ Hassign).
  destruct (decide (x = "m")) as [->|Hne].
  - rewrite lookup_insert_eq. by eexists.
  - by rewrite lookup_insert_ne.
Qed.

Lemma thread_accumulator_app owner ms1 ms2 args i acc w :
  thread_accumulator call owner (ms1 ++ ms2) args i acc w
  = (r ← thread_accumulator call owner ms1 args i acc;
     thread_accumulator call owner ms2 args i r) w.
Proof.
  revert acc w. induction ms1 as [|m ms1 IH]; intros acc w; [done|].
  cbn. munfold.
  destruct (call_step call owner m (<[i:=acc]> args) w) as [w' [r|e]]; [|done].
  apply IH.
Qed.

Lemma run_for_effect_app owner ms1 ms2 args w :
  run_for_effect call owner (ms1 ++ ms2) args w
  = (run_for_effect call owner ms1 args;;
     run_for_effect call owner ms2 args) w.
Proof.
  revert w. induction ms1 as [|m ms1 IH]; intros w; [done|].
  cbn. munfold.
  destruct (call_step call owner m args w) as [w' [r|e]]; [|done].
  apply IH.
Qed.

Lemma append_methods c c' name_ method :
  Composer.append name_ method c = (c', Ok tt) →
  __class__ c' = __class__ c ∧ __self__ c' = __self__ c
  ∧ _methods c' = _methods c ++ [method].
Proof.
  unfold Composer.append. munfold. rewrite check_duplicates_run.
  destruct (decide _); [done|]. by intros [= <-].
Qed.

Lemma prepend_methods c c' name_ method :
  Composer.prepend name_ method c = (c', Ok tt) →
  __class__ c' = __class__ c ∧ __self__ c' = __self__ c
  ∧ _methods c' = method :: _methods c.
Proof.
  unfold Composer.prepend. munfold. rewrite check_duplicates_run.
  destruct (decide _); [done|]. by intros [= <-].
Qed.

(** X10: how a step added at an end composes with the call, for a class
    that takes plain parameters, none of them called [m].  With a chain,
    calling the composer after [append] is calling the composer as it was
    and then the new step, with what the composer returned in the place of
    the chained argument; after [prepend], it is calling the new step and
    then the composer as it was, with what the step returned in the place of
    the chained argument.  Without a chain, the new step is called with the
    arguments of the call after, or before, the other steps, and the result
    is [None]. *)
Theorem call_after_insertion_at_an_end (c c' : MethodComposer) (name_ : string)
    (method : PyFunc) (args : list pyval) (w : W) :
  Forall bare (class_args (__class__ c)) →
  NoDup (class_args (__class__ c)) →
  "m" ∉ class_args (__class__ c) →
  length args = length (class_args (__class__ c)) →
  (∀ t i acc,
     chain_targets (class_chain (__class__ c)) = [t] →
     class_args (__class__ c) !! i = Some t →
     args !! i = Some acc →
     (Composer.append name_ method c = (c', Ok tt) →
      __call__ call c' args w
      = (r ← __call__ call c args;
         call_step call (__self__ c) method (<[i := r]> args)) w)
     ∧ (Composer.prepend name_ method c = (c', Ok tt) →
        __call__ call c' args w
        = (r ← call_step call (__self__ c) method args;
           __call__ call c (<[i := r]> args)) w))
  ∧ (class_chain (__class__ c) = "" →
     (Composer.append name_ method c = (c', Ok tt) →
      __call__ call c' args w
      = (__call__ call c args;;
         call_step call (__self__ c) method args;; mret VNone) w)
     ∧ (Composer.prepend name_ method c = (c', Ok tt) →
        __call__ call c' args w
        = (call_step call (__self__ c) method args;;
           __call__ call c args) w)).
Proof.
  intros Hb Hnd Hm Hlen. split.
  - intros t i acc Ht Hi Hacc. split.
    + intros (Hcls & Hself & Hms)%append_methods.
      rewrite (call_chained c' args t i acc) by (by rewrite ?Hcls).
      rewrite Hms, Hself, thread_accumulator_app. munfold.
      rewrite (call_chained c args t i acc) by done.
      destruct (thread_accumulator _ _ _ _ _ _ w) as [w1 [r|e]]; [|done].
      munfold. by destruct (call_step _ _ _ _ w1) as [w2 [r'|e]].
    + intros (Hcls & Hself & Hms)%prepend_methods.
      rewrite (call_chained c' args t i acc) by (by rewrite ?Hcls).
      rewrite Hms, Hself. cbn. rewrite (list_insert_id args i acc) by done.
      munfold.
      destruct (call_step _ _ _ _ w) as [w1 [r|e]]; [|done].
      rewrite (call_chained c (<[i := r]> args) t i r);
        [|done|done|done| |done|done|].
      * by rewrite thread_accumulator_insert.
      * by rewrite length_insert.
      * apply list_lookup_insert_eq. by eapply lookup_lt_Some.
  - intros Hchain. split.
    + intros (Hcls & Hself & Hms)%append_methods.
      rewrite (call_unchained c' args) by (by rewrite ?Hcls).
      rewrite Hms, Hself, run_for_effect_app. munfold.
      rewrite (call_unchained c args) by done.
      destruct (run_for_effect _ _ _ _ w) as [w1 [r|e]]; [|done].
      munfold. by destruct (call_step _ _ _ _ w1) as [w2 [r'|e]].
    + intros (Hcls & Hself & Hms)%prepend_methods.
      rewrite (call_unchained c' args) by (by rewrite ?Hcls).
      rewrite Hms, Hself. cbn. munfold.
      destruct (call_step _ _ _ _ w) as [w1 [r|e]]; [|done].
      by rewrite (call_unchained c args) by done.
Qed.

End CallMore.

Lemma call_after_insertion_at_an_end_witness :
  Forall bare (class_args (__class__ (three_steps "value")))
  ∧ NoDup (class_args (__class__ (three_steps "value")))
  ∧ ("m" ∉ class_args (__class__ (three_steps "value")))
  ∧ length [VStr "driver"; VInt 0]
    = length (class_args (__class__ (three_steps "value")))
  ∧ ∃ c', Composer.append "f4" (Some (step 4)) (three_steps "value")
          = (c', Ok tt)
          ∧ __call__ add_one c' [VStr "driver"; VInt 0] []
            = ([VInt 0; VInt 1; VInt 2; VInt 3], Ok (VInt 4)).
Proof.
  assert (Hb : Forall bare (class_args (__class__ (three_steps "value"))))
    by (repeat constructor).
  assert (Hnd : NoDup (class_args (__class__ (three_steps "value"))))
    by (apply (bool_decide_unpack _); vm_compute; exact I).
  assert (Hm : "m" ∉ class_args (__class__ (three_steps "value")))
    by (apply (bool_decide_unpack _); vm_compute; exact I).
  split_and!; [exact Hb|exact Hnd|exact Hm|reflexivity|].
  eexists. split; [reflexivity|].
  etrans; [|reflexivity].
  exact (proj1 (proj1 (call_after_insertion_at_an_end add_one
                  (three_steps "value") _ "f4" (Some (step 4))
                  [VStr "driver"; VInt 0] [] Hb Hnd Hm eq_refl)
                "value" 1 (VInt 0) eq_refl eq_refl eq_refl) eq_refl).
Defined.

(** X11: a call that raises with the first steps only raises the same with
    all the steps, in the state the failure left: the steps after the one
    that raised are not run. *)
Theorem call_stops_at_first_failure {W : Type}
    (call : Func → nat → list pyval → list (string * pyval) → M W pyval)
    (self : MethodComposer) (first rest : list PyFunc) (args : list pyval)
    (w w' : W) (e : exn) :
  Forall bare (class_args (__class__ self)) →
  NoDup (class_args (__class__ self)) →
  length args = length (class_args (__class__ self)) →
  class_chain (__class__ self) = ""
  ∨ (∃ t, chain_targets (class_chain (__class__ self)) = [t]
          ∧ t ∈ class_args (__class__ self)) →
  _methods self = first ++ rest →
  __call__ call (set_methods first self) args w = (w', Raise e) →
  __call__ call self args w = (w', Raise e).
Proof.
  intros Hb Hnd Hlen Hchain Hms. unfold __call__. cbn. rewrite Hms. munfold.
  rewrite bind_args_frame by done. rewrite run_methods_app. munfold.
  destruct (run_methods call _ _ _ first _ w) as [w1 [env1|e1]] eqn:Hfirst;
    [|done].
  intros Hret. exfalso.
  destruct Hchain as [Hchain|(t & Hchain & Hin)]; rewrite Hchain in *; [done|].
  apply list_elem_of_lookup in Hin as [i Hi].
  destruct (lookup_lt_is_Some_2 args i) as [acc Hacc].
  { rewrite Hlen. by eapply lookup_lt_Some. }
  pose proof (frame_lookup _ _ _ _ _ Hnd Hi Hacc) as Hbound.
  destruct (run_methods_bound call _ _ _ _ _ _ _ _ t Hfirst) as [v Hv].
  { by eexists. }
  cbn in Hret. unfold read_var in Hret. by rewrite Hv in Hret.
Qed.

Lemma call_stops_at_first_failure_witness :
  Forall bare (class_args (__class__ (three_steps "value")))
  ∧ NoDup (class_args (__class__ (three_steps "value")))
  ∧ __call__ add_one (set_methods [Some (step 1); None] (three_steps "value"))
      [VStr "driver"; VInt 0] []
    = ([VInt 0], Raise TypeError)
  ∧ __call__ add_one
      (set_methods [Some (step 1); None; Some (step 3)] (three_steps "value"))
      [VStr "driver"; VInt 0] []
    = ([VInt 0], Raise TypeError).
Proof.
  assert (Hb : Forall bare (class_args (__class__ (three_steps "value"))))
    by (repeat constructor).
  assert (Hnd : NoDup (class_args (__class__ (three_steps "value"))))
    by (apply (bool_decide_unpack _); vm_compute; exact I).
  split_and!; [exact Hb|exact Hnd|reflexivity|].
  apply (call_stops_at_first_failure add_one
           (set_methods [Some (step 1); None; Some (step 3)] (three_steps "value"))
           [Some (step 1); None] [Some (step 3)]
           [VStr "driver"; VInt 0] [] [VInt 0] TypeError Hb Hnd eq_refl).
  - right. exists "value". split; [reflexivity|].
    apply list_elem_of_further, list_elem_of_here.
  - reflexivity.
  - reflexivity.
Defined.

(** X12: the generated [__call__] takes as many positional arguments as
    the first signature has tokens after the first one: with plain
    parameters, a call with another number of arguments raises [TypeError]
    before any step is run. *)
Theorem call_with_wrong_arity {W : Type}
    (call : Func → nat → list pyval → list (string * pyval) → M W pyval)
    (self : MethodComposer) (args : list pyval) (w : W) :
  Forall bare (class_args (__class__ self)) →
  length args ≠ length (class_args (__class__ self)) →
  __call__ call self args w = (w, Raise TypeError).
Proof.
  intros Hb Hlen. unfold __call__. munfold. by rewrite bind_args_arity.
Qed.

Lemma call_with_wrong_arity_witness :
  Forall bare (class_args (__class__ (three_steps "value")))
  ∧ length [VInt 0] ≠ length (class_args (__class__ (three_steps "value")))
  ∧ __call__ add_one (three_steps "value") [VInt 0] [] = ([], Raise TypeError).
Proof.
  assert (Hb : Forall bare (class_args (__class__ (three_steps "value"))))
    by (repeat constructor).
  assert (Hlen : length [VInt 0]
                 ≠ length (class_args (__class__ (three_steps "value"))))
    by discriminate.
  split_and!; [exact Hb|exact Hlen|].
  exact (call_with_wrong_arity add_one (three_steps "value") [VInt 0] [] Hb Hlen).
Defined.

(** ** Signatures with variadic parameters *)

Lemma eval_args_bind toks args env env' :
  bind_args toks args = Ok env →
  NoDup (parameter_names toks) →
  (∀ x, x ∈ parameter_names toks → env' !! x = env !! x) →
  eval_args toks env' = Ok (args, []).
Proof.
  revert args env. induction toks as [|tok toks IH]; intros args env.
  { cbn. destruct args; [done|]. done. }
  unfold parameter_names. rewrite fmap_cons. fold (parameter_names toks).
  cbn [bind_args eval_args]. destruct (read_token tok) as [kind_ x] eqn:Htok.
  cbn [snd]. intros Hbind [Hx Hnd]%NoDup_cons Henv.
  assert (∀ env0 v, env = <[x := v]> env0 →
            env' !! x = Some v
            ∧ ∀ y, y ∈ parameter_names toks → env' !! y = env0 !! y) as Hsplit.
  { intros env0 v ->. split.
    - rewrite Henv by apply list_elem_of_here. apply lookup_insert_eq.
    - intros y Hy. rewrite Henv by (by apply list_elem_of_further).
      apply lookup_insert_ne. by intros ->. }
  destruct kind_.
  - destruct args as [|v args]; [done|]. munfold.
    destruct (bind_args toks args) as [env0|] eqn:Hb; [|done].
    injection Hbind as <-. destruct (Hsplit env0 v eq_refl) as [Hv Hrest].
    unfold read_var. rewrite Hv. cbn.
    by rewrite (IH args env0 Hb Hnd Hrest).
  - munfold. destruct (bind_args toks []) as [env0|] eqn:Hb; [|done].
    injection Hbind as <-.
    destruct (Hsplit env0 (VTuple args) eq_refl) as [Hv Hrest].
    unfold read_var. rewrite Hv. cbn.
    rewrite (IH [] env0 Hb Hnd Hrest). cbn. by rewrite app_nil_r.
  - munfold. destruct (bind_args toks args) as [env0|] eqn:Hb; [|done].
    injection Hbind as <-.
    destruct (Hsplit env0 (VDict []) eq_refl) as [Hv Hrest].
    unfold read_var. rewrite Hv. cbn.
    by rewrite (IH args env0 Hb Hnd Hrest).
Qed.

(** X13: without a chain, whatever the parameters of the class, variadic
    ones included, as long as none of them is called [m], a call whose
    positional arguments fit the parameters calls every step, in order, with
    the owner and these very arguments, and returns [None]; a call whose
    arguments do not fit raises before any step is run. *)
Theorem unchained_steps_receive_the_arguments {W : Type}
    (call : Func → nat → list pyval → list (string * pyval) → M W pyval)
    (self : MethodComposer) (args : list pyval) (w : W) :
  NoDup (parameter_names (class_args (__class__ self))) →
  "m" ∉ parameter_names (class_args (__class__ self)) →
  class_chain (__class__ self) = "" →
  __call__ call self args w
  = match bind_args (class_args (__class__ self)) args with
    | Ok _ => run_for_effect call (__self__ self) (_methods self) args w
    | Raise e => (w, Raise e)
    end.
Proof.
  intros Hnd Hm Hchain. unfold __call__. rewrite Hchain. cbn [chain_targets].
  munfold.
  destruct (bind_args (class_args (__class__ self)) args) as [env|e] eqn:Hbind;
    [|done].
  assert (∀ env', (∀ x, x ∈ parameter_names (class_args (__class__ self)) →
                        env' !! x = env !! x) →
            (env'' ← run_methods call (__self__ self)
                       (class_args (__class__ self)) [] (_methods self) env';
             lift (return_value [] env'')) w
            = run_for_effect call (__self__ self) (_methods self) args w)
    as Hloop; [|by apply (Hloop env)].
  revert w. induction (_methods self) as [|m ms IH]; intros w env' Henv; [done|].
  assert (∀ x, x ∈ parameter_names (class_args (__class__ self)) →
            <["m" := step_value m]> env' !! x = env !! x) as Henv1.
  { intros x Hx. rewrite lookup_insert_ne by (by intros <-). by apply Henv. }
  pose proof (eval_args_bind _ _ _ _ Hbind Hnd Henv1) as Heval.
  cbn. munfold. rewrite Heval. cbn. unfold call_step. munfold.
  destruct m as [f|]; [|done]. cbn.
  destruct (call f (__self__ self) args [] w) as [w' [r|e]]; [|done].
  by apply IH.
Qed.

Lemma unchained_steps_receive_the_arguments_witness :
  NoDup (parameter_names (class_args (__class__ variadic_steps)))
  ∧ ("m" ∉ parameter_names (class_args (__class__ variadic_steps)))
  ∧ class_chain (__class__ variadic_steps) = ""
  ∧ __call__ log_args variadic_steps [VStr "driver"; VInt 1; VInt 2] []
    = ([[VStr "driver"; VInt 1; VInt 2]; [VStr "driver"; VInt 1; VInt 2]],
       Ok VNone).
Proof.
  assert (H1 : NoDup (parameter_names (class_args (__class__ variadic_steps))))
    by (apply (bool_decide_unpack _); vm_compute; exact I).
  assert (H2 : "m" ∉ parameter_names (class_args (__class__ variadic_steps)))
    by (apply (bool_decide_unpack _); vm_compute; exact I).
  split_and!; [exact H1|exact H2|reflexivity|].
  etrans; [|reflexivity].
  exact (unchained_steps_receive_the_arguments log_args variadic_steps
           [VStr "driver"; VInt 1; VInt 2] [] H1 H2 eq_refl).
Defined.

(** ** More of [modify_behavior] *)

Lemma removed_step_is_gone_aux c x :
  composer_inv c → x ∈ _names c →
  ∃ c', Composer.remove x c = (c', Ok tt)
        ∧ steps c' = strip x (steps c)
        ∧ Composer.__contains__ x c' = false.
Proof.
  intros Hinv Hin. destruct (remove_runs c x Hinv Hin) as [c' Hrun].
  exists c'. split; [done|].
  assert (composer_inv c') as Hinv'.
  { pose proof (composer_inv_remove c x Hinv) as H. by rewrite Hrun in H. }
  pose proof (inv_length _ Hinv) as Hlen.
  pose proof (inv_length _ Hinv') as Hlen'.
  assert (steps c' = strip x (steps c)) as Hsteps.
  { destruct (steps_remove _ _ _ Hrun) as (i & Hi & ->).
    destruct (steps_lookup c i x Hlen (index_lookup _ _ _ Hi)) as [g Hg].
    apply (delete_strip _ g); [|done]. rewrite steps_names by done.
    apply Hinv. }
  split; [done|]. apply bool_decide_eq_false.
  rewrite <- steps_names, Hsteps by done. rewrite strip_names. tauto.
Qed.

Section ModifyBehaviorMore.

Variable analyse_function :
  SupportMethodCustomization → string → PyFunc → list string → result Analysis.

(** X14: a modification marked as internal leaves the record of
    modifications exactly as it is, whatever it does and whether it goes
    through or raises. *)
Theorem internal_modification_not_recorded (method_name : string)
    (func_ : PyFunc) (specifiers_ : list string) (modif_id_ : string)
    (h : Heap) :
  _customs (self (modify_behavior analyse_function method_name func_
                    specifiers_ modif_id_ true h).1)
  = _customs (self h).
Proof.
  rewrite modify_behavior_run. cbn zeta. unfold intent_recorded.
  destruct (if _ || _ then _ else _) as [[[[|k sp'] sg] ch]|e]; [| |done].
  - unfold replace_method, on_self. munfold. by destruct func_.
  - rewrite compose_method_run.
    destruct (methods (self h) !! method_name) as [current|]; [|done].
    destruct (composer_for _ _ _ _ _) as [meta' c].
    destruct (update_composer _ _ _ c) as [c' [[]|e]]; [done|].
    by destruct current.
Qed.

(** X15: when [analyse_function] refuses the function, [modify_behavior]
    raises what it raised and no method is touched; but the intent was
    recorded before the function was analysed, and stays recorded: a whole
    replacement that was refused is on record all the same. *)
Theorem refused_function_changes_no_method (method_name : string)
    (func_ : PyFunc) (specifiers_ : list string) (modif_id_ : string)
    (internal_ : bool) (h : Heap) (e : exn) :
  specifiers_ !! 0 ≠ Some "remove" →
  analyse_function
    (self (intent_recorded method_name func_ specifiers_ internal_ h))
    method_name func_ specifiers_ = Raise e →
  ∃ h',
    modify_behavior analyse_function method_name func_ specifiers_ modif_id_
      internal_ h = (h', Raise e)
    ∧ methods (self h') = methods (self h)
    ∧ _old_ids (self h') = _old_ids (self h)
    ∧ metaclass h' = metaclass h
    ∧ _customs (self h')
      = (if internal_ then _customs (self h)
         else record_intent method_name func_ specifiers_ (_customs (self h)))
    ∧ (internal_ = false → specifiers_ = [] →
       od_get method_name (_customs (self h')) = Some (Replacement func_)).
Proof.
  intros Hsp Hhook. eexists. rewrite modify_behavior_run. cbn zeta.
  rewrite (bool_decide_eq_false_2 (specifiers_ !! 0 = Some "remove")) by done.
  rewrite orb_true_r, Hhook. split; [done|].
  unfold intent_recorded. destruct internal_; [done|]. cbn.
  split_and!; [done..|]. intros _ ->. unfold record_intent.
  apply od_get_set_eq.
Qed.

(** X16: when no specifiers are left, because none was given or because
    [analyse_function] returned none, the method is replaced by the
    function, bound to the object, and the id to give it in a composer is
    remembered: [old] when no specifiers were given, the id of the
    modification otherwise.  The record holds the function when no specifiers
    were given; otherwise it holds for the method the modifications it held
    before, and nothing for this one. *)
Theorem method_replaced_when_no_specifiers_left (method_name : string)
    (f : Func) (specifiers_ : list string) (modif_id_ : string)
    (internal_ : bool) (h : Heap) (sigs_ : option (list Sig))
    (chain_on : option string) :
  specifiers_ !! 0 ≠ Some "remove" →
  analyse_function
    (self (intent_recorded method_name (Some f) specifiers_ internal_ h))
    method_name (Some f) specifiers_ = Ok ([], sigs_, chain_on) →
  ∃ h',
    modify_behavior analyse_function method_name (Some f) specifiers_ modif_id_
      internal_ h = (h', Ok tt)
    ∧ methods (self h') = <[method_name := Bound f]> (methods (self h))
    ∧ _old_ids (self h')
      = <[method_name := match specifiers_ with [] => "old" | _ => modif_id_ end]>
          (_old_ids (self h))
    ∧ metaclass h' = metaclass h
    ∧ (internal_ = false →
       match specifiers_ with
       | [] => od_get method_name (_customs (self h'))
               = Some (Replacement (Some f))
       | _ => od_get method_name (_customs (self h'))
              = Some (Mapping (customs_of method_name (self h)))
       end).
Proof.
  intros Hsp Hhook. eexists. rewrite modify_behavior_run. cbn zeta.
  rewrite (bool_decide_eq_false_2 (specifiers_ !! 0 = Some "remove")) by done.
  rewrite orb_true_r, Hhook.
  unfold replace_method, on_self. munfold. split; [done|]. cbn.
  unfold intent_recorded. destruct internal_; [done|]. cbn.
  split_and!; [done..|]. intros _.
  destruct specifiers_ as [|kind_ rest].
  - unfold record_intent. apply od_get_set_eq.
  - apply od_get_record_intent.
Qed.

Lemma update_composer_remove_run x rest modif_id_ func_ c :
  update_composer ("remove" :: x :: rest) modif_id_ func_ c = Composer.remove x c.
Proof. reflexivity. Qed.

Lemma update_composer_replace_run x rest modif_id_ func_ c :
  update_composer ("replace" :: x :: rest) modif_id_ func_ c
  = Composer.replace x func_ c.
Proof. reflexivity. Qed.

Lemma od_del_notin {V} k (d : list (string * V)) :
  k ∉ d.*1 → od_del k d = Raise KeyError.
Proof.
  induction d as [|[k' v] d IH]; [done|]. rewrite fmap_cons.
  intros [Hne Hk]%not_elem_of_cons. unfold od_del; fold (@od_del V).
  rewrite decide_False by done. by rewrite IH.
Qed.

(** X17: removing, by a modification that is not internal, a step under an
    id the record of the method does not have (the original step, a step
    added by an internal modification, or a step named by the specifiers
    while the id of the modification is another) takes the step out of the
    composer and then raises [KeyError]: the step is gone when the exception
    is seen. *)
Theorem removal_under_unrecorded_id (method_name : string) (func_ : PyFunc)
    (x : string) (rest : list string) (modif_id_ : string) (h : Heap)
    (c : MethodComposer) :
  methods (self h) !! method_name = Some (Composed c) →
  composer_inv c → x ∈ _names c →
  modif_id_ ∉ (customs_of method_name (self h)).*1 →
  ∃ h' c',
    modify_behavior analyse_function method_name func_ ("remove" :: x :: rest)
      modif_id_ false h = (h', Raise KeyError)
    ∧ methods (self h') !! method_name = Some (Composed c')
    ∧ steps c' = strip x (steps c)
    ∧ Composer.__contains__ x c' = false.
Proof.
  intros Hm Hinv Hx Hid.
  destruct (removed_step_is_gone_aux c x Hinv Hx) as (c' & Hrun & Hsteps & Hgone).
  eexists _, c'. rewrite modify_behavior_run. cbn zeta.
  rewrite (bool_decide_eq_true_2 (("remove" :: x :: rest) !! 0 = Some "remove"))
    by done.
  rewrite (bool_decide_eq_false_2 ("remove" :: x :: rest = [])) by done.
  cbn [orb negb]. rewrite compose_method_run. unfold intent_recorded. cbn.
  rewrite Hm. cbn. rewrite update_composer_remove_run, Hrun.
  rewrite od_get_record_intent, update_customs_remove, od_del_notin by done.
  split_and!; [done| |done..]. cbn. apply lookup_insert_eq.
Qed.


(** X18: replacing, by a modification that is not internal, a step the
    record of the method has no entry for (the original step, or a step added
    by an internal modification) goes through, and is recorded under the id
    of the replaced step as an insertion of the new function where the step
    stands: first, or after the step that comes before it. *)
Theorem replacement_of_unrecorded_step (method_name : string) (func_ : PyFunc)
    (x : string) (rest : list string) (modif_id_ : string) (h : Heap)
    (c : MethodComposer) (i : nat) (sigs_ : option (list Sig))
    (chain_on : option string) :
  methods (self h) !! method_name = Some (Composed c) →
  composer_inv c → _names c !! i = Some x →
  x ∉ (customs_of method_name (self h)).*1 →
  analyse_function
    (self (intent_recorded method_name func_ ("replace" :: x :: rest) false h))
    method_name func_ ("replace" :: x :: rest)
  = Ok ("replace" :: x :: rest, sigs_, chain_on) →
  ∃ h' c' where_,
    modify_behavior analyse_function method_name func_ ("replace" :: x :: rest)
      modif_id_ false h = (h', Ok tt)
    ∧ methods (self h') !! method_name = Some (Composed c')
    ∧ steps c' = retarget x func_ (steps c)
    ∧ customs_of method_name (self h')
      = customs_of method_name (self h) ++ [(x, (func_, where_))]
    ∧ match i with
      | 0 => where_ = ["prepend"]
      | S j => ∃ n, _names c !! j = Some n ∧ where_ = ["add_after"; n]
      end.
Proof.
  intros Hm Hinv Hi Hx Hhook.
  pose proof (inv_length _ Hinv) as Hlen.
  assert (x ∈ _names c) as Hin by (by eapply list_elem_of_lookup_2).
  destruct (replace_runs c x func_ Hinv Hin) as (c' & Hrun & Hnames).
  assert (steps c' = retarget x func_ (steps c)) as Hsteps.
  { destruct (steps_replace _ _ _ _ Hrun) as (i' & Hi' & ->).
    destruct (steps_lookup c i' x Hlen (index_lookup _ _ _ Hi')) as [g Hg].
    apply (insert_retarget _ _ g); [|done]. rewrite steps_names by done.
    apply Hinv. }
  assert (index x (_names c') = Ok i) as Hindex.
  { rewrite Hnames. apply index_NoDup; [apply Hinv|done]. }
  set (where_ := match i with
                 | 0 => ["prepend"]
                 | S j => ["add_after"; default "" (_names c !! j)]
                 end).
  assert (update_customs c' func_ ("replace" :: x :: rest) modif_id_
            (customs_of method_name (self h))
          = Ok (customs_of method_name (self h) ++ [(x, (func_, where_))]))
    as Hcustoms.
  { unfold update_customs. cbn. decide_kinds.
    rewrite (proj2 (od_get_None x _) Hx). rewrite Hindex. cbn. subst where_.
    destruct i as [|j]; cbn.
    - rewrite decide_True by done.
      by rewrite od_set_fresh by (by apply od_get_None).
    - rewrite decide_False by lia. rewrite Nat.sub_0_r, Hnames.
      assert (j < length (_names c)) as Hj
        by (apply lookup_lt_Some in Hi; lia).
      apply lookup_lt_is_Some in Hj as [n Hn]. unfold getitem.
      rewrite Hn. cbn. by rewrite od_set_fresh by (by apply od_get_None). }
  eexists _, c', where_. rewrite modify_behavior_run. cbn zeta.
  rewrite (bool_decide_eq_false_2
             (("replace" :: x :: rest) !! 0 = Some "remove")) by done.
  rewrite orb_true_r, Hhook. rewrite compose_method_run.
  unfold intent_recorded. cbn. rewrite Hm. cbn.
  rewrite update_composer_replace_run, Hrun.
  rewrite od_get_record_intent, Hcustoms.
  split_and!; [done| |done| |].
  - cbn. apply lookup_insert_eq.
  - unfold customs_of. cbn. by rewrite od_get_set_eq.
  - subst where_. destruct i as [|j]; [done|].
    assert (j < length (_names c)) as Hj by (apply lookup_lt_Some in Hi; lia).
    apply lookup_lt_is_Some in Hj as [n Hn]. exists n. by rewrite Hn.
Qed.

Lemma update_composer_fields specifiers_ modif_id_ func_ c :
  let c' := (update_composer specifiers_ modif_id_ func_ c).1 in
  __class__ c' = __class__ c ∧ __self__ c' = __self__ c
  ∧ _alias c' = _alias c ∧ _chain_on c' = _chain_on c
  ∧ _signatures c' = _signatures c.
Proof.
  cbn zeta. composer_unfold. rewrite ?check_duplicates_run.
  repeat (case_match; simplify_eq/=; try done).
Qed.

(** What the first modification with specifiers of a method that is still
    a plain bound method comes to, class statement executed. *)
Lemma first_composition_run (method_name : string) (g : Func)
    (func_ : PyFunc) (specifiers_ : list string) (before : bool)
    (modif_id_ : string) (internal_ : bool) (h : Heap)
    (sigs_ : option (list Sig)) (chain_on : option string) :
  let old := default "old" (_old_ids (self h) !! method_name) in
  methods (self h) !! method_name = Some (Bound g) →
  specifiers_ = [if before then "prepend" else "append"]
  ∨ specifiers_ = [if before then "add_before" else "add_after"; old] →
  analyse_function
    (self (intent_recorded method_name func_ specifiers_ internal_ h))
    method_name func_ specifiers_ = Ok (specifiers_, sigs_, chain_on) →
  (modif_id_ ≠ old →
   ∃ h' c,
     modify_behavior analyse_function method_name func_ specifiers_ modif_id_
       internal_ h = (h', Ok tt)
     ∧ methods (self h') !! method_name = Some (Composed c)
     ∧ steps c = (if before then [(modif_id_, func_); (old, Some g)]
                  else [(old, Some g); (modif_id_, func_)])
     ∧ __self__ c = id (self h)
     ∧ _alias c = self_alias (self h)
     ∧ _chain_on c = chain_on
     ∧ registered (metaclass h') c
     ∧ metaclass h'
       = (new_composer (id (self h)) g (self_alias (self h)) chain_on old
            sigs_ (metaclass h)).1)
  ∧ (modif_id_ = old →
     ∃ h',
       modify_behavior analyse_function method_name func_ specifiers_ modif_id_
         internal_ h = (h', Raise DuplicateIdentifier)
       ∧ methods (self h') = methods (self h)).
Proof.
  intros old Hm Hsp Hhook.
  assert (specifiers_ !! 0 ≠ Some "remove") as Hkind
    by (destruct Hsp as [->| ->]; by destruct before).
  assert (is_insertion specifiers_ = true) as Hins
    by (destruct Hsp as [->| ->]; by destruct before).
  assert (methods (self (intent_recorded method_name func_ specifiers_
                           internal_ h)) = methods (self h)) as Hm1
    by (unfold intent_recorded; by destruct internal_).
  assert (_old_ids (self (intent_recorded method_name func_ specifiers_
                            internal_ h)) = _old_ids (self h)) as Hold1
    by (unfold intent_recorded; by destruct internal_).
  assert (id (self (intent_recorded method_name func_ specifiers_
                      internal_ h)) = id (self h)) as Hid1
    by (unfold intent_recorded; by destruct internal_).
  assert (self_alias (self (intent_recorded method_name func_ specifiers_
                              internal_ h)) = self_alias (self h)) as Halias1
    by (unfold intent_recorded; by destruct internal_).
  assert (od_get method_name
            (_customs (self (intent_recorded method_name func_ specifiers_
                               false h)))
          = Some (Mapping (customs_of method_name (self h)))) as Hrec.
  { unfold intent_recorded. cbn.
    destruct (is_insertion_kind _ Hins) as (k & r & -> & _).
    apply od_get_record_intent. }
  pose proof (modify_behavior_run analyse_function method_name func_
                specifiers_ modif_id_ internal_ h) as Hrun.
  cbn zeta in Hrun.
  rewrite (bool_decide_eq_false_2 (specifiers_ !! 0 = Some "remove")) in Hrun
    by done.
  rewrite orb_true_r, Hhook in Hrun.
  assert (match specifiers_ with [] => "old" | _ => modif_id_ end = modif_id_)
    as Hid by (destruct Hsp as [->| ->]; done).
  rewrite Hid in Hrun.
  assert (modify_behavior analyse_function method_name func_ specifiers_
            modif_id_ internal_ h
          = compose_method method_name func_ specifiers_ modif_id_ internal_
              sigs_ chain_on
              (intent_recorded method_name func_ specifiers_ internal_ h))
    as -> by (rewrite Hrun; destruct Hsp as [->| ->]; done).
  clear Hrun. rewrite compose_method_run, Hm1, Hm. cbn [composer_for].
  assert (metaclass (intent_recorded method_name func_ specifiers_
                       internal_ h) = metaclass h) as Hmeta1
    by (unfold intent_recorded; by destruct internal_).
  rewrite Hid1, Halias1, Hold1, Hmeta1. fold old.
  destruct (new_composer (id (self h)) g (self_alias (self h)) chain_on old
              sigs_ (metaclass h)) as [meta' c0] eqn:Hnew.
  assert (_names c0 = [old] ∧ _methods c0 = [Some g]
          ∧ __self__ c0 = id (self h) ∧ _alias c0 = self_alias (self h)
          ∧ _chain_on c0 = chain_on ∧ registered meta' c0)
    as (Hns & Hms & Hself & Halias & Hchain & Hreg).
  { unfold new_composer in Hnew.
    destruct (accepted_signatures_cons g (self_alias (self h)) sigs_)
      as (s & l & Hs).
    destruct (sigs _ !! _) as [cls|] eqn:Hcls.
    - injection Hnew as <- <-. split_and!; try done.
      split; [exact Hcls|]. cbn. by rewrite Hs.
    - injection Hnew as <- <-. split_and!; try done.
      split; [|cbn; by rewrite Hs]. cbn. apply lookup_insert_eq. }
  pose proof (update_composer_fields specifiers_ modif_id_ func_ c0) as Hfields.
  cbn zeta in Hfields.
  assert (length (_names c0) = length (_methods c0)) as Hlen
    by (by rewrite Hns, Hms).
  pose proof (update_composer_insert_step specifiers_ modif_id_ func_ c0
                Hlen Hins) as Hstep.
  assert (steps c0 = [(old, Some g)]) as Hsteps0
    by (unfold steps; by rewrite Hns, Hms).
  rewrite Hsteps0 in Hstep. split.
  - intros Hne.
    assert (insert_step specifiers_ modif_id_ func_ [(old, Some g)]
            = Some (if before then [(modif_id_, func_); (old, Some g)]
                    else [(old, Some g); (modif_id_, func_)])) as Hinsert.
    { unfold insert_step. rewrite decide_False.
      2:{ cbn. by intros ?%list_elem_of_singleton. }
      destruct Hsp as [->| ->]; destruct before; cbn; decide_kinds; try done.
      all: by rewrite decide_True. }
    rewrite Hinsert in Hstep. destruct Hstep as (c & Hupd & Hsteps).
    rewrite Hupd in Hfields. cbn in Hfields.
    destruct Hfields as (Hf1 & Hf2 & Hf3 & Hf4 & Hf5).
    rewrite Hupd.
    assert (registered meta' c) as Hreg'.
    { destruct Hreg as [Hr1 Hr2]. split; [|by rewrite Hf5].
      by rewrite Hf5, Hf4, Hf1. }
    destruct internal_.
    + eexists _, c. split; [done|]. cbn.
      split_and!; [apply lookup_insert_eq|done|congruence..|done|done].
    + rewrite Hrec, update_customs_insertion by done.
      eexists _, c. split; [done|]. cbn.
      split_and!; [apply lookup_insert_eq|done|congruence..|done|done].
  - intros ->.
    assert (insert_step specifiers_ old func_ [(old, Some g)] = None) as Hinsert.
    { unfold insert_step. rewrite decide_True; [done|]. cbn.
      apply list_elem_of_here. }
    rewrite Hinsert in Hstep. destruct Hstep as (c & e & Hupd).
    assert (e = DuplicateIdentifier) as ->.
    { revert Hupd. destruct Hsp as [->| ->]; destruct before;
        composer_unfold; decide_kinds; rewrite ?decide_True by done; cbn;
        rewrite Hns; rewrite decide_True by apply list_elem_of_here;
        by intros [= _ <-]. }
    rewrite Hupd. eexists. split; [done|]. cbn. by rewrite Hm1.
Qed.

(** X19: the first modification with specifiers of a method that is still
    a plain bound method.  When it returns, it has wrapped the method in a
    composer of the object, as its only step, under the id remembered for
    it, or [old], and inserted the new step before or after it; the class of
    the composer is the one the metaclass has for the signatures and the
    chain that [analyse_function] returned.  It returns, leaving the
    metaclass as it is, when the metaclass has a class for them already and
    the id of the new step is not the id of the original step.  That id is
    refused: the call raises, the [ValueError] of the duplicates when the
    metaclass has the class already, and the method stays the bound
    method. *)
Theorem first_composition_wraps_the_method (method_name : string) (g : Func)
    (func_ : PyFunc) (specifiers_ : list string) (before : bool)
    (modif_id_ : string) (internal_ : bool) (h : Heap)
    (sigs_ : option (list Sig)) (chain_on : option string) :
  let old := default "old" (_old_ids (self h) !! method_name) in
  let key := (accepted_signatures g (self_alias (self h)) sigs_, chain_on) in
  methods (self h) !! method_name = Some (Bound g) →
  specifiers_ = [if before then "prepend" else "append"]
  ∨ specifiers_ = [if before then "add_before" else "add_after"; old] →
  analyse_function
    (self (intent_recorded method_name func_ specifiers_ internal_ h))
    method_name func_ specifiers_ = Ok (specifiers_, sigs_, chain_on) →
  (∀ h',
     modify_behavior analyse_function method_name func_ specifiers_ modif_id_
       internal_ h = (h', Ok tt) →
     modif_id_ ≠ old
     ∧ ∃ c,
         methods (self h') !! method_name = Some (Composed c)
         ∧ steps c = (if before then [(modif_id_, func_); (old, Some g)]
                      else [(old, Some g); (modif_id_, func_)])
         ∧ __self__ c = id (self h)
         ∧ _alias c = self_alias (self h)
         ∧ _chain_on c = chain_on
         ∧ registered (metaclass h') c)
  ∧ (is_Some (sigs (metaclass h) !! key) → modif_id_ ≠ old →
     ∃ h',
       modify_behavior analyse_function method_name func_ specifiers_ modif_id_
         internal_ h = (h', Ok tt)
       ∧ metaclass h' = metaclass h)
  ∧ (modif_id_ = old →
     ∃ h' e,
       modify_behavior analyse_function method_name func_ specifiers_ modif_id_
         internal_ h = (h', Raise e)
       ∧ methods (self h') = methods (self h)
       ∧ (is_Some (sigs (metaclass h) !! key) → e = DuplicateIdentifier)).
Proof.
  intros old key Hm Hsp Hhook.
  destruct (first_composition_run method_name g func_ specifiers_ before
              modif_id_ internal_ h sigs_ chain_on Hm Hsp Hhook)
    as [Hfresh Hdup].
  fold old in Hfresh, Hdup. split_and!.
  - intros h' Hrun. destruct (decide (modif_id_ = old)) as [Heq|Hne].
    + destruct (Hdup Heq) as (h'' & Hraise & _). congruence.
    + split; [done|].
      destruct (Hfresh Hne) as (h'' & c & Hok & Hc). exists c.
      assert (h'' = h') as -> by congruence. tauto.
  - intros [cls Hcls] Hne.
    destruct (Hfresh Hne) as (h' & c & Hok & _ & _ & _ & _ & _ & _ & Hmeta).
    exists h'. split; [done|]. rewrite Hmeta. unfold new_composer.
    fold key. by rewrite Hcls.
  - intros Heq. destruct (Hdup Heq) as (h' & Hraise & Hsame).
    by exists h', DuplicateIdentifier.
Qed.

(** X20: a modification with specifiers of a method the object does not
    have raises [AttributeError]: no method is added, and the metaclass is
    asked for nothing. *)
Theorem modification_of_missing_method (method_name : string) (func_ : PyFunc)
    (specifiers_ : list string) (modif_id_ : string) (internal_ : bool)
    (h : Heap) (kind_ : string) (rest : list string)
    (sigs_ : option (list Sig)) (chain_on : option string) :
  methods (self h) !! method_name = None →
  specifiers_ ≠ [] →
  (specifiers_ !! 0 ≠ Some "remove" →
   analyse_function
     (self (intent_recorded method_name func_ specifiers_ internal_ h))
     method_name func_ specifiers_ = Ok (kind_ :: rest, sigs_, chain_on)) →
  ∃ h',
    modify_behavior analyse_function method_name func_ specifiers_ modif_id_
      internal_ h = (h', Raise AttributeError)
    ∧ methods (self h') = methods (self h)
    ∧ metaclass h' = metaclass h.
Proof.
  intros Hm Hsp Hhook. rewrite modify_behavior_run. cbn zeta.
  rewrite (bool_decide_eq_false_2 (specifiers_ = [])) by done. cbn [orb].
  destruct (bool_decide (specifiers_ !! 0 = Some "remove")) eqn:Hremove;
    cbn [negb].
  - destruct specifiers_ as [|k r]; [done|].
    rewrite compose_method_run. unfold intent_recorded.
    destruct internal_; cbn; rewrite Hm; by eexists.
  - apply bool_decide_eq_false in Hremove. rewrite (Hhook Hremove).
    rewrite compose_method_run. unfold intent_recorded.
    destruct internal_; cbn; rewrite Hm; by eexists.
Qed.

(** X21: what an insertion that goes through leaves on record, under the
    id of the modification, is the function with the specifiers that
    [analyse_function] returned, which are the ones applied: when the
    analysis alters the specifiers, the record holds the altered ones. *)
Theorem recorded_specifiers_are_the_analysed_ones (method_name : string)
    (func_ : PyFunc) (specifiers_ analysed : list string) (modif_id_ : string)
    (h h' : Heap) (sigs_ : option (list Sig)) (chain_on : option string) :
  specifiers_ ≠ [] → specifiers_ !! 0 ≠ Some "remove" →
  is_insertion analysed = true →
  analyse_function
    (self (intent_recorded method_name func_ specifiers_ false h))
    method_name func_ specifiers_ = Ok (analysed, sigs_, chain_on) →
  modify_behavior analyse_function method_name func_ specifiers_ modif_id_
    false h = (h', Ok tt) →
  customs_of method_name (self h')
  = od_set modif_id_ (func_, analysed) (customs_of method_name (self h))
  ∧ ∃ c c',
      pipeline method_name (self h) = Some (_names c, _methods c)
      ∧ update_composer analysed modif_id_ func_ c = (c', Ok tt)
      ∧ methods (self h') !! method_name = Some (Composed c').
Proof.
  intros Hsp Hremove Hins Hhook. rewrite modify_behavior_run. cbn zeta.
  rewrite (bool_decide_eq_false_2 (specifiers_ !! 0 = Some "remove")) by done.
  rewrite orb_true_r, Hhook.
  destruct (is_insertion_kind _ Hins) as (k & r & -> & _).
  assert (match specifiers_ with [] => "old" | _ => modif_id_ end = modif_id_)
    as -> by (by destruct specifiers_).
  rewrite compose_method_run.
  assert (methods (self (intent_recorded method_name func_ specifiers_
                           false h)) = methods (self h)) as -> by done.
  destruct (methods (self h) !! method_name) as [current|] eqn:Hcur; [|done].
  destruct (composer_for _ _ _ _ _) as [meta' c] eqn:Hc.
  assert (pipeline method_name (self h) = Some (_names c, _methods c)) as Hp.
  { apply (composer_for_pipeline method_name current sigs_ chain_on
             (intent_recorded method_name func_ specifiers_ false h) meta' c);
      [done|exact Hc]. }
  destruct (update_composer _ _ _ c) as [c' [[]|e]] eqn:Hupd; [|done].
  assert (od_get method_name
            (_customs (self (intent_recorded method_name func_ specifiers_
                               false h)))
          = Some (Mapping (customs_of method_name (self h)))) as ->.
  { unfold intent_recorded. cbn. destruct specifiers_ as [|k0 r0]; [done|].
    apply od_get_record_intent. }
  rewrite update_customs_insertion by done. intros [= <-]. split.
  - unfold customs_of at 1. cbn. by rewrite od_get_set_eq.
  - exists c, c'. split_and!; [done..|]. cbn. apply lookup_insert_eq.
Qed.

End ModifyBehaviorMore.

Lemma refused_function_changes_no_method_witness :
  [] !! 0 ≠ Some "remove"
  ∧ refuse (self (intent_recorded "post_get" (Some (step 1)) [] false
                    (start (feature 1))))
      "post_get" (Some (step 1)) [] = Raise SignatureMismatch
  ∧ ∃ h',
      modify_behavior refuse "post_get" (Some (step 1)) [] "custom" false
        (start (feature 1)) = (h', Raise SignatureMismatch)
      ∧ methods (self h') !! "post_get" = Some (Bound f_old)
      ∧ od_get "post_get" (_customs (self h'))
        = Some (Replacement (Some (step 1))).
Proof.
  assert (H1 : ([] : list string) !! 0 ≠ Some "remove") by discriminate.
  split_and!; [exact H1|reflexivity|].
  destruct (refused_function_changes_no_method refuse "post_get"
              (Some (step 1)) [] "custom" false (start (feature 1))
              SignatureMismatch H1 eq_refl)
    as (h' & Hrun & Hm & _ & _ & _ & Hrec).
  exists h'. split_and!; [exact Hrun|by rewrite Hm|by apply Hrec].
Defined.

Lemma method_replaced_when_no_specifiers_left_witness :
  ["append"] !! 0 ≠ Some "remove"
  ∧ collapse (self (intent_recorded "post_get" (Some (step 1)) ["append"] false
                      (start (feature 1))))
      "post_get" (Some (step 1)) ["append"] = Ok ([], None, None)
  ∧ ∃ h',
      modify_behavior collapse "post_get" (Some (step 1)) ["append"] "a" false
        (start (feature 1)) = (h', Ok tt)
      ∧ pipeline "post_get" (self h') = Some (["a"], [Some (step 1)])
      ∧ od_get "post_get" (_customs (self h')) = Some (Mapping []).
Proof.
  assert (H1 : ["append"] !! 0 ≠ Some "remove") by discriminate.
  split_and!; [exact H1|reflexivity|].
  destruct (method_replaced_when_no_specifiers_left collapse "post_get"
              (step 1) ["append"] "a" false (start (feature 1)) None None
              H1 eq_refl)
    as (h' & Hrun & Hm & Hold & _ & Hrec).
  exists h'. split_and!; [exact Hrun| |by apply Hrec].
  unfold pipeline. rewrite Hm, Hold. by rewrite !lookup_insert_eq.
Defined.

Lemma removal_under_unrecorded_id_witness :
  ∃ c,
    methods (self with_step_a) !! "post_get" = Some (Composed c)
    ∧ composer_inv c
    ∧ "old" ∈ _names c
    ∧ ("custom" ∉ (customs_of "post_get" (self with_step_a)).*1)
    ∧ ∃ h' c',
        modify_behavior accept_post_get "post_get" None ["remove"; "old"]
          "custom" false with_step_a = (h', Raise KeyError)
        ∧ methods (self h') !! "post_get" = Some (Composed c')
        ∧ _names c' = ["a"].
Proof.
  eexists.
  assert (H1 : methods (self with_step_a) !! "post_get"
               = Some (Composed
                         (set_methods [Some f_old; Some (step 1)]
                            (set_names ["old"; "a"] old_composer))))
    by reflexivity.
  assert (H2 : composer_inv (set_methods [Some f_old; Some (step 1)]
                               (set_names ["old"; "a"] old_composer))).
  { apply composer_inv_intro; [done|].
    apply (bool_decide_unpack _). vm_compute. exact I. }
  assert (H3 : "old" ∈ _names (set_methods [Some f_old; Some (step 1)]
                                 (set_names ["old"; "a"] old_composer)))
    by apply list_elem_of_here.
  assert (H4 : "custom" ∉ (customs_of "post_get" (self with_step_a)).*1).
  { vm_compute. by intros [=]%list_elem_of_singleton. }
  split_and!; [exact H1|exact H2|exact H3|exact H4|].
  destruct (removal_under_unrecorded_id accept_post_get "post_get" None "old"
              [] "custom" with_step_a _ H1 H2 H3 H4)
    as (h' & c' & Hrun & Hm & Hsteps & _).
  exists h', c'. split_and!; [exact Hrun|exact Hm|].
  vm_compute in Hrun. injection Hrun as <-.
  vm_compute in Hm. by injection Hm as <-.
Defined.

Lemma replacement_of_unrecorded_step_witness :
  ∃ c,
    methods (self with_step_a) !! "post_get" = Some (Composed c)
    ∧ composer_inv c
    ∧ _names c !! 0 = Some "old"
    ∧ ("old" ∉ (customs_of "post_get" (self with_step_a)).*1)
    ∧ ∃ h',
        modify_behavior accept_post_get "post_get" (Some (step 3))
          ["replace"; "old"] "custom" false with_step_a = (h', Ok tt)
        ∧ customs_of "post_get" (self h')
          = [("a", (Some (step 1), ["append"]));
             ("old", (Some (step 3), ["prepend"]))].
Proof.
  eexists.
  assert (H1 : methods (self with_step_a) !! "post_get"
               = Some (Composed
                         (set_methods [Some f_old; Some (step 1)]
                            (set_names ["old"; "a"] old_composer))))
    by reflexivity.
  assert (H2 : composer_inv (set_methods [Some f_old; Some (step 1)]
                               (set_names ["old"; "a"] old_composer))).
  { apply composer_inv_intro; [done|].
    apply (bool_decide_unpack _). vm_compute. exact I. }
  assert (H3 : _names (set_methods [Some f_old; Some (step 1)]
                         (set_names ["old"; "a"] old_composer)) !! 0
               = Some "old") by reflexivity.
  assert (H4 : "old" ∉ (customs_of "post_get" (self with_step_a)).*1).
  { vm_compute. by intros [=]%list_elem_of_singleton. }
  split_and!; [exact H1|exact H2|exact H3|exact H4|].
  destruct (replacement_of_unrecorded_step accept_post_get "post_get"
              (Some (step 3)) "old" [] "custom" with_step_a _ 0 _ _
              H1 H2 H3 H4 eq_refl)
    as (h' & c' & where_ & Hrun & _ & _ & Hrec & ->).
  exists h'. split; [exact Hrun|]. rewrite Hrec. reflexivity.
Defined.

Lemma first_composition_wraps_the_method_witness :
  methods (self (start (feature 1))) !! "post_get" = Some (Bound f_old)
  ∧ ∃ h' c,
      modify_behavior accept_post_get "post_get" (Some (step 1))
        ["add_after"; "old"] "a" false (start (feature 1)) = (h', Ok tt)
      ∧ methods (self h') !! "post_get" = Some (Composed c)
      ∧ steps c = [("old", Some f_old); ("a", Some (step 1))].
Proof.
  assert (H1 : methods (self (start (feature 1))) !! "post_get"
               = Some (Bound f_old)) by reflexivity.
  split; [exact H1|].
  assert (Hrun : modify_behavior accept_post_get "post_get" (Some (step 1))
                   ["add_after"; "old"] "a" false (start (feature 1))
                 = ((modify_behavior accept_post_get "post_get" (Some (step 1))
                       ["add_after"; "old"] "a" false (start (feature 1))).1,
                    Ok tt))
    by (vm_compute; reflexivity).
  destruct (proj1 (first_composition_wraps_the_method accept_post_get
                     "post_get" f_old (Some (step 1)) ["add_after"; "old"]
                     false "a" false (start (feature 1)) _ _
                     H1 (or_intror eq_refl) eq_refl) _ Hrun)
    as (_ & c & Hm & Hsteps & _).
  eexists _, c. split_and!; [exact Hrun|exact Hm|exact Hsteps].
Defined.

Lemma modification_of_missing_method_witness :
  methods (self (start (feature 1))) !! "pre_set" = None
  ∧ ["append"] ≠ []
  ∧ ∃ h',
      modify_behavior accept_post_get "pre_set" (Some (step 1)) ["append"] "a"
        false (start (feature 1)) = (h', Raise AttributeError)
      ∧ methods (self h') = methods (self (start (feature 1))).
Proof.
  assert (H1 : methods (self (start (feature 1))) !! "pre_set" = None)
    by reflexivity.
  assert (H2 : ["append"] ≠ ([] : list string)) by discriminate.
  split_and!; [exact H1|exact H2|].
  destruct (modification_of_missing_method accept_post_get "pre_set"
              (Some (step 1)) ["append"] "a" false (start (feature 1))
              "append" [] _ _ H1 H2 (λ _, eq_refl))
    as (h' & Hrun & Hm & _).
  by exists h'.
Defined.

Lemma recorded_specifiers_are_the_analysed_ones_witness :
  ["add_after"; "gone"] ≠ []
  ∧ ["add_after"; "gone"] !! 0 ≠ Some "remove"
  ∧ is_insertion ["append"] = true
  ∧ ∃ h',
      modify_behavior at_the_end "post_get" (Some (step 1))
        ["add_after"; "gone"] "a" false (start (feature 1)) = (h', Ok tt)
      ∧ customs_of "post_get" (self h') = [("a", (Some (step 1), ["append"]))].
Proof.
  assert (H1 : ["add_after"; "gone"] ≠ ([] : list string)) by discriminate.
  assert (H2 : ["add_after"; "gone"] !! 0 ≠ Some "remove") by discriminate.
  assert (H3 : is_insertion ["append"] = true) by reflexivity.
  split_and!; [exact H1|exact H2|exact H3|].
  eexists. split; [reflexivity|].
  exact (proj1 (recorded_specifiers_are_the_analysed_ones at_the_end
                  "post_get" (Some (step 1)) ["add_after"; "gone"] ["append"]
                  "a" (start (feature 1)) _ _ _ H1 H2 H3 eq_refl eq_refl)).
Defined.

(** ** More of [copy_custom_behaviors] *)

Section ReplayMore.

Variable analyse_function :
  SupportMethodCustomization → string → PyFunc → list string → result Analysis.

(** X22: the replay of an insertion next to an anchor that the composer
    of the target does not have.  Let the step of the modification stand at
    position [i] among the steps of the source.  When it is neither the first
    nor the last of them, the modification is applied with, for anchor, the
    nearest step before it in the source that the target has, for
    [add_before] as for [add_after]; when there is no such step, or when the
    step is the first or the last of the source, the function is prepended. *)
Theorem degraded_replay_anchor (obj : SupportMethodCustomization)
    (meth_name_ custom_ : string) (func_ : PyFunc) (kind_ anchor : string)
    (rest : list string) (h : Heap) (source target : MethodComposer) (i : nat) :
  kind_ = "add_after" ∨ kind_ = "add_before" →
  methods (self h) !! meth_name_ = Some (Composed target) →
  anchor ∉ _names target →
  methods obj !! meth_name_ = Some (Composed source) →
  index custom_ (_names source) = Ok i →
  copy_modifier analyse_function obj meth_name_ custom_
    (func_, kind_ :: anchor :: rest) h
  = modify_behavior analyse_function meth_name_ func_
      (match (if decide (0 < i ∧ i + 1 < length (_names source))
              then (λ p, p.2) <$> list_find (λ n, n ∈ _names target)
                                    (reverse (take i (_names source)))
              else None) with
       | Some n => [kind_; n]
       | None => ["prepend"]
       end) custom_ false h.
Proof.
  intros Hkind Htarget Hanchor Hsource Hi.
  unfold copy_modifier, getattr. munfold. rewrite Htarget. cbn.
  rewrite bool_decide_eq_true_2.
  2:{ destruct Hkind as [->| ->]; rewrite !elem_of_cons; tauto. }
  cbn. rewrite decide_False by done. rewrite Hsource. cbn. rewrite Hi. cbn.
  assert ((if bool_decide (kind_ = "add_after") then (-1)%Z else (-1)%Z)
          = (-1)%Z) as -> by (by destruct (bool_decide _)).
  rewrite find_anchor_nearest by (by eapply index_lt).
  cbn. by destruct (if decide _ then _ else _).
Qed.

End ReplayMore.

Lemma degraded_replay_anchor_witness :
  methods (self rebuilt) !! "post_get"
  = Some (Composed (set_methods [Some f_old; Some (step 2)]
                      (set_names ["old"; "z"] (old_composer_of 2))))
  ∧ ("y" ∉ ["old"; "z"])
  ∧ methods (self w_after_y) !! "post_get"
    = Some (Composed (set_methods [Some f_old; Some (step 1); Some (step 3);
                                   Some (step 2)]
                        (set_names ["old"; "y"; "w"; "z"] old_composer)))
  ∧ index "w" ["old"; "y"; "w"; "z"] = Ok 2
  ∧ copy_modifier accept_post_get (self w_after_y) "post_get" "w"
      (Some (step 3), ["add_after"; "y"]) rebuilt
    = modify_behavior accept_post_get "post_get" (Some (step 3))
        ["add_after"; "old"] "w" false rebuilt.
Proof.
  assert (H1 : methods (self rebuilt) !! "post_get"
               = Some (Composed (set_methods [Some f_old; Some (step 2)]
                                   (set_names ["old"; "z"] (old_composer_of 2)))))
    by reflexivity.
  assert (H2 : "y" ∉ ["old"; "z"]).
  { rewrite !elem_of_cons, elem_of_nil. intros H; decompose [or] H; done. }
  assert (H3 : methods (self w_after_y) !! "post_get"
               = Some (Composed (set_methods [Some f_old; Some (step 1);
                                              Some (step 3); Some (step 2)]
                                   (set_names ["old"; "y"; "w"; "z"]
                                      old_composer))))
    by reflexivity.
  assert (H4 : index "w" ["old"; "y"; "w"; "z"] = Ok 2) by reflexivity.
  split_and!; [exact H1|exact H2|exact H3|exact H4|].
  rewrite (degraded_replay_anchor accept_post_get (self w_after_y) "post_get"
             "w" (Some (step 3)) "add_after" "y" [] rebuilt _ _ 2
             (or_introl eq_refl) H1 H2 H3 H4).
  reflexivity.
Defined.

Section ReplayOfRecords.

Variable analyse_function :
  SupportMethodCustomization → string → PyFunc → list string → result Analysis.

Hypothesis analyse_function_transparent : transparent analyse_function.

Lemma whole_replacement_run method_name f modif_id_ h :
  modify_behavior analyse_function method_name (Some f) [] modif_id_ false h
  = ({| metaclass := metaclass h;
        self := set_method method_name (Bound f)
                  (set_old_id method_name "old"
                     (set_customs
                        (od_set method_name (Replacement (Some f))
                           (_customs (self h))) (self h))) |}, Ok tt).
Proof.
  rewrite modify_behavior_run. cbn zeta. cbn [orb bool_decide].
  rewrite (bool_decide_eq_true_2 ([] = [])) by done. cbn [orb].
  destruct (analyse_function_transparent
              (self (intent_recorded method_name (Some f) [] false h))
              method_name (Some f) []) as (s & c & ->).
  reflexivity.
Qed.

Lemma copy_methods_replacements obj customs h :
  Forall (λ item, ∃ f, item.2 = Replacement (Some f)) customs →
  NoDup customs.*1 →
  ∃ h',
    copy_methods analyse_function obj customs h = (h', Ok tt)
    ∧ (∀ m f, (m, Replacement (Some f)) ∈ customs →
         methods (self h') !! m = Some (Bound f)
         ∧ _old_ids (self h') !! m = Some "old"
         ∧ od_get m (_customs (self h')) = Some (Replacement (Some f)))
    ∧ (∀ m, m ∉ customs.*1 →
         methods (self h') !! m = methods (self h) !! m
         ∧ _old_ids (self h') !! m = _old_ids (self h) !! m
         ∧ od_get m (_customs (self h')) = od_get m (_customs (self h)))
    ∧ metaclass h' = metaclass h.
Proof.
  intros Hall. revert h.
  induction Hall as [|[m0 mods] customs [f0 Hf0] _ IH]; intros h Hnd.
  { exists h. split_and!; [done| |done..]. by intros m f ?%elem_of_nil. }
  cbn in Hf0. subst mods. rewrite fmap_cons in Hnd.
  apply NoDup_cons in Hnd as [Hm0 Hnd]. cbn [copy_methods]. munfold.
  rewrite whole_replacement_run.
  set (h1 := {| metaclass := metaclass h; self := _ |}).
  destruct (IH h1 Hnd) as (h' & -> & Hin & Hout & Hmeta).
  exists h'. split_and!; [done| | |done].
  - intros m f [[= -> ->]|Hm]%elem_of_cons; [|by apply Hin].
    destruct (Hout m0 Hm0) as (-> & -> & ->). cbn.
    by rewrite !lookup_insert_eq, od_get_set_eq.
  - intros m [Hne Hm]%not_elem_of_cons. cbn in Hne.
    destruct (Hout m Hm) as (-> & -> & ->). cbn.
    by rewrite !lookup_insert_ne, od_get_set_ne by done.
Qed.

(** X23: the replay of an object whose record holds whole replacements
    only, on any object: it goes through; every method on record is replaced
    by the function recorded for it, bound to the target, which remembers
    [old] as its id and records the replacement in its turn; the other
    methods, and the metaclass, are left as they are. *)
Theorem replay_of_whole_replacements (obj : SupportMethodCustomization)
    (h : Heap) :
  Forall (λ item, ∃ f, item.2 = Replacement (Some f)) (_customs obj) →
  NoDup (_customs obj).*1 →
  ∃ h',
    copy_custom_behaviors analyse_function obj h = (h', Ok tt)
    ∧ (∀ m f, (m, Replacement (Some f)) ∈ _customs obj →
         methods (self h') !! m = Some (Bound f)
         ∧ _old_ids (self h') !! m = Some "old"
         ∧ od_get m (_customs (self h')) = Some (Replacement (Some f)))
    ∧ (∀ m, m ∉ (_customs obj).*1 →
         methods (self h') !! m = methods (self h) !! m
         ∧ od_get m (_customs (self h')) = od_get m (_customs (self h)))
    ∧ metaclass h' = metaclass h.
Proof.
  intros Hall Hnd. unfold copy_custom_behaviors.
  destruct (copy_methods_replacements obj (_customs obj) h Hall Hnd)
    as (h' & Hrun & Hin & Hout & Hmeta).
  exists h'. split_and!; [done..| |done].
  intros m Hm. by destruct (Hout m Hm) as (-> & _ & ->).
Qed.


End ReplayOfRecords.

Lemma replay_of_whole_replacements_witness :
  transparent accept_post_get
  ∧ Forall (λ item, ∃ f, item.2 = Replacement (Some f))
      (_customs (self whole_replaced))
  ∧ NoDup (_customs (self whole_replaced)).*1
  ∧ ∃ h',
      copy_custom_behaviors accept_post_get (self whole_replaced)
        (start (feature 2)) = (h', Ok tt)
      ∧ methods (self h') !! "post_get" = Some (Bound (step 1)).
Proof.
  assert (H1 : transparent accept_post_get) by apply accept_transparent.
  assert (H2 : Forall (λ item, ∃ f, item.2 = Replacement (Some f))
                 (_customs (self whole_replaced))).
  { apply Forall_singleton. by exists (step 1). }
  assert (H3 : NoDup (_customs (self whole_replaced)).*1)
    by apply NoDup_singleton.
  split_and!; [exact H1|exact H2|exact H3|].
  destruct (replay_of_whole_replacements accept_post_get H1
              (self whole_replaced) (start (feature 2)) H2 H3)
    as (h' & Hrun & Hin & _).
  exists h'. split; [exact Hrun|].
  apply (Hin "post_get" (step 1)). apply list_elem_of_here.
Defined.


(** * The feature [Mapping] *)

Section MappingProofs.

Context {T : Type} `{EqDecision T}.

Lemma dict_get_set_eq (k v : T) d :
  MappingFeature.dict_get k (MappingFeature.dict_set k v d) = Ok v.
Proof.
  induction d as [|[k' v'] d IH]; cbn.
  - by rewrite decide_True.
  - destruct (decide (k' = k)) as [->|Hne]; cbn.
    + by rewrite decide_True.
    + by rewrite decide_False.
Qed.

Lemma dict_get_set_ne (k k' v : T) d :
  k ≠ k' →
  MappingFeature.dict_get k' (MappingFeature.dict_set k v d)
  = MappingFeature.dict_get k' d.
Proof.
  intros Hne. induction d as [|[k0 v0] d IH]; cbn.
  - by rewrite decide_False.
  - destruct (decide (k0 = k)) as [->|Hk0]; cbn.
    + by rewrite !decide_False.
    + by rewrite IH.
Qed.

Lemma dict_get_app_notin (k : T) d1 d2 :
  k ∉ d1.*1 →
  MappingFeature.dict_get k (d1 ++ d2) = MappingFeature.dict_get k d2.
Proof.
  induction d1 as [|[k' v'] d1 IH]; [done|]. rewrite fmap_cons.
  intros [Hne Hk]%not_elem_of_cons. cbn in *.
  rewrite decide_False by done. by apply IH.
Qed.

Lemma dict_get_notin (k : T) d :
  k ∉ d.*1 → MappingFeature.dict_get k d = Raise KeyError.
Proof.
  intros Hk. rewrite <- (app_nil_r d). by rewrite dict_get_app_notin.
Qed.

(** The items that come after the last one for a value leave what the
    inverse gives for the value. *)
Lemma inverse_fold_notin (v : T) d acc :
  v ∉ d.*2 →
  MappingFeature.dict_get v
    (fold_left (λ acc item, MappingFeature.dict_set item.2 item.1 acc) d acc)
  = MappingFeature.dict_get v acc.
Proof.
  revert acc. induction d as [|[k' v'] d IH]; intros acc; [done|].
  rewrite fmap_cons. intros [Hne Hv]%not_elem_of_cons. cbn in *.
  rewrite IH by done. by rewrite dict_get_set_ne.
Qed.

(** X25: the two conversions of a [Mapping] built from one dictionary.  A
    user value that is a key is mapped to its instrument value, and the
    instrument value is mapped back to the last key, in the order of the
    dictionary, that has this value: to the user value itself when no other
    key has the same value.  A value that is not a key, and an instrument
    value no key has, raise [KeyError]. *)
Theorem mapping_round_trip (d1 d2 : list (T * T)) (k v : T)
    (self_ : MappingFeature.maps) :
  NoDup (d1 ++ (k, v) :: d2).*1 →
  v ∉ d2.*2 →
  MappingFeature.init_maps (MappingFeature.mapping_dict (d1 ++ (k, v) :: d2))
  = Ok self_ →
  MappingFeature.map_value self_ k = Ok v
  ∧ MappingFeature.reverse_map_value self_ v = Ok k
  ∧ (∀ k', k' ∉ (d1 ++ (k, v) :: d2).*1 →
       MappingFeature.map_value self_ k' = Raise KeyError)
  ∧ (∀ v', v' ∉ (d1 ++ (k, v) :: d2).*2 →
       MappingFeature.reverse_map_value self_ v' = Raise KeyError).
Proof.
  intros Hnd Hlast Hinit.
  assert (self_ = {| MappingFeature._map := d1 ++ (k, v) :: d2;
                     MappingFeature._imap :=
                       MappingFeature.inverse (d1 ++ (k, v) :: d2) |}) as ->.
  { unfold MappingFeature.init_maps in Hinit.
    destruct (d1 ++ (k, v) :: d2) eqn:Hd; [by destruct d1|]. congruence. }
  unfold MappingFeature.map_value, MappingFeature.reverse_map_value. cbn.
  split_and!.
  - rewrite dict_get_app_notin.
    + cbn. by rewrite decide_True.
    + rewrite fmap_app, fmap_cons in Hnd. apply NoDup_app in Hnd as (_ & Hnd & _).
      intros Hin. apply (Hnd _ Hin). by left.
  - unfold MappingFeature.inverse. rewrite fold_left_app. cbn.
    rewrite inverse_fold_notin by done. apply dict_get_set_eq.
  - intros k' Hk'. by apply dict_get_notin.
  - intros v' Hv'. unfold MappingFeature.inverse.
    by rewrite inverse_fold_notin.
Qed.

End MappingProofs.

Lemma mapping_round_trip_witness :
  NoDup ([("On", "1")] ++ ("Off", "0") :: []).*1
  ∧ ("0" ∉ ([] : list (string * string)).*2)
  ∧ ∃ self_,
      MappingFeature.init_maps (MappingFeature.mapping_dict on_off) = Ok self_
      ∧ MappingFeature.map_value self_ "Off" = Ok "0"
      ∧ MappingFeature.reverse_map_value self_ "0" = Ok "Off".
Proof.
  assert (H1 : NoDup ([("On", "1")] ++ ("Off", "0") :: []).*1)
    by (apply (bool_decide_unpack _); vm_compute; exact I).
  assert (H2 : "0" ∉ ([] : list (string * string)).*2) by apply not_elem_of_nil.
  split_and!; [exact H1|exact H2|]. eexists. split; [reflexivity|].
  destruct (mapping_round_trip [("On", "1")] [] "Off" "0" _ H1 H2 eq_refl)
    as (Hmap & Hback & _).
  split; [exact Hmap|exact Hback].
Defined.

Section MappingInit.

Context {T : Type} `{EqDecision T}.

Variable analyse_function :
  SupportMethodCustomization → string → PyFunc → list string → result Analysis.

Hypothesis analyse_function_transparent : transparent analyse_function.

(** An internal [append] on a method of the object. *)
Lemma internal_append_run method_name func_ modif_id_ h ns ms :
  pipeline method_name (self h) = Some (ns, ms) →
  modif_id_ ∉ ns →
  ∃ h',
    modify_behavior analyse_function method_name func_ ["append"] modif_id_
      true h = (h', Ok tt)
    ∧ pipeline method_name (self h') = Some (ns ++ [modif_id_], ms ++ [func_])
    ∧ (∀ m, m ≠ method_name → pipeline m (self h') = pipeline m (self h))
    ∧ _customs (self h') = _customs (self h).
Proof.
  intros Hp Hnew. rewrite modify_behavior_run. cbn zeta.
  unfold intent_recorded.
  rewrite (bool_decide_eq_false_2 (["append"] !! 0 = Some "remove")) by done.
  rewrite orb_true_r.
  destruct (analyse_function_transparent (self h) method_name func_ ["append"])
    as (sg & ch & ->).
  rewrite compose_method_run.
  destruct (methods (self h) !! method_name) as [current|] eqn:Hcur.
  2:{ unfold pipeline in Hp. by rewrite Hcur in Hp. }
  destruct (composer_for _ _ _ _ _) as [meta' c] eqn:Hc.
  pose proof (composer_for_pipeline _ _ _ _ _ _ _ Hcur Hc) as Hpc.
  rewrite Hp in Hpc. injection Hpc as -> ->.
  assert (update_composer ["append"] modif_id_ func_ c
          = (set_methods (_methods c ++ [func_])
               (set_names (_names c ++ [modif_id_]) c), Ok tt)) as ->.
  { composer_unfold. decide_kinds. by rewrite decide_False by done. }
  eexists. split; [done|]. cbn. split_and!; [|  |done].
  - unfold pipeline. cbn. by rewrite lookup_insert_eq.
  - intros m Hm. unfold pipeline. cbn. by rewrite lookup_insert_ne by done.
Qed.


End MappingInit.


(** * From the signature of a function to the parameters of the composer *)

Lemma read_token_norm_arg arg alias :
  (∀ s, p_name arg ≠ String "*" s) →
  (truthy alias = true → p_name arg ≠ "self") →
  read_token (norm_arg arg alias) = (token_kind_of (p_kind arg), p_name arg).
Proof.
  intros Hstar Hself. unfold norm_arg.
  assert (truthy alias && bool_decide (p_name arg = "self") = false) as ->.
  { destruct (truthy alias); [|done]. cbn. apply bool_decide_eq_false. auto. }
  destruct arg as [x k]. cbn in *.
  destruct x as [|a x]; [by destruct k|].
  destruct (decide (a = "*"%char)) as [->|Hne]; [by destruct (Hstar x)|].
  destruct a as [[] [] [] [] [] [] [] []]; try (by destruct k).
Qed.

(** X27: the tokens [normalize_signature] writes are read back, in the
    [def] line of the generated [__call__], as parameters with the names and
    the variadic marks of the parameters of the function: the composer takes,
    after [self], the parameters the function has after its first one.  (The
    names are identifiers, which do not start with a star, and no parameter
    after the first is called [self] when an alias is given.) *)
Theorem signature_tokens_round_trip (sig : list Param) (alias : option string) :
  Forall (λ arg, ∀ s, p_name arg ≠ String "*" s) sig →
  (truthy alias = true → Forall (λ arg, p_name arg ≠ "self") (drop 1 sig)) →
  read_token <$> drop 1 (normalize_signature sig alias)
  = (λ arg, (token_kind_of (p_kind arg), p_name arg)) <$> drop 1 sig.
Proof.
  intros Hstar Hself. unfold normalize_signature.
  rewrite <- fmap_drop, <- list_fmap_compose.
  apply Forall_fmap_ext_1. apply Forall_forall. intros arg Harg. cbn.
  apply read_token_norm_arg.
  - rewrite Forall_forall in Hstar. apply Hstar.
    by apply (subseteq_drop 1 sig).
  - intros Halias. specialize (Hself Halias). rewrite Forall_forall in Hself.
    by apply Hself.
Qed.

Lemma signature_tokens_round_trip_witness :
  Forall (λ arg, ∀ s, p_name arg ≠ String "*" s) check_signature
  ∧ (truthy (Some "feat") = true →
     Forall (λ arg, p_name arg ≠ "self") (drop 1 check_signature))
  ∧ drop 1 (normalize_signature check_signature (Some "feat"))
    = ["driver"; "*args"; "**kwargs"]
  ∧ read_token <$> drop 1 (normalize_signature check_signature (Some "feat"))
    = [(Bare, "driver"); (Star, "args"); (DoubleStar, "kwargs")].
Proof.
  assert (H1 : Forall (λ arg, ∀ s, p_name arg ≠ String "*" s) check_signature)
    by (repeat constructor; discriminate).
  assert (H2 : truthy (Some "feat") = true →
               Forall (λ arg, p_name arg ≠ "self") (drop 1 check_signature))
    by (intros _; repeat constructor; discriminate).
  split_and!; [exact H1|exact H2|reflexivity|].
  exact (signature_tokens_round_trip check_signature (Some "feat") H1 H2).
Defined.

(** * An id used twice *)

Lemma update_composer_duplicate kind_ rest modif_id_ func_ c :
  modif_id_ ∈ _names c →
  kind_ = "prepend" ∨ kind_ = "append"
  ∨ ((kind_ = "add_before" ∨ kind_ = "add_after") ∧ rest ≠ []) →
  update_composer (kind_ :: rest) modif_id_ func_ c
  = (c, Raise DuplicateIdentifier).
Proof.
  intros Hin Hkind.
  destruct Hkind as [->|[->|[[->| ->] Hrest]]]; composer_unfold; decide_kinds;
    try (destruct rest as [|anchor rest]; [done|]; cbn);
    by rewrite decide_True by done.
Qed.

Section Duplicates.

Variable analyse_function :
  SupportMethodCustomization → string → PyFunc → list string → result Analysis.

(** X28: an insertion under an id that the composer of the method already
    has is refused by [modify_behavior] with the [ValueError] of the
    duplicates.  The methods of the object, the composer included, the ids
    kept for the original methods and the metaclass are what they were.  The
    record of the modifications is what the recording of the intent, made
    before the composer is looked at, left: the record as it was for an
    internal call and for a method that has modifications on record, and for
    a method that has a whole replacement on record, the modifications that
    stand for it: the function of the replacement, to prepend under the id
    [old]. *)
Theorem duplicate_modification_refused (method_name : string) (func_ : PyFunc)
    (kind_ : string) (rest : list string) (modif_id_ : string)
    (internal_ : bool) (h : Heap) (c : MethodComposer)
    (sigs_ : option (list Sig)) (chain_on : option string) :
  methods (self h) !! method_name = Some (Composed c) →
  modif_id_ ∈ _names c →
  kind_ = "prepend" ∨ kind_ = "append"
  ∨ ((kind_ = "add_before" ∨ kind_ = "add_after") ∧ rest ≠ []) →
  analyse_function
    (self (intent_recorded method_name func_ (kind_ :: rest) internal_ h))
    method_name func_ (kind_ :: rest) = Ok (kind_ :: rest, sigs_, chain_on) →
  ∃ h',
    modify_behavior analyse_function method_name func_ (kind_ :: rest)
      modif_id_ internal_ h = (h', Raise DuplicateIdentifier)
    ∧ methods (self h') = methods (self h)
    ∧ _old_ids (self h') = _old_ids (self h)
    ∧ metaclass h' = metaclass h
    ∧ _customs (self h')
      = (if internal_ then _customs (self h)
         else record_intent method_name func_ (kind_ :: rest) (_customs (self h)))
    ∧ (∀ customs,
         od_get method_name (_customs (self h)) = Some (Mapping customs) →
         _customs (self h') = _customs (self h))
    ∧ (∀ old,
         internal_ = false →
         od_get method_name (_customs (self h)) = Some (Replacement old) →
         od_get method_name (_customs (self h'))
         = Some (Mapping [("old", (old, ["prepend"]))])).
Proof.
  intros Hm Hin Hkind Hhook. rewrite modify_behavior_run. cbn zeta.
  rewrite (bool_decide_eq_false_2 ((kind_ :: rest) !! 0 = Some "remove")).
  2:{ cbn. destruct Hkind as [->|[->|[[->| ->] _]]]; by intros [=]. }
  rewrite orb_true_r, Hhook. rewrite compose_method_run.
  assert (methods (self (intent_recorded method_name func_ (kind_ :: rest)
                           internal_ h)) = methods (self h)) as Hm1
    by (unfold intent_recorded; by destruct internal_).
  rewrite Hm1, Hm. cbn [composer_for].
  rewrite update_composer_duplicate by done.
  eexists. split; [done|]. cbn. split_and!.
  - rewrite Hm1. by apply insert_id.
  - unfold intent_recorded. by destruct internal_.
  - unfold intent_recorded. by destruct internal_.
  - unfold intent_recorded. by destruct internal_.
  - intros customs Hrec. unfold intent_recorded. destruct internal_; [done|].
    cbn. unfold record_intent. by rewrite Hrec.
  - intros old -> Hrec. unfold intent_recorded. cbn.
    unfold record_intent. rewrite Hrec. apply od_get_set_eq.
Qed.

End Duplicates.

Lemma duplicate_modification_refused_witness :
  ∃ c,
    methods (self with_step_a) !! "post_get" = Some (Composed c)
    ∧ "a" ∈ _names c
    ∧ ∃ h',
        modify_behavior accept_post_get "post_get" (Some (step 2))
          ["add_after"; "old"] "a" false with_step_a
        = (h', Raise DuplicateIdentifier)
        ∧ methods (self h') = methods (self with_step_a)
        ∧ _customs (self h') = _customs (self with_step_a).
Proof.
  eexists.
  assert (H1 : methods (self with_step_a) !! "post_get"
               = Some (Composed
                         (set_methods [Some f_old; Some (step 1)]
                            (set_names ["old"; "a"] old_composer))))
    by reflexivity.
  assert (H2 : "a" ∈ _names (set_methods [Some f_old; Some (step 1)]
                               (set_names ["old"; "a"] old_composer)))
    by apply list_elem_of_further, list_elem_of_here.
  split_and!; [exact H1|exact H2|].
  destruct (duplicate_modification_refused accept_post_get "post_get"
              (Some (step 2)) "add_after" ["old"] "a" false with_step_a _
              (Some [["feat"; "driver"; "value"]]) (Some "value")
              H1 H2) as (h' & Hrun & Hm & _ & _ & _ & Hsame & _).
  - right. right. split; [by right|done].
  - reflexivity.
  - exists h'. split_and!; [exact Hrun|exact Hm|].
    exact (Hsame _ eq_refl).
Defined.

(** * Chains of several names *)

Lemma read_vars_frame toks args ts ps :
  NoDup toks → length args = length toks →
  Forall2 (λ t i, toks !! i = Some t) ts ps →
  read_vars ts (frame toks args)
  = Ok ((λ i, default VNone (args !! i)) <$> ps).
Proof.
  intros Hnd Hlen Hpos. induction Hpos as [|t i ts ps Hi _ IH]; [done|].
  cbn. munfold. unfold read_var.
  destruct (lookup_lt_is_Some_2 args i) as [v Hv].
  { rewrite Hlen. by eapply lookup_lt_Some. }
  rewrite (frame_lookup toks args i t v) by done. cbn.
  by rewrite IH, Hv.
Qed.

Lemma read_vars_ext ts env env' :
  (∀ x, x ∈ ts → env !! x = env' !! x) → read_vars ts env = read_vars ts env'.
Proof.
  induction ts as [|t ts IH]; intros Hagree; [done|].
  cbn. unfold read_var. rewrite (Hagree t) by apply list_elem_of_here.
  rewrite IH; [done|]. intros x Hx. apply Hagree. by apply list_elem_of_further.
Qed.

Lemma return_value_locals toks args t1 t2 ts ps env :
  NoDup toks → "m" ∉ toks → length args = length toks →
  Forall2 (λ t i, toks !! i = Some t) (t1 :: t2 :: ts) ps →
  (∀ x, x ≠ "m" → env !! x = frame toks args !! x) →
  return_value (t1 :: t2 :: ts) env
  = Ok (VTuple ((λ i, default VNone (args !! i)) <$> ps)).
Proof.
  intros Hnd Hm Hlen Hpos Henv. unfold return_value.
  rewrite (read_vars_ext _ env (frame toks args)).
  - by rewrite (read_vars_frame toks args _ ps).
  - intros x Hx. apply Henv. intros ->. apply Hm.
    apply list_elem_of_lookup in Hx as [j Hj].
    destruct (Forall2_lookup_l _ _ _ _ _ Hpos Hj) as (i & _ & Hi).
    by eapply list_elem_of_lookup_2.
Qed.

Lemma length_store_all ps vals args :
  length (store_all ps vals args) = length args.
Proof.
  unfold store_all. revert args.
  induction (zip ps vals) as [|[i v] l IH]; intros args; [done|].
  cbn. by rewrite IH, length_insert.
Qed.

Lemma assign_all_frame toks args ts ps vals :
  NoDup toks → length args = length toks →
  Forall2 (λ t i, toks !! i = Some t) ts ps →
  assign_all ts vals (frame toks args) = frame toks (store_all ps vals args).
Proof.
  intros Hnd Hlen Hpos. revert vals args Hlen.
  induction Hpos as [|t i ts ps Hi _ IH]; intros vals args Hlen.
  { by destruct vals. }
  destruct vals as [|v vals]; [done|]. cbn.
  rewrite (frame_insert toks args i t v) by done.
  rewrite IH by (by rewrite length_insert). done.
Qed.

Lemma assign_all_ext ts vals env env' x :
  env !! x = env' !! x →
  assign_all ts vals env !! x = assign_all ts vals env' !! x.
Proof.
  revert vals env env'. induction ts as [|t ts IH]; intros vals env env' Hx;
    [done|].
  destruct vals as [|v vals]; [done|]. cbn. apply IH.
  destruct (decide (x = t)) as [->|Hne].
  - by rewrite !lookup_insert_eq.
  - by rewrite !lookup_insert_ne.
Qed.

Arguments assign_all : simpl never.
Arguments return_value : simpl never.

Section ManyProofs.

Context {W : Type}.
Variable call : Func → nat → list pyval → list (string * pyval) → M W pyval.

Lemma run_methods_many owner toks t1 t2 ts ps ms args env w :
  Forall bare toks → NoDup toks → "m" ∉ toks →
  Forall2 (λ t i, toks !! i = Some t) (t1 :: t2 :: ts) ps →
  length args = length toks →
  (∀ x, x ≠ "m" → env !! x = frame toks args !! x) →
  (env' ← run_methods call owner toks (t1 :: t2 :: ts) ms env;
   lift (return_value (t1 :: t2 :: ts) env')) w
  = thread_accumulators call owner ms args ps w.
Proof.
  intros Hb Hnd Hm Hpos. revert args env w.
  induction ms as [|m ms IH]; intros args env w Hlen Henv.
  - transitivity (lift (return_value (t1 :: t2 :: ts) env) w); [done|].
    by rewrite (return_value_locals toks args t1 t2 ts ps).
  - cbn [run_methods thread_accumulators]. munfold.
    rewrite (eval_args_locals toks args); [|done..|].
    2:{ intros x Hx. rewrite lookup_insert_ne by done. by apply Henv. }
    cbn. unfold call_step. munfold.
    destruct m as [f|]; [|done]. cbn.
    destruct (call f owner args [] w) as [w' [r|e]]; [|done]. cbn.
    destruct (iterate r) as [vals|e]; [|done]. cbn.
    pose proof (Forall2_length _ _ _ Hpos) as Hl. cbn in Hl. rewrite Hl.
    destruct (decide (length vals = length ps)); [|done]. cbn.
    rewrite <- (IH (store_all ps vals args)
                  (assign_all (t1 :: t2 :: ts) vals (<["m" := VFunc f]> env)) w').
    + by munfold.
    + by rewrite length_store_all.
    + intros x Hx.
      rewrite <- (assign_all_frame toks args (t1 :: t2 :: ts) ps) by done.
      apply assign_all_ext. rewrite lookup_insert_ne by done. by apply Henv.
Qed.

(** X29: a chain of several names.  Take a class with plain parameters,
    none of them called [m], whose chain names two or more of them, and a
    call with as many arguments as parameters.  Every step is called with
    the arguments of the call in which the chained arguments are the values
    the step before returned; what a step returns is unpacked into as many
    values as there are names in the chain, and a step that returns another
    number of values makes the call raise the [ValueError] of the unpacking;
    the call returns the tuple of the chained values after the last step. *)
Theorem call_threads_several_names (self : MethodComposer) (args : list pyval)
    (t1 t2 : string) (ts : list string) (ps : list nat) (w : W) :
  Forall bare (class_args (__class__ self)) →
  NoDup (class_args (__class__ self)) →
  "m" ∉ class_args (__class__ self) →
  length args = length (class_args (__class__ self)) →
  chain_targets (class_chain (__class__ self)) = t1 :: t2 :: ts →
  Forall2 (λ t i, class_args (__class__ self) !! i = Some t) (t1 :: t2 :: ts) ps →
  __call__ call self args w
  = thread_accumulators call (__self__ self) (_methods self) args ps w.
Proof.
  intros Hb Hnd Hm Hlen Hchain Hpos. unfold __call__. rewrite Hchain.
  rewrite <- (run_methods_many _ (class_args (__class__ self)) t1 t2 ts ps
                _ args (frame (class_args (__class__ self)) args)) by done.
  munfold. by rewrite bind_args_frame.
Qed.

End ManyProofs.

Lemma call_threads_several_names_witness :
  Forall bare (class_args (__class__ two_swaps))
  ∧ NoDup (class_args (__class__ two_swaps))
  ∧ ("m" ∉ class_args (__class__ two_swaps))
  ∧ chain_targets (class_chain (__class__ two_swaps)) = ["a"; "b"]
  ∧ Forall2 (λ t i, class_args (__class__ two_swaps) !! i = Some t)
      ["a"; "b"] [0; 1]
  ∧ __call__ swap (set_methods [Some (step 1)] two_swaps) [VInt 1; VInt 2] tt
    = (tt, Ok (VTuple [VInt 2; VInt 1]))
  ∧ __call__ swap two_swaps [VInt 1; VInt 2] tt
    = (tt, Ok (VTuple [VInt 1; VInt 2])).
Proof.
  assert (H1 : Forall bare (class_args (__class__ two_swaps)))
    by (repeat constructor).
  assert (H2 : NoDup (class_args (__class__ two_swaps)))
    by (apply (bool_decide_unpack _); vm_compute; exact I).
  assert (H3 : chain_targets (class_chain (__class__ two_swaps)) = ["a"; "b"])
    by reflexivity.
  assert (H4 : Forall2 (λ t i, class_args (__class__ two_swaps) !! i = Some t)
                 ["a"; "b"] [0; 1]) by (repeat constructor).
  assert (H5 : "m" ∉ class_args (__class__ two_swaps))
    by (apply (bool_decide_unpack _); vm_compute; exact I).
  split_and!; [exact H1|exact H2|exact H5|exact H3|exact H4|reflexivity|].
  etrans; [|reflexivity].
  exact (call_threads_several_names swap two_swaps [VInt 1; VInt 2]
           "a" "b" [] [0; 1] tt H1 H2 H5 eq_refl H3 H4).
Defined.

(** * A declaration with its function *)

Section Declaration.

Variable analyse_function :
  SupportMethodCustomization → string → PyFunc → list string → result Analysis.

Hypothesis analyse_function_transparent : transparent analyse_function.

(** X30: a declaration made without specifiers, once it has decorated a
    function, is applied to an owner whose attribute [desc_name] can be
    customised without raising: the method of the attribute is replaced by
    the function, bound to it, the attribute records the replacement, and the
    other attributes of the owner and the metaclass are what they were. *)
Theorem decorated_declaration_replaces_the_method
    (desc_name_ meth_name_ decorated_name : string) (f : Func)
    (meta : MetaMethodComposer) (attributes : gmap string Attribute)
    (desc : SupportMethodCustomization) :
  attributes !! desc_name_ = Some (Customizable desc) →
  ∃ desc',
    customize_customize analyse_function
      (customize__call__ (customize__init__ desc_name_ meth_name_ [] "custom") f)
      decorated_name (meta, attributes)
    = ((meta, <[desc_name_ := Customizable desc']> attributes), Ok tt)
    ∧ methods desc' = <[meth_name_ := Bound f]> (methods desc)
    ∧ _old_ids desc' !! meth_name_ = Some "old"
    ∧ od_get meth_name_ (_customs desc') = Some (Replacement (Some f)).
Proof.
  intros Hdesc. unfold customize_customize. cbn. rewrite Hdesc.
  rewrite (whole_replacement_run analyse_function analyse_function_transparent).
  cbn. eexists. split; [done|]. cbn.
  split_and!; [done|apply lookup_insert_eq|apply od_get_set_eq].
Qed.

End Declaration.

Lemma decorated_declaration_replaces_the_method_witness :
  transparent accept_post_get
  ∧ owner_class.2 !! "feat" = Some (Customizable (feature 1))
  ∧ ∃ desc',
      customize_customize accept_post_get
        (customize__call__ (customize__init__ "feat" "post_get" [] "custom")
           (step 1))
        "_post_get" owner_class
      = ((no_classes, <["feat" := Customizable desc']> owner_class.2), Ok tt)
      ∧ methods desc' !! "post_get" = Some (Bound (step 1)).
Proof.
  assert (H1 : transparent accept_post_get) by apply accept_transparent.
  assert (H2 : owner_class.2 !! "feat" = Some (Customizable (feature 1)))
    by reflexivity.
  split_and!; [exact H1|exact H2|].
  destruct (decorated_declaration_replaces_the_method accept_post_get H1
              "feat" "post_get" "_post_get" (step 1) no_classes owner_class.2
              (feature 1) H2) as (desc' & Hrun & Hm & _).
  exists desc'. split; [exact Hrun|]. rewrite Hm. apply lookup_insert_eq.
Defined.
